(** * Tagstr: topic index and relay discovery

    A shallow embedding of the two engines of the Tagstr client:

    - the topic index of [NostrService] ([trackHashtagEvents],
      [trackHashtagRelayDistribution], [getHashtagEvents],
      [getHashtagRelayDistribution]) from [services/NostrService.ts];
    - the relay recommendation engine [StandardRelayDiscovery] from
      [utils/relayDiscovery.ts], with the helpers [isValidRelayUrl] and
      [normalizeRelayUrl] from [utils/helpers.ts].

    Conventions.  A JavaScript string is a [string] of 8-bit code units.
    A JavaScript number that holds a time stamp, a kind or a threshold is
    an integer [Z]; a counter is a [nat].  A [Map] whose iteration order is
    observable is an insertion-ordered association list ([JsMap]); a [Map]
    that is only looked up by key is a [gmap]; a [Set] of which only
    membership and size are observed is a [gset].  [Date.now()] is an
    explicit argument [now].  The platform's [URL] class and [JSON.parse]
    are parameters of the development. *)

From Stdlib Require Import ZArith Ascii String List Permutation Sorted.
From stdpp Require Import gmap strings list.

Open Scope string_scope.
Open Scope list_scope.

(** ** JavaScript strings *)

Module JsString.

Definition isUpper (c : ascii) : bool :=
  let n := nat_of_ascii c in (65 <=? n)%nat && (n <=? 90)%nat.

Definition lowerChar (c : ascii) : ascii :=
  if isUpper c then ascii_of_nat (nat_of_ascii c + 32) else c.

(** [s.toLowerCase()] on code units below 128. *)
Fixpoint toLowerCase (s : string) : string :=
  match s with
  | EmptyString => EmptyString
  | String c s' => String (lowerChar c) (toLowerCase s')
  end.

(** [h.startsWith(p)] *)
Fixpoint startsWith (h p : string) : bool :=
  match p, h with
  | EmptyString, _ => true
  | String _ _, EmptyString => false
  | String a p', String b h' => Ascii.eqb a b && startsWith h' p'
  end.

Fixpoint drop (n : nat) (s : string) : string :=
  match n, s with
  | O, _ => s
  | S n', String _ s' => drop n' s'
  | S _, EmptyString => EmptyString
  end.

Fixpoint firstn (n : nat) (s : string) : string :=
  match n, s with
  | S n', String c s' => String c (firstn n' s')
  | _, _ => EmptyString
  end.

(** [h.endsWith(p)]: the last [|p|] code units of [h] are [p]. *)
Definition endsWith (h p : string) : bool :=
  (String.length p <=? String.length h)%nat
  && String.eqb (drop (String.length h - String.length p) h) p.

(** [s.replace(/\/$/, '')] *)
Fixpoint stripTrailingSlash (s : string) : string :=
  match s with
  | EmptyString => EmptyString
  | String c EmptyString => if Ascii.eqb c "/" then EmptyString else s
  | String c s' => String c (stripTrailingSlash s')
  end.

(** A value used as a condition: a string is truthy when it is not
    empty, [undefined] is falsy. *)
Definition truthy (o : option string) : bool :=
  match o with
  | Some (String _ _) => true
  | _ => false
  end.

End JsString.

(** ** Insertion-ordered maps with string keys

    [Map.prototype.set] keeps the position of a key that is present and
    appends a new key; iteration follows that order. *)

Module JsMap.
Section Ops.
Context {V : Type}.

Fixpoint get (k : string) (m : list (string * V)) : option V :=
  match m with
  | [] => None
  | (k', v) :: m' => if String.eqb k' k then Some v else get k m'
  end.

Fixpoint set (k : string) (v : V) (m : list (string * V)) : list (string * V) :=
  match m with
  | [] => [(k, v)]
  | (k', v') :: m' =>
      if String.eqb k' k then (k, v) :: m' else (k', v') :: set k v m'
  end.

Definition delete (k : string) (m : list (string * V)) : list (string * V) :=
  List.filter (fun kv => negb (String.eqb (fst kv) k)) m.

Definition keys (m : list (string * V)) : list string := fst <$> m.

(** The representation invariant of a [Map]: keys are unique. *)
Definition wf (m : list (string * V)) : Prop := NoDup (keys m).
End Ops.
End JsMap.

(** ** Stable sort and slice of arrays *)

Module JsArray.
Section Sort.
Context {A : Type} (cmp : A -> A -> Z).

(** [Array.prototype.sort(cmp)] is stable: among the elements that
    [cmp] does not order, the original order is kept.  [insert x l]
    places [x], which precedes all of [l] in the input, in front of
    the first element that [cmp] does not put before [x]. *)
Fixpoint insert (x : A) (l : list A) : list A :=
  match l with
  | [] => [x]
  | y :: l' => if (0 <? cmp x y)%Z then y :: insert x l' else x :: y :: l'
  end.

Definition sort (l : list A) : list A := foldr insert [] l.
End Sort.

(** [l.slice(0, n)]; a negative [n] counts from the end. *)
Definition slice0 {A : Type} (n : Z) (l : list A) : list A :=
  if (n <? 0)%Z then take (Z.to_nat (Z.of_nat (length l) + n)) l
  else take (Z.to_nat n) l.


(** [new Set(l)] followed by [Array.from]: first occurrences, in order. *)
Definition dedupeStep (acc : list string) (x : string) : list string :=
  if existsb (String.eqb x) acc then acc else acc ++ [x].

Definition dedupe (l : list string) : list string := foldl dedupeStep [] l.

(** Descending by [key]. *)
Definition desc {A : Type} (key : A -> Z) (a b : A) : Prop := (key b <= key a)%Z.
End JsArray.

(** ** Events *)

Record NostrEvent := {
  id : string;
  pubkey : string;
  created_at : Z;
  kind : Z;
  tags : list (list string);
  content : string;
  sig : string
}.

(** ** The topic index of [NostrService] *)

Module TopicIndex.
Import JsString.

(** [tag => tag[0] === 't' && tag[1]] *)
Definition isTopicTag (tag : list string) : bool :=
  match tag !! 0%nat with
  | Some t0 => String.eqb t0 "t" && truthy (tag !! 1%nat)
  | None => false
  end.

(** [event.tags.filter(...).map(tag => tag[1].toLowerCase())] *)
Definition hashtagsOf (event : NostrEvent) : list string :=
  fmap (fun tag => toLowerCase (default "" (tag !! 1%nat)))
       (List.filter isTopicTag (tags event)).

Definition hasId (i : string) (events : list NostrEvent) : bool :=
  existsb (fun e => String.eqb (id e) i) events.

(** The body of the [forEach] in [trackHashtagEvents] for one hashtag:
    create the list when the key is absent, [unshift] the event unless
    its id is present, [splice(100)] when longer than 100. *)
Definition storeEvent (event : NostrEvent) (events : list NostrEvent)
    : list NostrEvent :=
  let events1 := if hasId (id event) events then events else event :: events in
  if (100 <? length events1)%nat then take 100 events1 else events1.

Definition trackOne (event : NostrEvent)
    (m : gmap string (list NostrEvent)) (hashtag : string)
    : gmap string (list NostrEvent) :=
  <[hashtag := storeEvent event (default [] (m !! hashtag))]> m.

Definition trackHashtagEvents (event : NostrEvent)
    (m : gmap string (list NostrEvent)) : gmap string (list NostrEvent) :=
  foldl (trackOne event) m (hashtagsOf event).

Definition getHashtagEvents (hashtag : string)
    (m : gmap string (list NostrEvent)) : list NostrEvent :=
  default [] (m !! toLowerCase hashtag).

(** The index after a sequence of deliveries, oldest first. *)
Definition deliverAll (events : list NostrEvent)
    (m : gmap string (list NostrEvent)) : gmap string (list NostrEvent) :=
  foldl (fun m e => trackHashtagEvents e m) m events.

(** [relayDist.set(relayUrl, (relayDist.get(relayUrl) || 0) + 1)] *)
Definition bump (relayUrl : string) (relayDist : list (string * nat))
    : list (string * nat) :=
  JsMap.set relayUrl (default 0%nat (JsMap.get relayUrl relayDist) + 1)%nat relayDist.

Definition distOne (relayUrl : string)
    (d : gmap string (list (string * nat))) (hashtag : string)
    : gmap string (list (string * nat)) :=
  <[hashtag := bump relayUrl (default [] (d !! hashtag))]> d.

Definition trackHashtagRelayDistribution (event : NostrEvent) (relayUrl : string)
    (d : gmap string (list (string * nat))) : gmap string (list (string * nat)) :=
  foldl (distOne relayUrl) d (hashtagsOf event).

Record RelayCount := { relay : string; count : nat }.

Definition getHashtagRelayDistribution (hashtag : string)
    (d : gmap string (list (string * nat))) : list RelayCount :=
  match d !! toLowerCase hashtag with
  | None => []
  | Some distribution =>
      (fun rc => {| relay := fst rc; count := snd rc |}) <$> distribution
  end.

(** The distribution after a sequence of [handleEvent] calls. *)
Definition recordAll (calls : list (NostrEvent * string))
    (d : gmap string (list (string * nat))) : gmap string (list (string * nat)) :=
  foldl (fun d c => trackHashtagRelayDistribution (fst c) (snd c) d) d calls.

(** The two maps of the service, and the path of one event delivered by
    one relay: [handleEvent] records the delivery, the subscriber of the
    merged stream records the message. *)
Record Index := {
  hashtagEvents : gmap string (list NostrEvent);
  hashtagRelayDistribution : gmap string (list (string * nat))
}.

Definition emptyIndex : Index :=
  {| hashtagEvents := ∅; hashtagRelayDistribution := ∅ |}.

Definition handleEvent (event : NostrEvent) (relayUrl : string) (st : Index) : Index :=
  {| hashtagEvents := hashtagEvents st;
     hashtagRelayDistribution :=
       trackHashtagRelayDistribution event relayUrl (hashtagRelayDistribution st) |}.

Definition next (event : NostrEvent) (st : Index) : Index :=
  {| hashtagEvents := trackHashtagEvents event (hashtagEvents st);
     hashtagRelayDistribution := hashtagRelayDistribution st |}.

Definition deliver (st : Index) (c : NostrEvent * string) : Index :=
  next (fst c) (handleEvent (fst c) (snd c) st).

(** The service after a sequence of deliveries, oldest first. *)
Definition run (calls : list (NostrEvent * string)) : Index :=
  foldl deliver emptyIndex calls.

(** [(a, b) => b.count - a.count], the comparator with which
    [updateHashtagData] of the hashtag view sorts the result of
    [getHashtagRelayDistribution]. *)
Definition byCount (a b : RelayCount) : Z :=
  (Z.of_nat (count b) - Z.of_nat (count a))%Z.

(** [insightsData.relayDistribution] as computed by [updateHashtagData]. *)
Definition insightsRelayDistribution (tag : string)
    (d : gmap string (list (string * nat))) : list RelayCount :=
  JsArray.sort byCount (getHashtagRelayDistribution tag d).

(** *** Vocabulary of the statements about the index *)

(** A list holds at most 100 events, with pairwise distinct ids. *)
Definition listOk (l : list NostrEvent) : Prop :=
  NoDup (id <$> l) /\ length l <= 100.

Definition indexOk (m : gmap string (list NostrEvent)) : Prop :=
  forall h l, m !! h = Some l -> listOk l.

(** The number of entries of [l] that carry the id [i]. *)
Definition occurrences (i : string) (l : list NostrEvent) : nat :=
  length (List.filter (fun x => String.eqb (id x) i) l).

(** The list of [h] already holds the id of [e] and is within the cap:
    [trackOne] has nothing to do. *)
Definition absorbed (e : NostrEvent) (m : gmap string (list NostrEvent))
    (h : string) : Prop :=
  exists l, m !! h = Some l /\ hasId (id e) l = true /\ length l <= 100.

(** The number of [t]-tags of [event] that name the topic [h]. *)
Definition tagCount (h : string) (event : NostrEvent) : nat :=
  length (List.filter (String.eqb h) (hashtagsOf event)).

(** The relays of the successive [relayDist.set] operations on the
    distribution of [h], for a sequence of calls. *)
Definition deliveryLog (h : string) (calls : list (NostrEvent * string))
    : list string :=
  flat_map (fun c => replicate (tagCount h (fst c)) (snd c)) calls.

(** The number of topic-tag occurrences of [h] delivered by [r]. *)
Definition deliveries (h r : string) (calls : list (NostrEvent * string)) : nat :=
  length (List.filter (String.eqb r) (deliveryLog h calls)).

(** The number of calls with relay [r] whose event references [h]. *)
Definition callsWith (h r : string) (calls : list (NostrEvent * string)) : nat :=
  length (List.filter
            (fun c => String.eqb r (snd c) && (0 <? tagCount h (fst c))%nat) calls).

(** Descending by count. *)
Definition countDesc (a b : RelayCount) : Prop := count b <= count a.

(** The number of occurrences of [r] in a log of relays. *)
Definition countIn (r : string) (log : list string) : nat :=
  length (List.filter (String.eqb r) log).

(** The distribution after the [set] operations of a log. *)
Definition tallyFrom (dist : list (string * nat)) (log : list string)
    : list (string * nat) :=
  foldl (fun dist r => bump r dist) dist log.

End TopicIndex.

(** ** The platform: [URL] and [JSON.parse]

    [new URL(s)] either throws or yields an object of which the code reads
    [protocol], [hostname] and [toString()] (the [href]).  The legacy
    contact-list content is read through [JSON.parse], [Object.entries] and
    the guards [relayInfo && typeof relayInfo === 'object' &&
    relayInfo.relay]; [contactRelays content] is the sequence of the
    [relayInfo.relay] values that pass these guards, in entry order, and is
    empty when [JSON.parse] throws or the value is not an object. *)

Record URL := { protocol : string; hostname : string; href : string }.

Class Platform := {
  parseURL : string -> option URL;
  contactRelays : string -> list string
}.

(** ** Helpers ([utils/helpers.ts]) *)

Module Helpers.
Section WithPlatform.
Context {P : Platform}.

Definition isValidRelayUrl (url : string) : bool :=
  match parseURL url with
  | Some parsed =>
      String.eqb (protocol parsed) "ws:" || String.eqb (protocol parsed) "wss:"
  | None => false
  end.

Definition normalizeRelayUrl (url : string) : string :=
  match parseURL url with
  | Some parsed => JsString.stripTrailingSlash (href parsed)
  | None => url
  end.
End WithPlatform.
End Helpers.

(** ** The two regular expressions of the hint extractor *)

Module Regex.

Definition inRange (lo hi : nat) (c : ascii) : bool :=
  let n := nat_of_ascii c in (lo <=? n)%nat && (n <=? hi)%nat.

Definition isDigit (c : ascii) : bool := inRange 48 57 c.
Definition isLower (c : ascii) : bool := inRange 97 122 c.
Definition isUpperC (c : ascii) : bool := inRange 65 90 c.

(** [[a-z0-9]] *)
Definition isLowerAlnum (c : ascii) : bool := isLower c || isDigit c.

(** [[a-zA-Z0-9.-]] *)
Definition isHostChar (c : ascii) : bool :=
  isLower c || isUpperC c || isDigit c || Ascii.eqb c "." || Ascii.eqb c "-".

(** [\s] on code units below 256 *)
Definition isSpace (c : ascii) : bool :=
  inRange 9 13 c || Ascii.eqb c " " || (nat_of_ascii c =? 160)%nat.

(** [[.,;:!?)]] *)
Definition isTrailingPunct (c : ascii) : bool :=
  existsb (Ascii.eqb c) (list_ascii_of_string ".,;:!?)").

Fixpoint allChars (p : ascii -> bool) (s : string) : bool :=
  match s with
  | EmptyString => true
  | String c s' => p c && allChars p s'
  end.

Fixpoint takeWhile (p : ascii -> bool) (s : string) : string :=
  match s with
  | EmptyString => EmptyString
  | String c s' => if p c then String c (takeWhile p s') else EmptyString
  end.

Fixpoint stripPrefix (p s : string) : option string :=
  match p, s with
  | EmptyString, _ => Some s
  | String a p', String b s' => if Ascii.eqb a b then stripPrefix p' s' else None
  | String _ _, EmptyString => None
  end.

Definition after (m s : string) : string := JsString.drop (String.length m) s.

(** One attempt of [/n(profile|event|addr)1[a-z0-9]+/] at the start of
    [s]: the matched text. *)
Definition matchNip19With (lit s : string) : option string :=
  match stripPrefix lit s with
  | Some rest =>
      match takeWhile isLowerAlnum rest with
      | EmptyString => None
      | body => Some (lit +:+ body)
      end
  | None => None
  end.

Definition matchNip19At (s : string) : option string :=
  match matchNip19With "nprofile1" s with
  | Some m => Some m
  | None =>
      match matchNip19With "nevent1" s with
      | Some m => Some m
      | None => matchNip19With "naddr1" s
      end
  end.

(** One attempt of the URL pattern of [parseNip19RelayHints] at the
    start of [s]: [ws], an optional [s], [://], one or more of
    [[a-zA-Z0-9.-]], an optional group of [:] and one or more digits, an
    optional group of [/] and any run of non-space code units.  Every
    quantifier is greedy and is followed only by optional groups, so the
    first greedy choice is the match. *)
Definition matchUrlAt (s : string) : option string :=
  match stripPrefix "ws" s with
  | None => None
  | Some r0 =>
      let '(scheme, r1) :=
        match stripPrefix "s" r0 with
        | Some r => ("wss", r)
        | None => ("ws", r0)
        end in
      match stripPrefix "://" r1 with
      | None => None
      | Some r2 =>
          match takeWhile isHostChar r2 with
          | EmptyString => None
          | host =>
              let r3 := after host r2 in
              let port :=
                match r3 with
                | String ":" r =>
                    match takeWhile isDigit r with
                    | EmptyString => EmptyString
                    | ds => String ":" ds
                    end
                | _ => EmptyString
                end in
              let r4 := after port r3 in
              let path :=
                match r4 with
                | String "/" r => String "/" (takeWhile (fun c => negb (isSpace c)) r)
                | _ => EmptyString
                end in
              Some (scheme +:+ "://" +:+ host +:+ port +:+ path)
          end
      end
  end.

(** [s.match(/.../g)]: all matches, left to right, the search resuming
    after each match.  [skip] counts the code units of the current match
    that are still to be passed. *)
Fixpoint matchAllFrom (matchAt : string -> option string) (skip : nat) (s : string)
    : list string :=
  match s with
  | EmptyString => []
  | String _ s' =>
      match skip with
      | S k => matchAllFrom matchAt k s'
      | O =>
          match matchAt s with
          | Some m => m :: matchAllFrom matchAt (String.length m - 1) s'
          | None => matchAllFrom matchAt 0 s'
          end
      end
  end.

Definition matchAll (matchAt : string -> option string) (s : string) : list string :=
  matchAllFrom matchAt 0 s.

(** [url.replace(/[.,;:!?)]$/, '')] *)
Fixpoint stripTrailingPunct (s : string) : string :=
  match s with
  | EmptyString => EmptyString
  | String c EmptyString => if isTrailingPunct c then EmptyString else s
  | String c s' => String c (stripTrailingPunct s')
  end.

End Regex.

(** ** Relay discovery ([utils/relayDiscovery.ts]) *)

Inductive Source := nip65 | nip19 | contacts | legacy.

Definition Source_eqb (a b : Source) : bool :=
  match a, b with
  | nip65, nip65 | nip19, nip19 | contacts, contacts | legacy, legacy => true
  | _, _ => false
  end.

(** [sources.includes(s)] *)
Definition includes (s : Source) (l : list Source) : bool := existsb (Source_eqb s) l.

Module RelayListEntry.
Record t := {
  url : string;
  read : bool;
  write : bool;
  source : Source;
  pubkey : string;
  timestamp : Z
}.
End RelayListEntry.

Record StandardRelayDiscoveryConfig := {
  maxRelays : Z;
  minFolloweeRecommendations : Z;
  nip65Enabled : bool;
  nip19Enabled : bool;
  followContactRelays : bool;
  blacklistedDomains : list string;
  preferredDomains : list string;
  maxAgeHours : Z
}.

Definition defaultStandardConfig : StandardRelayDiscoveryConfig := {|
  maxRelays := 15;
  minFolloweeRecommendations := 2;
  nip65Enabled := true;
  nip19Enabled := true;
  followContactRelays := true;
  blacklistedDomains :=
    ["localhost"; "127.0.0.1"; "0.0.0.0"; "test.local"; "example.com";
     "192.168."; "10.0."; "172.16."];
  preferredDomains :=
    ["relay.damus.io"; "nos.lol"; "relay.primal.net"; "relay.nostr.band";
     "nostr.wine"; "relay.snort.social"; "nostr-pub.wellorder.net";
     "relay.current.fyi"];
  maxAgeHours := 720
|}.

(** The value type of the [relayRecommendations] map. *)
Record RelayData := {
  readRecommendations : gset string;
  writeRecommendations : gset string;
  lastSeen : Z;
  sources : list Source
}.

(** An element of the array returned by [getRecommendedRelays]. *)
Module Recommended.
Record t := {
  url : string;
  readRecs : nat;
  writeRecs : nat;
  totalRecs : nat;
  lastSeen : Z;
  sources : list Source;
  score : Z
}.
End Recommended.

(** The fields of a [StandardRelayDiscovery] instance. *)
Record StandardRelayDiscovery := {
  relayRecommendations : list (string * RelayData);
  followedPubkeys : gset string;
  config : StandardRelayDiscoveryConfig
}.

Module Discovery.
Import JsString Helpers.

Section WithPlatform.
Context {P : Platform}.

Definition entryOfTag (event : NostrEvent) (tag : list string)
    : option RelayListEntry.t :=
  match tag !! 0%nat, tag !! 1%nat with
  | Some t0, Some t1 =>
      if String.eqb t0 "r" && truthy (Some t1) && isValidRelayUrl t1 then
        let marker := tag !! 2%nat in
        let '(read, write) :=
          match marker with
          | Some "read" => (true, false)
          | Some "write" => (false, true)
          | _ => (true, true)
          end in
        Some {| RelayListEntry.url := normalizeRelayUrl t1;
                RelayListEntry.read := read;
                RelayListEntry.write := write;
                RelayListEntry.source := nip65;
                RelayListEntry.pubkey := pubkey event;
                RelayListEntry.timestamp := created_at event |}
      else None
  | _, _ => None
  end.

Definition parseNip65RelayList (event : NostrEvent) : list RelayListEntry.t :=
  if negb (kind event =? 10002)%Z then []
  else omap (entryOfTag event) (tags event).

Definition parseNip19RelayHints (bech32String : string) : list string :=
  if negb (startsWith bech32String "n") then []
  else
    omap (fun url =>
            let cleanUrl := Regex.stripTrailingPunct url in
            if isValidRelayUrl cleanUrl then Some (normalizeRelayUrl cleanUrl)
            else None)
         (Regex.matchAll Regex.matchUrlAt bech32String).

Definition extractNip19RelayHints (content : string) : list string :=
  JsArray.dedupe
    (flat_map parseNip19RelayHints (Regex.matchAll Regex.matchNip19At content)).

(** [isBlacklisted]: a URL that does not parse is blacklisted. *)
Definition matchesBlacklisted (host domain : string) : bool :=
  String.eqb host domain
  || endsWith host ("." +:+ domain)
  || startsWith host domain.

Definition isBlacklisted (cfg : StandardRelayDiscoveryConfig) (relayUrl : string)
    : bool :=
  match parseURL relayUrl with
  | Some url => existsb (matchesBlacklisted (hostname url)) (blacklistedDomains cfg)
  | None => true
  end.

Definition matchesPreferred (host domain : string) : bool :=
  String.eqb host domain || endsWith host ("." +:+ domain).

Definition isPreferredDomain (cfg : StandardRelayDiscoveryConfig) (relayUrl : string)
    : bool :=
  match parseURL relayUrl with
  | Some url => existsb (matchesPreferred (hostname url)) (preferredDomains cfg)
  | None => false
  end.

(** [readRecommendations.size + writeRecommendations.size] *)
Definition totalRecsOf (data : RelayData) : nat :=
  size (readRecommendations data) + size (writeRecommendations data).

Definition freshData : RelayData :=
  {| readRecommendations := ∅; writeRecommendations := ∅; lastSeen := 0; sources := [] |}.

(** The update that the three processors apply to the entry of [url]:
    fetch or create, add [author] to the read and/or write set, raise
    [lastSeen], record the source once. *)
Definition endorsed (author : string) (read write : bool) (timestamp : Z)
    (src : Source) (existing : RelayData) : RelayData :=
  {| readRecommendations :=
       if read then {[author]} ∪ readRecommendations existing
       else readRecommendations existing;
     writeRecommendations :=
       if write then {[author]} ∪ writeRecommendations existing
       else writeRecommendations existing;
     lastSeen := Z.max (lastSeen existing) (timestamp * 1000);
     sources :=
       if includes src (sources existing) then sources existing
       else sources existing ++ [src] |}.

(** The state of a processor's loop: the map and [newRelays]. *)
Definition endorse (cfg : StandardRelayDiscoveryConfig)
    (url author : string) (read write : bool) (timestamp : Z) (src : Source)
    (acc : list (string * RelayData) * list string)
    : list (string * RelayData) * list string :=
  let '(table, newRelays) := acc in
  let existing := default freshData (JsMap.get url table) in
  let existing' := endorsed author read write timestamp src existing in
  let table' := JsMap.set url existing' table in
  if (minFolloweeRecommendations cfg <=? Z.of_nat (totalRecsOf existing'))%Z
  then (table', newRelays ++ [url])
  else (table', newRelays).

Definition nip65Step (cfg : StandardRelayDiscoveryConfig)
    (acc : list (string * RelayData) * list string) (entry : RelayListEntry.t)
    : list (string * RelayData) * list string :=
  if isBlacklisted cfg (RelayListEntry.url entry) then acc
  else endorse cfg (RelayListEntry.url entry) (RelayListEntry.pubkey entry)
         (RelayListEntry.read entry) (RelayListEntry.write entry)
         (RelayListEntry.timestamp entry) nip65 acc.

Definition withTable (d : StandardRelayDiscovery) (t : list (string * RelayData))
    : StandardRelayDiscovery :=
  {| relayRecommendations := t;
     followedPubkeys := followedPubkeys d;
     config := config d |}.

Definition processNip65Event (event : NostrEvent) (d : StandardRelayDiscovery)
    : list string * StandardRelayDiscovery :=
  if negb (nip65Enabled (config d)) || negb (kind event =? 10002)%Z then ([], d)
  else
    let '(table, newRelays) :=
      foldl (nip65Step (config d)) (relayRecommendations d, [])
            (parseNip65RelayList event) in
    (newRelays, withTable d table).

Definition nip19Step (cfg : StandardRelayDiscoveryConfig) (event : NostrEvent)
    (acc : list (string * RelayData) * list string) (relayUrl : string)
    : list (string * RelayData) * list string :=
  if isBlacklisted cfg relayUrl then acc
  else endorse cfg relayUrl (pubkey event) true false (created_at event) nip19 acc.

Definition processNip19Hints (event : NostrEvent) (d : StandardRelayDiscovery)
    : list string * StandardRelayDiscovery :=
  if negb (nip19Enabled (config d)) then ([], d)
  else
    let '(table, newRelays) :=
      foldl (nip19Step (config d) event) (relayRecommendations d, [])
            (extractNip19RelayHints (content event)) in
    (newRelays, withTable d table).

(** [tag[0] === 'p' && tag[1]] *)
Definition followedOfTag (tag : list string) : option string :=
  match tag !! 0%nat, tag !! 1%nat with
  | Some t0, Some t1 =>
      if String.eqb t0 "p" && truthy (Some t1) then Some t1 else None
  | _, _ => None
  end.

Definition contactStep (cfg : StandardRelayDiscoveryConfig) (event : NostrEvent)
    (acc : list (string * RelayData) * list string) (relayUrl : string)
    : list (string * RelayData) * list string :=
  if isValidRelayUrl relayUrl && negb (isBlacklisted cfg relayUrl) then
    endorse cfg (normalizeRelayUrl relayUrl) (pubkey event) true false
            (created_at event) contacts acc
  else acc.

Definition processContactEvent (event : NostrEvent) (d : StandardRelayDiscovery)
    : list string * StandardRelayDiscovery :=
  if negb (followContactRelays (config d)) || negb (kind event =? 3)%Z then ([], d)
  else
    let followed :=
      foldl (fun s p => {[p]} ∪ s) (followedPubkeys d)
            (omap followedOfTag (tags event)) in
    let '(table, newRelays) :=
      foldl (contactStep (config d) event) (relayRecommendations d, [])
            (contactRelays (content event)) in
    (newRelays,
     {| relayRecommendations := table;
        followedPubkeys := followed;
        config := config d |}).

(** [maxAgeHours * 60 * 60 * 1000] *)
Definition maxAge (cfg : StandardRelayDiscoveryConfig) : Z :=
  maxAgeHours cfg * 60 * 60 * 1000.

(** [now - data.lastSeen > maxAge] *)
Definition expired (cfg : StandardRelayDiscoveryConfig) (now : Z) (data : RelayData)
    : bool :=
  (maxAge cfg <? now - lastSeen data)%Z.

Definition meetsThreshold (cfg : StandardRelayDiscoveryConfig) (data : RelayData)
    : bool :=
  (minFolloweeRecommendations cfg <=? Z.of_nat (totalRecsOf data))%Z.

(** The [filter] callback of [getRecommendedRelays] deletes the expired
    entries from the map as it passes over the snapshot. *)
Definition evictExpired (cfg : StandardRelayDiscoveryConfig) (now : Z)
    (snapshot table : list (string * RelayData)) : list (string * RelayData) :=
  foldl (fun t kv => if expired cfg now (snd kv) then JsMap.delete (fst kv) t else t)
        table snapshot.

Definition toRecommended (cfg : StandardRelayDiscoveryConfig)
    (kv : string * RelayData) : Recommended.t :=
  let '(url, data) := kv in
  let readRecs := size (readRecommendations data) in
  let writeRecs := size (writeRecommendations data) in
  let totalRecs := (readRecs + writeRecs)%nat in
  let score :=
    (Z.of_nat totalRecs
     + (if isPreferredDomain cfg url then 10 else 0)
     + (if includes nip65 (sources data) then 5 else 0)
     + (if includes nip19 (sources data) then 2 else 0))%Z in
  {| Recommended.url := url;
     Recommended.readRecs := readRecs;
     Recommended.writeRecs := writeRecs;
     Recommended.totalRecs := totalRecs;
     Recommended.lastSeen := lastSeen data;
     Recommended.sources := sources data;
     Recommended.score := score |}.

(** [(a, b) => b.score - a.score] *)
Definition byScore (a b : Recommended.t) : Z :=
  (Recommended.score b - Recommended.score a)%Z.

Definition getRecommendedRelays (now : Z) (d : StandardRelayDiscovery)
    : list Recommended.t * StandardRelayDiscovery :=
  let cfg := config d in
  let snapshot := relayRecommendations d in
  let kept :=
    List.filter (fun kv => negb (expired cfg now (snd kv)) && meetsThreshold cfg (snd kv))
                snapshot in
  (JsArray.slice0 (maxRelays cfg)
     (JsArray.sort byScore (toRecommended cfg <$> kept)),
   withTable d (evictExpired cfg now snapshot snapshot)).

Definition cleanup (now : Z) (d : StandardRelayDiscovery) : StandardRelayDiscovery :=
  withTable d
    (evictExpired (config d) now (relayRecommendations d) (relayRecommendations d)).

(** [new StandardRelayDiscovery(config)] *)
Definition create (cfg : StandardRelayDiscoveryConfig) : StandardRelayDiscovery :=
  {| relayRecommendations := []; followedPubkeys := ∅; config := cfg |}.

(** The three signal-source operations, as one call type. *)
Inductive Call :=
| Nip65 (event : NostrEvent)
| Nip19 (event : NostrEvent)
| Contact (event : NostrEvent).

Definition process (c : Call) (d : StandardRelayDiscovery)
    : list string * StandardRelayDiscovery :=
  match c with
  | Nip65 e => processNip65Event e d
  | Nip19 e => processNip19Hints e d
  | Contact e => processContactEvent e d
  end.

Definition processAll (calls : list Call) (d : StandardRelayDiscovery)
    : StandardRelayDiscovery :=
  foldl (fun d c => snd (process c d)) d calls.

(** *** Vocabulary of the statements about discovery *)

(** One pass through the common body of the three [forEach] loops: the
    URL that is looked up and set, and what is added to its entry. *)
Record Endorsement := {
  e_url : string;
  e_author : string;
  e_read : bool;
  e_write : bool;
  e_time : Z;
  e_source : Source
}.

Definition applyEndorsement (cfg : StandardRelayDiscoveryConfig)
    (acc : list (string * RelayData) * list string) (x : Endorsement)
    : list (string * RelayData) * list string :=
  endorse cfg (e_url x) (e_author x) (e_read x) (e_write x) (e_time x)
          (e_source x) acc.

Definition endorsementsNip65 (cfg : StandardRelayDiscoveryConfig)
    (event : NostrEvent) : list Endorsement :=
  (fun entry =>
     {| e_url := RelayListEntry.url entry;
        e_author := RelayListEntry.pubkey entry;
        e_read := RelayListEntry.read entry;
        e_write := RelayListEntry.write entry;
        e_time := RelayListEntry.timestamp entry;
        e_source := nip65 |})
  <$> List.filter (fun entry => negb (isBlacklisted cfg (RelayListEntry.url entry)))
                  (parseNip65RelayList event).

Definition endorsementsNip19 (cfg : StandardRelayDiscoveryConfig)
    (event : NostrEvent) : list Endorsement :=
  (fun relayUrl =>
     {| e_url := relayUrl; e_author := pubkey event; e_read := true;
        e_write := false; e_time := created_at event; e_source := nip19 |})
  <$> List.filter (fun relayUrl => negb (isBlacklisted cfg relayUrl))
                  (extractNip19RelayHints (content event)).

Definition endorsementsContact (cfg : StandardRelayDiscoveryConfig)
    (event : NostrEvent) : list Endorsement :=
  (fun relayUrl =>
     {| e_url := normalizeRelayUrl relayUrl; e_author := pubkey event;
        e_read := true; e_write := false; e_time := created_at event;
        e_source := contacts |})
  <$> List.filter
        (fun relayUrl => isValidRelayUrl relayUrl && negb (isBlacklisted cfg relayUrl))
        (contactRelays (content event)).

(** The endorsements that a call applies, in order; none when the
    source is disabled or the event is of another kind. *)
Definition endorsements (cfg : StandardRelayDiscoveryConfig) (c : Call)
    : list Endorsement :=
  match c with
  | Nip65 e =>
      if negb (nip65Enabled cfg) || negb (kind e =? 10002)%Z then []
      else endorsementsNip65 cfg e
  | Nip19 e =>
      if negb (nip19Enabled cfg) then [] else endorsementsNip19 cfg e
  | Contact e =>
      if negb (followContactRelays cfg) || negb (kind e =? 3)%Z then []
      else endorsementsContact cfg e
  end.

(** The entry after an endorsement, and the map after it. *)
Definition updated (x : Endorsement) (data : RelayData) : RelayData :=
  endorsed (e_author x) (e_read x) (e_write x) (e_time x) (e_source x) data.

Definition tableAfter (x : Endorsement) (table : list (string * RelayData))
    : list (string * RelayData) :=
  JsMap.set (e_url x) (updated x (default freshData (JsMap.get (e_url x) table))) table.

Definition tableAll (xs : list Endorsement) (table : list (string * RelayData))
    : list (string * RelayData) :=
  foldl (fun t x => tableAfter x t) table xs.

(** The entry of [u] exists and its combined count meets the threshold. *)
Definition meetsAt (cfg : StandardRelayDiscoveryConfig) (u : string)
    (table : list (string * RelayData)) : Prop :=
  exists data, JsMap.get u table = Some data /\ meetsThreshold cfg data = true.

(** The entry already holds everything that the endorsement adds. *)
Definition absorbs (x : Endorsement) (data : RelayData) : Prop :=
  (e_read x = true -> e_author x ∈ readRecommendations data)
  /\ (e_write x = true -> e_author x ∈ writeRecommendations data)
  /\ (e_time x * 1000 <= lastSeen data)%Z
  /\ includes (e_source x) (sources data) = true.

Definition absorbedIn (x : Endorsement) (table : list (string * RelayData)) : Prop :=
  exists data, JsMap.get (e_url x) table = Some data /\ absorbs x data.

(** No key of the map is blacklisted. *)
Definition cleanTable (cfg : StandardRelayDiscoveryConfig)
    (table : list (string * RelayData)) : Prop :=
  forall u, u ∈ JsMap.keys table -> isBlacklisted cfg u = false.







End WithPlatform.
End Discovery.

(** A law of the platform's [URL] class: for a websocket URL, removing the
    final slash of the serialization gives a string that parses to the same
    host. *)
Class PlatformLaws (P : Platform) : Prop := {
  normalize_hostname :
    forall u p,
      parseURL u = Some p ->
      protocol p = "ws:" \/ protocol p = "wss:" ->
      exists p', parseURL (JsString.stripTrailingSlash (href p)) = Some p'
                 /\ hostname p' = hostname p
}.

(** ** A reference platform for concrete runs

    A small concrete instance of [Platform], used to run the model on
    concrete inputs.  [refParseURL] accepts [ws://host] and [wss://host]
    followed by an optional path, for a host over [[a-z0-9.-]] and a path
    over letters, digits and [/ _ ~ -]; on such plain inputs [new URL]
    keeps the host and the path as written and adds the path [/] when
    there is none.  [refContactRelays] reads a content that consists of one
    entry whose value is an object with a string-valued [relay] member. *)

Module RefPlatform.
Import Regex.

Definition isRefHostChar (c : ascii) : bool :=
  isLower c || isDigit c || Ascii.eqb c "." || Ascii.eqb c "-".

Definition isRefPathChar (c : ascii) : bool :=
  isLower c || isUpperC c || isDigit c
  || Ascii.eqb c "/" || Ascii.eqb c "_" || Ascii.eqb c "~" || Ascii.eqb c "-".

Definition refParseBody (proto body : string) : option URL :=
  match takeWhile isRefHostChar body with
  | EmptyString => None
  | host =>
      match after host body with
      | EmptyString =>
          Some {| protocol := proto; hostname := host;
                  href := proto +:+ "//" +:+ host +:+ "/" |}
      | String c rest =>
          if Ascii.eqb c "/" && allChars isRefPathChar rest then
            Some {| protocol := proto; hostname := host;
                    href := proto +:+ "//" +:+ host +:+ String c rest |}
          else None
      end
  end.

Definition refParseURL (s : string) : option URL :=
  match stripPrefix "wss://" s with
  | Some body => refParseBody "wss:" body
  | None =>
      match stripPrefix "ws://" s with
      | Some body => refParseBody "ws:" body
      | None => None
      end
  end.

(** The double quote, code unit 34. *)
Definition dq : string := String (ascii_of_nat 34) EmptyString.

Definition isPlain (c : ascii) : bool :=
  negb (nat_of_ascii c =? 34)%nat && negb (nat_of_ascii c =? 92)%nat.

Definition refContactRelays (content : string) : list string :=
  match stripPrefix ("{" +:+ dq) content with
  | None => []
  | Some r1 =>
      let key := takeWhile isPlain r1 in
      match stripPrefix (dq +:+ ":{" +:+ dq +:+ "relay" +:+ dq +:+ ":" +:+ dq)
                        (after key r1) with
      | None => []
      | Some r2 =>
          let relayUrl := takeWhile isPlain r2 in
          if String.eqb (after relayUrl r2) (dq +:+ "}}") && negb (String.eqb relayUrl "")
          then [relayUrl] else []
      end
  end.

Definition contactContent (key relayUrl : string) : string :=
  "{" +:+ dq +:+ key +:+ dq +:+ ":{" +:+ dq +:+ "relay" +:+ dq +:+ ":" +:+ dq
  +:+ relayUrl +:+ dq +:+ "}}".

#[export] Instance refPlatform : Platform :=
  {| parseURL := refParseURL; contactRelays := refContactRelays |}.

End RefPlatform.

(** ** Concrete events used in the examples *)

Module Sample.
Import RefPlatform.

Definition note (i : string) (ts : list (list string)) : NostrEvent :=
  {| id := i; pubkey := "alice"; created_at := 1700000000; kind := 1;
     tags := ts; content := ""; sig := "" |}.

(** A kind-10002 relay list of [author] with the given [r]-tags. *)
Definition relayList (author : string) (ts : list (list string)) : NostrEvent :=
  {| id := "list-" +:+ author; pubkey := author; created_at := 1700000000;
     kind := 10002; tags := ts; content := ""; sig := "" |}.

(** A kind-1 note of [author] with the given content. *)
Definition noteWith (author text : string) : NostrEvent :=
  {| id := "note-" +:+ author; pubkey := author; created_at := 1700000100;
     kind := 1; tags := []; content := text; sig := "" |}.

(** A kind-3 contact list of [author] with the given content. *)
Definition contactList (author text : string) : NostrEvent :=
  {| id := "contacts-" +:+ author; pubkey := author; created_at := 1700000200;
     kind := 3; tags := [["p"; "carol"]]; content := text; sig := "" |}.

(** A time shortly after the events above, in milliseconds. *)
Definition now : Z := 1700000300000.

(** A time more than 30 days after the events above. *)
Definition later : Z := 1700000000000 + 720 * 3600 * 1000 + 1.

Definition relayUrl : string := "wss://relay.example".

(** The relay list of [A] with one unmarked [r]-tag. *)
Definition announcement : NostrEvent :=
  relayList "A" [["r"; "wss://relay.example/"]].

(** A note of [B] that mentions a profile entity whose relay hint, once
    decoded, is [wss://relay.example/]. *)
Definition hintNote : NostrEvent :=
  noteWith "B"
    ("nostr:nprofile1qqsrhuxx8l9ex335q7he0f09aej04zpazpl0ne2cgukyawd24mayt8gpz3mhxue"
     +:+ "69uhhyetvv9ujuetcv9khqmr99u22jyls").

(** The entry that [announcement] creates. *)
Definition announced : RelayData :=
  {| readRecommendations := {[ "A" ]}; writeRecommendations := {[ "A" ]};
     lastSeen := 1700000000000; sources := [nip65] |}.

(** The instance after [announcement] has been processed once, on the
    reference platform. *)
Definition afterAnnouncement : StandardRelayDiscovery :=
  snd (Discovery.processNip65Event announcement
         (Discovery.create defaultStandardConfig)).



(** [n] notes with pairwise distinct ids, all tagged [bitcoin]. *)
Fixpoint ident (n : nat) : string :=
  match n with
  | O => "e"
  | S k => String "x" (ident k)
  end.

Definition burst (n : nat) : list NostrEvent :=
  (fun k => note (ident k) [["t"; "Bitcoin"]]) <$> seq 0 n.

End Sample.

(** * Further code of the repository *)

(** ** Relay discovery: statistics, export and import *)

Module DiscoveryMore.
Import Discovery.

(** The value returned by [getStats]. *)
Record Stats := {
  totalDiscovered : nat;
  recommendedRelays : nat;
  nip65Events : nat;
  nip19Hints : nat;
  contactEvents : nat;
  followedUsers : nat
}.

(** An element of [relayRecommendations] in the value that [importData]
    receives; a field that the value lacks is [None]. *)
Record EntryData := {
  x_url : option string;
  x_readRecommendations : option (list string);
  x_writeRecommendations : option (list string);
  x_lastSeen : option Z;
  x_sources : option (list Source)
}.

(** The [config] member of that value: any subset of the fields. *)
Record ConfigPatch := {
  p_maxRelays : option Z;
  p_minFolloweeRecommendations : option Z;
  p_nip65Enabled : option bool;
  p_nip19Enabled : option bool;
  p_followContactRelays : option bool;
  p_blacklistedDomains : option (list string);
  p_preferredDomains : option (list string);
  p_maxAgeHours : option Z
}.

Record DiscoveryData := {
  x_relayRecommendations : option (list EntryData);
  x_followedPubkeys : option (list string);
  x_config : option ConfigPatch
}.

(** [{ ...config, ...patch }] *)
Definition applyPatch (cfg : StandardRelayDiscoveryConfig) (patch : ConfigPatch)
    : StandardRelayDiscoveryConfig :=
  {| maxRelays := default (maxRelays cfg) (p_maxRelays patch);
     minFolloweeRecommendations :=
       default (minFolloweeRecommendations cfg) (p_minFolloweeRecommendations patch);
     nip65Enabled := default (nip65Enabled cfg) (p_nip65Enabled patch);
     nip19Enabled := default (nip19Enabled cfg) (p_nip19Enabled patch);
     followContactRelays :=
       default (followContactRelays cfg) (p_followContactRelays patch);
     blacklistedDomains := default (blacklistedDomains cfg) (p_blacklistedDomains patch);
     preferredDomains := default (preferredDomains cfg) (p_preferredDomains patch);
     maxAgeHours := default (maxAgeHours cfg) (p_maxAgeHours patch) |}.

(** The whole configuration as a patch, as [exportData] writes it. *)
Definition fullPatch (cfg : StandardRelayDiscoveryConfig) : ConfigPatch :=
  {| p_maxRelays := Some (maxRelays cfg);
     p_minFolloweeRecommendations := Some (minFolloweeRecommendations cfg);
     p_nip65Enabled := Some (nip65Enabled cfg);
     p_nip19Enabled := Some (nip19Enabled cfg);
     p_followContactRelays := Some (followContactRelays cfg);
     p_blacklistedDomains := Some (blacklistedDomains cfg);
     p_preferredDomains := Some (preferredDomains cfg);
     p_maxAgeHours := Some (maxAgeHours cfg) |}.

(** [Array.from(set)].  The model of a [Set] keeps no iteration order;
    [elements] stands for the order of the exported array, and the
    statements about [exportData] allow any other order. *)
Definition exportEntry (kv : string * RelayData) : EntryData :=
  {| x_url := Some (fst kv);
     x_readRecommendations := Some (elements (readRecommendations (snd kv)));
     x_writeRecommendations := Some (elements (writeRecommendations (snd kv)));
     x_lastSeen := Some (lastSeen (snd kv));
     x_sources := Some (sources (snd kv)) |}.

Definition exportData (d : StandardRelayDiscovery) : DiscoveryData :=
  {| x_relayRecommendations := Some (exportEntry <$> relayRecommendations d);
     x_followedPubkeys := Some (elements (followedPubkeys d));
     x_config := Some (fullPatch (config d)) |}.

(** The body of the [forEach] of [importData]: an entry is taken when
    [url] is truthy and both arrays are present. *)
Definition importEntry (table : list (string * RelayData)) (entry : EntryData)
    : list (string * RelayData) :=
  match x_url entry, x_readRecommendations entry, x_writeRecommendations entry with
  | Some url, Some rd, Some wr =>
      if JsString.truthy (Some url) then
        JsMap.set url
          {| readRecommendations := list_to_set rd;
             writeRecommendations := list_to_set wr;
             lastSeen := default 0%Z (x_lastSeen entry);
             sources := default [] (x_sources entry) |}
          table
      else table
  | _, _, _ => table
  end.

Definition importData (data : DiscoveryData) (d : StandardRelayDiscovery)
    : StandardRelayDiscovery :=
  {| relayRecommendations :=
       match x_relayRecommendations data with
       | Some entries => foldl importEntry [] entries
       | None => relayRecommendations d
       end;
     followedPubkeys :=
       match x_followedPubkeys data with
       | Some l => list_to_set l
       | None => followedPubkeys d
       end;
     config :=
       match x_config data with
       | Some patch => applyPatch (config d) patch
       | None => config d
       end |}.

(** The key and the value that [importData] stores for [entry], if it
    takes it. *)
Definition importedData (entry : EntryData) : option (string * RelayData) :=
  match x_url entry, x_readRecommendations entry, x_writeRecommendations entry with
  | Some url, Some rd, Some wr =>
      if JsString.truthy (Some url) then
        Some (url, {| readRecommendations := list_to_set rd;
                      writeRecommendations := list_to_set wr;
                      lastSeen := default 0%Z (x_lastSeen entry);
                      sources := default [] (x_sources entry) |})
      else None
  | _, _, _ => None
  end.

(** Two values that differ in the order of their arrays only. *)
Definition sameEntry (a b : EntryData) : Prop :=
  x_url a = x_url b
  /\ x_lastSeen a = x_lastSeen b
  /\ x_sources a = x_sources b
  /\ (exists la lb, x_readRecommendations a = Some la
                    /\ x_readRecommendations b = Some lb /\ la ≡ₚ lb)
  /\ (exists la lb, x_writeRecommendations a = Some la
                    /\ x_writeRecommendations b = Some lb /\ la ≡ₚ lb).

Definition sameData (a b : DiscoveryData) : Prop :=
  (exists la lb, x_relayRecommendations a = Some la
                 /\ x_relayRecommendations b = Some lb /\ Forall2 sameEntry la lb)
  /\ (exists la lb, x_followedPubkeys a = Some la
                    /\ x_followedPubkeys b = Some lb /\ la ≡ₚ lb)
  /\ x_config a = x_config b.

(** An entry that [importData] takes. *)
Definition wellShaped (entry : EntryData) : bool :=
  JsString.truthy (x_url entry)
  && bool_decide (is_Some (x_readRecommendations entry))
  && bool_decide (is_Some (x_writeRecommendations entry)).

Section WithPlatform.
Context {P : Platform}.

Definition hasSource (s : Source) (kv : string * RelayData) : bool :=
  includes s (sources (snd kv)).

(** [getStats] first calls [getRecommendedRelays], which deletes the
    expired entries, and then counts over the map. *)
Definition getStats (now : Z) (d : StandardRelayDiscovery)
    : Stats * StandardRelayDiscovery :=
  let '(recommended, d') := getRecommendedRelays now d in
  let table := relayRecommendations d' in
  ({| totalDiscovered := length table;
      recommendedRelays := length recommended;
      nip65Events := length (List.filter (hasSource nip65) table);
      nip19Hints := length (List.filter (hasSource nip19) table);
      contactEvents := length (List.filter (hasSource contacts) table);
      followedUsers := size (followedPubkeys d') |},
   d').

(** What every entry made by the three processors satisfies. *)
Definition entryOk (data : RelayData) : Prop :=
  1 <= totalRecsOf data
  /\ (0 <= lastSeen data)%Z
  /\ NoDup (sources data)
  /\ sources data <> [].

Definition tableOk (table : list (string * RelayData)) : Prop :=
  forall u data, JsMap.get u table = Some data -> entryOk data.

(** No entry lists the hint source. *)
Definition noHintSource (table : list (string * RelayData)) : Prop :=
  forall u data,
    JsMap.get u table = Some data -> includes nip19 (sources data) = false.

(** [data'] holds everything that [data] holds. *)
Definition extends (data data' : RelayData) : Prop :=
  readRecommendations data ⊆ readRecommendations data'
  /\ writeRecommendations data ⊆ writeRecommendations data'
  /\ (lastSeen data <= lastSeen data')%Z
  /\ sources data `prefix_of` sources data'.
End WithPlatform.
End DiscoveryMore.

(** ** The topic index: what the lists hold *)

Module TopicIndexMore.
Import JsString TopicIndex.

(** Every list of [m] is a non-empty selection of [arrivals], in their
    order, of events that reference the key, and every key is a
    non-empty lower-case string. *)
Definition soundFor (arrivals : list NostrEvent)
    (m : gmap string (list NostrEvent)) : Prop :=
  forall h l,
    m !! h = Some l ->
    l `sublist_of` arrivals
    /\ Forall (fun e => h ∈ hashtagsOf e) l
    /\ l <> []
    /\ toLowerCase h = h
    /\ h <> "".
End TopicIndexMore.

(** ** The service: relay statuses and event counts *)

Module Service.
Import JsString TopicIndex.

Record RelayStatus := {
  url : string;
  connected : bool;
  eventsReceived : nat;
  lastActivity : option Z;
  error : option string
}.

Definition defaultRelays : list string :=
  [ "wss://relay.damus.io"; "wss://nos.lol"; "wss://relay.nostr.band";
    "wss://relay.snort.social"; "wss://relay.primal.net"; "wss://nostr.mom" ].

(** The state of a [NostrService].  [subscribed] is the log of the
    [pool.relay(url).subscription(...)] requests, oldest first.  The
    event store, the loaders and [dbQuota$] are not modelled. *)
Record State := {
  relayStatuses : list (string * RelayStatus);
  eventCounts : gmap Z nat;
  totalEvents : nat;
  index : Index;
  subscribed : list string
}.

(** [{ url, connected: false, eventsReceived: 0 }] *)
Definition newStatus (relayUrl : string) : RelayStatus :=
  {| url := relayUrl; connected := false; eventsReceived := 0;
     lastActivity := None; error := None |}.

(** [initializeRelayStatuses] and [startEventSubscriptions]. *)
Definition init : State :=
  {| relayStatuses :=
       foldl (fun m relayUrl => JsMap.set relayUrl (newStatus relayUrl) m) []
             defaultRelays;
     eventCounts := ∅;
     totalEvents := 0;
     index := emptyIndex;
     subscribed := defaultRelays |}.

Definition updateRelayStatus (relayUrl : string) (isConnected : bool)
    (message : option string) (now : Z)
    (statuses : list (string * RelayStatus)) : list (string * RelayStatus) :=
  match JsMap.get relayUrl statuses with
  | Some status =>
      let status' :=
        if isConnected then
          {| url := url status; connected := true;
             eventsReceived := eventsReceived status + 1;
             lastActivity := Some now; error := None |}
        else
          {| url := url status; connected := false;
             eventsReceived := eventsReceived status;
             lastActivity := lastActivity status;
             error := if truthy message then message else error status |} in
      JsMap.set relayUrl status' statuses
  | None => statuses
  end.

(** [Object.values(counts).reduce((sum, count) => sum + count, 0)] *)
Definition sumCounts (counts : gmap Z nat) : nat :=
  map_fold (fun _ count sum => sum + count) 0 counts.

Definition updateEventCounts (event : NostrEvent) (st : State) : State :=
  let counts :=
    <[kind event := default 0 (eventCounts st !! kind event) + 1]> (eventCounts st) in
  {| relayStatuses := relayStatuses st;
     eventCounts := counts;
     totalEvents := sumCounts counts;
     index := index st;
     subscribed := subscribed st |}.

(** [handleEvent], without the two loader requests. *)
Definition handleEvent (now : Z) (event : NostrEvent) (relayUrl : string)
    (st : State) : State :=
  {| relayStatuses := updateRelayStatus relayUrl true None now (relayStatuses st);
     eventCounts := eventCounts st;
     totalEvents := totalEvents st;
     index := TopicIndex.handleEvent event relayUrl (index st);
     subscribed := subscribed st |}.

(** The subscriber of the event stream. *)
Definition onEvent (event : NostrEvent) (st : State) : State :=
  let st1 := updateEventCounts event st in
  {| relayStatuses := relayStatuses st1;
     eventCounts := eventCounts st1;
     totalEvents := totalEvents st1;
     index := TopicIndex.next event (index st1);
     subscribed := subscribed st1 |}.

Definition has (relayUrl : string) (statuses : list (string * RelayStatus)) : bool :=
  bool_decide (is_Some (JsMap.get relayUrl statuses)).

Definition connectToRelay (st : State) (relayUrl : string) : State :=
  {| relayStatuses :=
       if has relayUrl (relayStatuses st) then relayStatuses st
       else JsMap.set relayUrl (newStatus relayUrl) (relayStatuses st);
     eventCounts := eventCounts st;
     totalEvents := totalEvents st;
     index := index st;
     subscribed := subscribed st ++ [relayUrl] |}.

(** [tag => tag[0] === 'r' && tag[1]] *)
Definition isRelayTag (tag : list string) : bool :=
  match tag !! 0%nat with
  | Some t0 => String.eqb t0 "r" && truthy (tag !! 1%nat)
  | None => false
  end.

(** [relayTags.map(tag => tag[1])] *)
Definition relayUrlsOf (event : NostrEvent) : list string :=
  (fun tag => default "" (tag !! 1%nat)) <$> List.filter isRelayTag (tags event).

Definition processRelayListEvent (event : NostrEvent) (st : State) : State :=
  let newRelays :=
    List.filter (fun relayUrl => negb (has relayUrl (relayStatuses st)))
                (relayUrlsOf event) in
  foldl connectToRelay st newRelays.

Definition removeRelay (relayUrl : string) (st : State) : State :=
  {| relayStatuses := JsMap.delete relayUrl (relayStatuses st);
     eventCounts := eventCounts st;
     totalEvents := totalEvents st;
     index := index st;
     subscribed := subscribed st |}.

(** What happens to a running service. *)
Inductive Op :=
| Deliver (now : Z) (event : NostrEvent) (relayUrl : string)
| RelayError (relayUrl : string) (message : option string)
| RelayListLoaded (event : NostrEvent)
| Connect (relayUrl : string)
| Remove (relayUrl : string).

Definition step (st : State) (op : Op) : State :=
  match op with
  | Deliver now event relayUrl => onEvent event (handleEvent now event relayUrl st)
  | RelayError relayUrl message =>
      {| relayStatuses := updateRelayStatus relayUrl false message 0 (relayStatuses st);
         eventCounts := eventCounts st;
         totalEvents := totalEvents st;
         index := index st;
         subscribed := subscribed st |}
  | RelayListLoaded event => processRelayListEvent event st
  | Connect relayUrl => connectToRelay st relayUrl
  | Remove relayUrl => removeRelay relayUrl st
  end.

Definition runFrom (st : State) (ops : list Op) : State := foldl step st ops.

Definition run (ops : list Op) : State := runFrom init ops.

(** *** Vocabulary of the statements about the service *)

(** The deliveries among [ops], oldest first. *)
Definition deliveriesOf (ops : list Op) : list (NostrEvent * string) :=
  omap (fun op => match op with
                  | Deliver _ event relayUrl => Some (event, relayUrl)
                  | _ => None
                  end) ops.

Definition deliveredBy (relayUrl : string) (ops : list Op) : nat :=
  length (List.filter (fun c => String.eqb (snd c) relayUrl) (deliveriesOf ops)).

Definition deliveredOfKind (k : Z) (ops : list Op) : nat :=
  length (List.filter (fun c => (kind (fst c) =? k)%Z) (deliveriesOf ops)).

Definition removes (relayUrl : string) (op : Op) : bool :=
  match op with
  | Remove r => String.eqb r relayUrl
  | _ => false
  end.

(** A delivery or an error: what a relay sends. *)
Definition isTraffic (op : Op) : bool :=
  match op with
  | Deliver _ _ _ | RelayError _ _ => true
  | _ => false
  end.
End Service.

(** ** The hashtag store *)

Module Stores.
Import JsString.

(** An element of the store.  The application passes [t[1]] of every
    [t] tag, which is [undefined] for a tag of one element: [None]. *)
Record HashtagCount := {
  hashtag : option string;
  count : Z;
  lastSeen : Z;
  trending : bool
}.

(** [hashtags.find(h => h.hashtag === hashtag)] and the update of the
    element found; [None] when there is none. *)
Fixpoint updateExisting (name : option string) (createdAt increment : Z)
    (hashtags : list HashtagCount) : option (list HashtagCount) :=
  match hashtags with
  | [] => None
  | h :: rest =>
      if bool_decide (hashtag h = name) then
        Some ({| hashtag := hashtag h;
                 count := count h + increment;
                 lastSeen := if (lastSeen h <? createdAt * 1000)%Z
                             then (createdAt * 1000)%Z else lastSeen h;
                 trending := trending h |} :: rest)
      else cons h <$> updateExisting name createdAt increment rest
  end.

Definition updateHashtagCount (name : option string) (createdAt increment : Z)
    (hashtags : list HashtagCount) : list HashtagCount :=
  match updateExisting name createdAt increment hashtags with
  | Some hashtags' => hashtags'
  | None =>
      hashtags ++ [ {| hashtag := name; count := increment;
                       lastSeen := (createdAt * 1000)%Z; trending := false |} ]
  end.

(** [event.tags.filter(t => t[0] === 't').map(t => t[1])] of the
    application's subscriber. *)
Definition storeTagsOf (event : NostrEvent) : list (option string) :=
  (fun t => t !! 1%nat)
    <$> List.filter (fun t => bool_decide (t !! 0%nat = Some "t")) (tags event).

(** The subscriber's [forEach]. *)
Definition absorb (hashtags : list HashtagCount) (event : NostrEvent)
    : list HashtagCount :=
  foldl (fun hs name => updateHashtagCount name (created_at event) 1 hs)
        hashtags (storeTagsOf event).

(** The store after a sequence of events of the stream, oldest first. *)
Definition absorbAll (events : list NostrEvent) : list HashtagCount :=
  foldl absorb [] events.

(** [hashtags.reduce((sum, h) => sum + h.count, 0)] *)
Definition totalCounts (hashtags : list HashtagCount) : Z :=
  foldl (fun sum h => (sum + count h)%Z) 0%Z hashtags.

Definition totalHashtags (hashtags : list HashtagCount) : nat := length hashtags.

Definition trendingHashtags (now : Z) (hashtags : list HashtagCount)
    : list HashtagCount :=
  let oneHour := (60 * 60 * 1000)%Z in
  List.filter (fun h => trending h
                        || ((now - oneHour <? lastSeen h)%Z && (5 <? count h)%Z))
              hashtags.

(** *** Vocabulary of the statements about the store *)

Definition lookupTag (name : option string) (hashtags : list HashtagCount)
    : option HashtagCount :=
  List.find (fun h => bool_decide (hashtag h = name)) hashtags.

(** The calls of [updateHashtagCount] that a sequence of events causes:
    the name and [created_at] of each. *)
Definition updatesOf (events : list NostrEvent) : list (option string * Z) :=
  flat_map (fun e => (fun name => (name, created_at e)) <$> storeTagsOf e) events.

(** The number of [t] tags with second element [name] in [events]. *)
Definition uses (name : option string) (events : list NostrEvent) : nat :=
  length (List.filter (fun u => bool_decide (fst u = name)) (updatesOf events)).
End Stores.

(** ** Helpers *)

Module HelpersMore.
Import JsString Regex Stores.

(** *** [sortHashtags] *)

(** ['count' | 'recent' | 'trending' | 'alphabetical'] *)
Inductive SortKey := byCount | byRecent | byTrending | byAlphabetical.

Inductive Direction := asc | desc.

Section Sorting.
(** [a.localeCompare(b)] belongs to the platform.  It throws for an
    absent name, which the model does not show: the statements about
    [byAlphabetical] are left out. *)
Context (localeCompare : option string -> option string -> Z).

Definition comparison (sortBy : SortKey) (a b : HashtagCount) : Z :=
  match sortBy with
  | byCount => count a - count b
  | byRecent => lastSeen a - lastSeen b
  | byTrending =>
      let c := (if trending a then 1 else 0) - (if trending b then 1 else 0) in
      if c =? 0 then count a - count b else c
  | byAlphabetical => localeCompare (hashtag a) (hashtag b)
  end%Z.

Definition compareHashtags (sortBy : SortKey) (direction : Direction)
    (a b : HashtagCount) : Z :=
  match direction with
  | desc => (- comparison sortBy a b)%Z
  | asc => comparison sortBy a b
  end.

Definition sortHashtags (hashtags : list HashtagCount) (sortBy : SortKey)
    (direction : Direction) : list HashtagCount :=
  JsArray.sort (compareHashtags sortBy direction) hashtags.

(** [a] does not come after [b] in ascending order of the key. *)
Definition keyLe (sortBy : SortKey) (a b : HashtagCount) : Prop :=
  match sortBy with
  | byCount => (count a <= count b)%Z
  | byRecent => (lastSeen a <= lastSeen b)%Z
  | byTrending =>
      (trending a = false /\ trending b = true)
      \/ (trending a = trending b /\ (count a <= count b)%Z)
  | byAlphabetical => (localeCompare (hashtag a) (hashtag b) <= 0)%Z
  end.

Definition inOrder (sortBy : SortKey) (direction : Direction)
    (a b : HashtagCount) : Prop :=
  match direction with
  | asc => keyLe sortBy a b
  | desc => keyLe sortBy b a
  end.
End Sorting.

(** *** [getHashtagColor] *)

Definition colors : list string :=
  [ "#ef4444"; "#f97316"; "#f59e0b"; "#eab308";
    "#84cc16"; "#22c55e"; "#10b981"; "#14b8a6";
    "#06b6d4"; "#0ea5e9"; "#3b82f6"; "#6366f1";
    "#8b5cf6"; "#a855f7"; "#d946ef"; "#ec4899";
    "#f43f5e" ].

(** [ToInt32]: the signed 32-bit integer congruent to [z]. *)
Definition toInt32 (z : Z) : Z := ((z + 2 ^ 31) mod 2 ^ 32 - 2 ^ 31)%Z.

(** [x << 5] *)
Definition shl5 (x : Z) : Z := toInt32 (toInt32 x * 32).

(** [hashtag.charCodeAt(i) + ((hash << 5) - hash)].  The shift wraps to
    32 bits, the subtraction and the addition do not. *)
Definition hashStep (hash : Z) (c : ascii) : Z :=
  (Z.of_nat (nat_of_ascii c) + (shl5 hash - hash))%Z.

Definition hashOf (hashtag : string) : Z :=
  foldl hashStep 0%Z (list_ascii_of_string hashtag).

(** [colors[Math.abs(hash) % colors.length]]: [None] is [undefined]. *)
Definition getHashtagColor (hashtag : string) : option string :=
  colors !! Z.to_nat (Z.abs (hashOf hashtag) mod Z.of_nat (length colors)).

(** *** [escapeHtml] *)

(** [s.replace(/c/g, rep)] for one code unit [c]. *)
Fixpoint replaceAll (c : ascii) (rep : string) (s : string) : string :=
  match s with
  | EmptyString => EmptyString
  | String a s' =>
      if Ascii.eqb a c then rep +:+ replaceAll c rep s'
      else String a (replaceAll c rep s')
  end.

Definition dquote : ascii := Eval cbv in ascii_of_nat 34.

Definition escapeHtml (unsafe : string) : string :=
  replaceAll "'" "&#039;"
    (replaceAll dquote "&quot;"
       (replaceAll ">" "&gt;"
          (replaceAll "<" "&lt;"
             (replaceAll "&" "&amp;" unsafe)))).

(** The entity of one code unit. *)
Definition escapeChar (c : ascii) : string :=
  if Ascii.eqb c "&" then "&amp;"
  else if Ascii.eqb c "<" then "&lt;"
  else if Ascii.eqb c ">" then "&gt;"
  else if Ascii.eqb c dquote then "&quot;"
  else if Ascii.eqb c "'" then "&#039;"
  else String c EmptyString.

Fixpoint concatMap (f : ascii -> string) (s : string) : string :=
  match s with
  | EmptyString => EmptyString
  | String a s' => f a +:+ concatMap f s'
  end.

(** [<], [>], the double and the single quote. *)
Definition isMarkup (c : ascii) : bool :=
  Ascii.eqb c "<" || Ascii.eqb c ">" || Ascii.eqb c dquote || Ascii.eqb c "'".

(** *** [extractHashtags] *)

(** [[a-zA-Z0-9_]] *)
Definition isWordChar (c : ascii) : bool :=
  isLower c || isUpperC c || isDigit c || Ascii.eqb c "_".

(** One attempt of [/#([a-zA-Z0-9_]+)/] at the start of [s]. *)
Definition matchHashtagAt (s : string) : option string :=
  match s with
  | String "#" r =>
      match takeWhile isWordChar r with
      | EmptyString => None
      | body => Some (String "#" body)
      end
  | _ => None
  end.

Definition extractHashtags (content : string) : list string :=
  (fun tag => toLowerCase (drop 1 tag)) <$> matchAll matchHashtagAt content.

(** [[a-z0-9_]] *)
Definition isTagChar (c : ascii) : bool :=
  isLower c || isDigit c || Ascii.eqb c "_".
End HelpersMore.

(** ** The filtered list of the hashtag store *)

Module StoreView.
Import JsString Stores HelpersMore.

(** [h.includes(q)] *)
Fixpoint includesStr (h q : string) : bool :=
  startsWith h q
  || match h with
     | EmptyString => false
     | String _ h' => includesStr h' q
     end.

(** The current sort of the interface, without its label. *)
Record SortOption := { key : SortKey; direction : Direction }.

(** [filtered.filter(h => h.hashtag.toLowerCase().includes(query))].
    [toLowerCase] of an absent name throws a [TypeError]: [None]. *)
Fixpoint filterByQuery (query : string) (hashtags : list HashtagCount)
    : option (list HashtagCount) :=
  match hashtags with
  | [] => Some []
  | h :: rest =>
      match hashtag h with
      | None => None
      | Some name =>
          match filterByQuery query rest with
          | None => None
          | Some rest' =>
              Some (if includesStr (toLowerCase name) query then h :: rest' else rest')
          end
      end
  end.

Section WithLocale.
Context (localeCompare : option string -> option string -> Z).

Definition getSortedHashtags (hashtags : list HashtagCount) (sortBy : SortKey)
    (dir : Direction) : list HashtagCount :=
  sortHashtags localeCompare hashtags sortBy dir.

(** [getFilteredHashtags] for a search text and a sort; [None] when
    the filter throws. *)
Definition getFilteredHashtags (searchQuery : string) (sort : SortOption)
    (hashtags : list HashtagCount) : option (list HashtagCount) :=
  let query := toLowerCase searchQuery in
  match (if truthy (Some query) then filterByQuery query hashtags
         else Some hashtags) with
  | Some filtered =>
      Some (sortHashtags localeCompare filtered (key sort) (direction sort))
  | None => None
  end.
End WithLocale.

(** [name] contains [query], whatever the case of the letters. *)
Definition matchesQuery (query : string) (h : HashtagCount) : Prop :=
  exists name before rest,
    hashtag h = Some name
    /\ toLowerCase name = before +:+ toLowerCase query +:+ rest.
End StoreView.

(** ** The insights of the hashtag view *)

Module TagCount.
Record t := { tag : option string; count : nat }.
End TagCount.

Module AuthorCount.
Record t (Profile : Type) := { pubkey : string; count : nat; profile : option Profile }.
Arguments pubkey {Profile}.
Arguments count {Profile}.
Arguments profile {Profile}.
End AuthorCount.

Module HashtagInsights.
Record t (Profile : Type) := {
  hashtag : string;
  totalEvents : Z;
  uniqueAuthors : nat;
  relatedTags : list TagCount.t;
  topAuthors : list (AuthorCount.t Profile);
  relayDistribution : list TopicIndex.RelayCount
}.
Arguments hashtag {Profile}.
Arguments totalEvents {Profile}.
Arguments uniqueAuthors {Profile}.
Arguments relatedTags {Profile}.
Arguments topAuthors {Profile}.
Arguments relayDistribution {Profile}.
End HashtagInsights.

Module Insights.
Import JsString TopicIndex.

(** [m.set(k, (m.get(k) || 0) + 1)] on a [Map] whose keys may be
    [undefined]. *)
Fixpoint bumpKey (k : option string) (m : list (option string * nat))
    : list (option string * nat) :=
  match m with
  | [] => [(k, 1)]
  | (k', n) :: m' =>
      if bool_decide (k' = k) then (k, n + 1) :: m' else (k', n) :: bumpKey k m'
  end.

(** [if (t[0] === 't' && t[1] !== tag) relatedTagsMap.set(t[1], ...)] *)
Definition relatedStep (tag : string) (m : list (option string * nat))
    (t : list string) : list (option string * nat) :=
  if bool_decide (t !! 0%nat = Some "t") && negb (bool_decide (t !! 1%nat = Some tag))
  then bumpKey (t !! 1%nat) m
  else m.

(** The body of [filteredEvents.forEach]. *)
Definition eventStep (tag : string)
    (acc : list (string * nat) * list (option string * nat)) (event : NostrEvent)
    : list (string * nat) * list (option string * nat) :=
  (bump (pubkey event) (fst acc), foldl (relatedStep tag) (snd acc) (tags event)).

(** [hashtags.find(h => h.hashtag.toLowerCase() === tag.toLowerCase())]:
    the outer [None] is the [TypeError] of an absent name. *)
Fixpoint findInStore (tag : string) (hashtags : list Stores.HashtagCount)
    : option (option Stores.HashtagCount) :=
  match hashtags with
  | [] => Some None
  | h :: rest =>
      match Stores.hashtag h with
      | None => None
      | Some name =>
          if String.eqb (toLowerCase name) (toLowerCase tag) then Some (Some h)
          else findInStore tag rest
      end
  end.

Definition byTagCount (a b : TagCount.t) : Z :=
  (Z.of_nat (TagCount.count b) - Z.of_nat (TagCount.count a))%Z.

Section WithProfiles.
Context {Profile : Type} (getProfile : string -> option Profile).

Definition byAuthorCount (a b : AuthorCount.t Profile) : Z :=
  (Z.of_nat (AuthorCount.count b) - Z.of_nat (AuthorCount.count a))%Z.

(** [updateHashtagData]: the events it shows and the insights it
    sets; no insights when [find] throws. *)
Definition updateHashtagData (tag : string) (st : Index)
    (hashtags : list Stores.HashtagCount)
    : list NostrEvent * option (HashtagInsights.t Profile) :=
  let filteredEvents := getHashtagEvents tag (hashtagEvents st) in
  (filteredEvents,
   match findInStore tag hashtags with
   | None => None
   | Some hashtagInStore =>
       let '(authorCountMap, relatedTagsMap) :=
         foldl (eventStep tag) ([], []) filteredEvents in
       Some {| HashtagInsights.hashtag := tag;
               HashtagInsights.totalEvents :=
                 if (length filteredEvents =? 0)%nat
                 then match hashtagInStore with
                      | Some h => Stores.count h
                      | None => 0%Z
                      end
                 else Z.of_nat (length filteredEvents);
               HashtagInsights.uniqueAuthors := length authorCountMap;
               HashtagInsights.relatedTags :=
                 JsArray.slice0 20
                   (JsArray.sort byTagCount
                      ((fun kv => {| TagCount.tag := fst kv;
                                     TagCount.count := snd kv |})
                         <$> relatedTagsMap));
               HashtagInsights.topAuthors :=
                 JsArray.slice0 10
                   (JsArray.sort byAuthorCount
                      ((fun kv => {| AuthorCount.pubkey := fst kv;
                                     AuthorCount.count := snd kv;
                                     AuthorCount.profile := getProfile (fst kv) |})
                         <$> authorCountMap));
               HashtagInsights.relayDistribution :=
                 insightsRelayDistribution tag (hashtagRelayDistribution st) |}
   end).
End WithProfiles.

(** *** Vocabulary of the statements about the insights *)

(** The number of [t] tags with second element [k] in [events]. *)
Definition tagUses (k : option string) (events : list NostrEvent) : nat :=
  length (List.filter (fun t => bool_decide (t !! 0%nat = Some "t")
                                && bool_decide (t !! 1%nat = k))
                      (flat_map tags events)).

Definition eventsBy (author : string) (events : list NostrEvent) : nat :=
  length (List.filter (fun e => String.eqb (pubkey e) author) events).

Definition getKey (k : option string) (m : list (option string * nat)) : option nat :=
  snd <$> List.find (fun kv => bool_decide (fst kv = k)) m.
End Insights.

(** ** Navigation *)

Module Navigation.
Import JsString Regex.

(** [s.replace('#', '')]: the first occurrence only. *)
Fixpoint removeFirstHash (s : string) : string :=
  match s with
  | EmptyString => EmptyString
  | String c s' => if Ascii.eqb c "#" then s' else String c (removeFirstHash s')
  end.

(** [s.split('/')] *)
Fixpoint split (s : string) : list string :=
  match s with
  | EmptyString => [EmptyString]
  | String c s' =>
      if Ascii.eqb c "/" then EmptyString :: split s'
      else match split s' with
           | seg :: rest => String c seg :: rest
           | [] => [String c EmptyString]
           end
  end.

(** The value that [navigate] gives to [currentPath]. *)
Definition navigate (path : string) : string :=
  if startsWith path "#" then path else "#" +:+ path.

Definition getCurrentRoute (currentPath : string) : string :=
  let hash := removeFirstHash currentPath in
  if startsWith hash "/hashtag/" then "hashtag" else "home".

Definition isRoute (path : string) (currentPath : string) : bool :=
  let current := removeFirstHash currentPath in
  if String.eqb path "/" && String.eqb current "/" then true
  else if String.eqb path "/hashtag/:tag" && startsWith current "/hashtag/" then true
  else false.

Section WithDecoder.
(** [decodeURIComponent]; [None] is its [URIError]. *)
Context (decodeURIComponent : string -> option string).

(** [getRouteParams]: [Some None] is the empty object, the outer
    [None] the exception of the decoder. *)
Definition getRouteParams (currentPath : string) : option (option string) :=
  let hash := removeFirstHash currentPath in
  let segments := split hash in
  if startsWith hash "/hashtag/" && (3 <=? length segments)%nat then
    match decodeURIComponent (default "" (segments !! 2%nat)) with
    | Some tag => Some (Some tag)
    | None => None
    end
  else Some None.
End WithDecoder.

Definition notSlash (c : ascii) : bool := negb (Ascii.eqb c "/").

(** Neither [/] nor [#]. *)
Definition isPlain (c : ascii) : bool :=
  negb (Ascii.eqb c "/") && negb (Ascii.eqb c "#").

(** A reference pair of encoder and decoder: two hexadecimal digits
    for each code unit. *)
Definition hexDigit (n : nat) : ascii :=
  ascii_of_nat (if (n <? 10)%nat then 48 + n else 87 + n).

Definition hexValue (c : ascii) : option nat :=
  let n := nat_of_ascii c in
  if isDigit c then Some (n - 48)
  else if inRange 97 102 c then Some (n - 87)
  else None.

Fixpoint hexEncode (s : string) : string :=
  match s with
  | EmptyString => EmptyString
  | String c s' =>
      String (hexDigit (nat_of_ascii c / 16))
        (String (hexDigit (nat_of_ascii c mod 16)) (hexEncode s'))
  end.

Fixpoint hexDecode (s : string) : option string :=
  match s with
  | EmptyString => Some EmptyString
  | String a (String b s') =>
      match hexValue a, hexValue b, hexDecode s' with
      | Some hi, Some lo, Some rest => Some (String (ascii_of_nat (16 * hi + lo)) rest)
      | _, _, _ => None
      end
  | String _ EmptyString => None
  end.
End Navigation.

(** ** Further sample data *)

Module SampleMore.
Import Discovery DiscoveryMore Sample.

(** A value for [importData]: two elements for one URL, and one
    without a URL. *)
Definition imported : DiscoveryData :=
  {| x_relayRecommendations :=
       Some [ {| x_url := Some "wss://a.example";
                 x_readRecommendations := Some ["A"];
                 x_writeRecommendations := Some [];
                 x_lastSeen := Some 1%Z;
                 x_sources := Some [nip65] |};
              {| x_url := None;
                 x_readRecommendations := Some ["B"];
                 x_writeRecommendations := Some ["B"];
                 x_lastSeen := Some 2%Z;
                 x_sources := None |};
              {| x_url := Some "wss://a.example";
                 x_readRecommendations := Some ["C"; "C"];
                 x_writeRecommendations := Some ["C"];
                 x_lastSeen := None;
                 x_sources := Some [contacts] |} ];
     x_followedPubkeys := None;
     x_config := None |}.

Definition first : NostrEvent := note "e1" [["t"; "Bitcoin"]; ["t"; "nostr"]].

Definition second : NostrEvent := note "e2" [["t"; "bitcoin"]; ["t"]].

(** Two deliveries by one default relay, an error in between, and the
    removal of another relay. *)
Definition traffic : list Service.Op :=
  [ Service.Deliver 5 first "wss://nos.lol";
    Service.RelayError "wss://nos.lol" (Some "closed");
    Service.Deliver 9 second "wss://nos.lol" ].

Definition operations : list Service.Op :=
  traffic ++ [Service.Remove "wss://nostr.mom"].

(** The store after the two events. *)
Definition store : list Stores.HashtagCount := Stores.absorbAll [first; second].

Definition noLocale (a b : option string) : Z := 0%Z.

Definition noProfile (pubkey : string) : option string := None.

(** The insights of [bitcoin] after [traffic]. *)
Definition bitcoinInsights : HashtagInsights.t string :=
  {| HashtagInsights.hashtag := "bitcoin";
     HashtagInsights.totalEvents := 2;
     HashtagInsights.uniqueAuthors := 1;
     HashtagInsights.relatedTags :=
       [ {| TagCount.tag := None; TagCount.count := 1 |};
         {| TagCount.tag := Some "Bitcoin"; TagCount.count := 1 |};
         {| TagCount.tag := Some "nostr"; TagCount.count := 1 |} ];
     HashtagInsights.topAuthors :=
       [ {| AuthorCount.pubkey := "alice"; AuthorCount.count := 2;
            AuthorCount.profile := None |} ];
     HashtagInsights.relayDistribution :=
       [ {| TopicIndex.relay := "wss://nos.lol"; TopicIndex.count := 2 |} ] |}.
End SampleMore.

(** * Facts *)

(** ** Strings *)

Module JsStringFacts.
Import JsString.

Lemma lowerChar_idemp c : lowerChar (lowerChar c) = lowerChar c.
Proof. destruct c as [[] [] [] [] [] [] [] []]; reflexivity. Qed.

Lemma toLowerCase_idemp s : toLowerCase (toLowerCase s) = toLowerCase s.
Proof.
  induction s as [|c s IH]; simpl; [reflexivity|].
  now rewrite lowerChar_idemp, IH.
Qed.

Lemma str_app_cons c a b : String c a +:+ b = String c (a +:+ b).
Proof. reflexivity. Qed.

Lemma startsWith_spec h p : startsWith h p = true <-> exists t, h = p +:+ t.
Proof.
  revert h. induction p as [|a p IH]; intros h; simpl.
  - split; [intros _; now exists h | intros _; now destruct h].
  - destruct h as [|b h].
    + split; [discriminate | intros [t Ht]; discriminate].
    + simpl. destruct (Ascii.eqb a b) eqn:E; simpl.
      * apply Ascii.eqb_eq in E. subst b. rewrite IH. split.
        -- intros [t ->]. now exists t.
        -- intros [t Ht]. rewrite str_app_cons in Ht. injection Ht as ->. now exists t.
      * split; [discriminate|]. intros [t Ht]. rewrite str_app_cons in Ht.
        injection Ht as -> _. now rewrite Ascii.eqb_refl in E.
Qed.

Lemma str_app_nil_l s : "" +:+ s = s.
Proof. reflexivity. Qed.

Lemma str_app_nil_r s : s +:+ "" = s.
Proof. induction s as [|c s IH]; [reflexivity | now rewrite str_app_cons, IH]. Qed.

Lemma str_app_assoc a b c : (a +:+ b) +:+ c = a +:+ (b +:+ c).
Proof. induction a as [|x a IH]; [reflexivity | now rewrite !str_app_cons, IH]. Qed.

Lemma str_drop_app p s : drop (String.length p) (p +:+ s) = s.
Proof. induction p as [|a p IH]; [reflexivity | rewrite str_app_cons; exact IH]. Qed.

Lemma str_length_app p s : String.length (p +:+ s) = (String.length p + String.length s)%nat.
Proof.
  induction p as [|a p IH]; [reflexivity|].
  rewrite str_app_cons. simpl. now rewrite IH.
Qed.

Lemma str_firstn_drop n s : firstn n s +:+ drop n s = s.
Proof.
  revert s. induction n as [|n IH]; intros s; simpl; [reflexivity|].
  destruct s as [|c s]; simpl; [reflexivity | now rewrite str_app_cons, IH].
Qed.

Lemma endsWith_spec h p : endsWith h p = true <-> exists t, h = t +:+ p.
Proof.
  unfold endsWith. rewrite andb_true_iff, Nat.leb_le, String.eqb_eq. split.
  - intros [_ Hd]. exists (firstn (String.length h - String.length p) h).
    rewrite <- Hd at 2. symmetry. apply str_firstn_drop.
  - intros [t ->]. rewrite str_length_app. split; [lia|].
    replace (String.length t + String.length p - String.length p)%nat
      with (String.length t) by lia.
    apply str_drop_app.
Qed.

End JsStringFacts.

(** ** Insertion-ordered maps *)

Module JsMapFacts.
Import JsMap.
Section Facts.
Context {V : Type}.
Implicit Types (m : list (string * V)) (k : string) (v : V).

Lemma get_set_eq k v m : get k (set k v m) = Some v.
Proof.
  induction m as [|[k' v'] m IH]; simpl.
  - now rewrite String.eqb_refl.
  - destruct (String.eqb k' k) eqn:E; simpl.
    + now rewrite String.eqb_refl.
    + now rewrite E.
Qed.

Lemma get_set_ne k k' v m : k <> k' -> get k' (set k v m) = get k' m.
Proof.
  intros Hne. induction m as [|[k0 v0] m IH]; simpl.
  - destruct (String.eqb k k') eqn:E; [apply String.eqb_eq in E; contradiction | reflexivity].
  - destruct (String.eqb k0 k) eqn:E; simpl.
    + apply String.eqb_eq in E. subst k0.
      destruct (String.eqb k k') eqn:E'; [apply String.eqb_eq in E'; contradiction | reflexivity].
    + destruct (String.eqb k0 k'); [reflexivity | exact IH].
Qed.

Lemma get_set k k' v m :
  get k' (set k v m) = if String.eqb k k' then Some v else get k' m.
Proof.
  destruct (String.eqb k k') eqn:E.
  - apply String.eqb_eq in E. subst. apply get_set_eq.
  - apply get_set_ne. intros ->. now rewrite String.eqb_refl in E.
Qed.

Lemma set_get_id k v m : get k m = Some v -> set k v m = m.
Proof.
  induction m as [|[k' v'] m IH]; simpl; [discriminate|].
  destruct (String.eqb k' k) eqn:E.
  - apply String.eqb_eq in E. intros [= ->]. now subst.
  - intros H. now rewrite IH.
Qed.

Lemma get_Some_elem k v m : get k m = Some v -> (k, v) ∈ m.
Proof.
  induction m as [|[k' v'] m IH]; simpl; [discriminate|].
  destruct (String.eqb k' k) eqn:E.
  - apply String.eqb_eq in E. intros [= ->]. subst. apply list_elem_of_here.
  - intros H. apply list_elem_of_further. now apply IH.
Qed.

Lemma get_None_keys k m : get k m = None <-> k ∉ keys m.
Proof.
  induction m as [|[k' v'] m IH]; simpl.
  - split; [intros _; apply not_elem_of_nil | reflexivity].
  - rewrite not_elem_of_cons. destruct (String.eqb k' k) eqn:E.
    + apply String.eqb_eq in E. split; [discriminate | intros [H _]; now subst].
    + rewrite IH. apply String.eqb_neq in E. split; [intros H; split; congruence | tauto].
Qed.

Lemma elem_get k v m : wf m -> (k, v) ∈ m -> get k m = Some v.
Proof.
  unfold wf. induction m as [|[k' v'] m IH]; simpl.
  - intros _ H. now apply not_elem_of_nil in H.
  - intros Hnd Hin. apply NoDup_cons in Hnd as [Hk Hnd].
    apply elem_of_cons in Hin as [Heq | Hin].
    + injection Heq as -> ->. now rewrite String.eqb_refl.
    + destruct (String.eqb k' k) eqn:E.
      * apply String.eqb_eq in E. subst k'. exfalso. apply Hk.
        apply list_elem_of_fmap. now exists (k, v).
      * now apply IH.
Qed.

Lemma keys_set k v m :
  keys (set k v m) = match get k m with Some _ => keys m | None => keys m ++ [k] end.
Proof.
  induction m as [|[k' v'] m IH]; simpl; [reflexivity|].
  destruct (String.eqb k' k) eqn:E; simpl.
  - apply String.eqb_eq in E. now subst.
  - rewrite IH. now destruct (get k m).
Qed.

Lemma wf_set k v m : wf m -> wf (set k v m).
Proof.
  unfold wf. intros Hnd. rewrite keys_set.
  destruct (get k m) eqn:E; [exact Hnd|].
  apply get_None_keys in E.
  apply NoDup_app. split; [exact Hnd|]. split.
  - intros x Hx Hx'. apply list_elem_of_singleton in Hx'. now subst.
  - apply NoDup_singleton.
Qed.

Lemma elem_delete k kv m : kv ∈ delete k m <-> kv ∈ m /\ fst kv <> k.
Proof.
  unfold delete. rewrite !list_elem_of_In, filter_In, negb_true_iff.
  split; intros [H1 H2]; split; try exact H1; now apply String.eqb_neq.
Qed.

Lemma keys_delete k m x : x ∈ keys (delete k m) <-> x ∈ keys m /\ x <> k.
Proof.
  unfold keys. rewrite !list_elem_of_fmap. split.
  - intros [kv [-> H]]. apply elem_delete in H as [H Hne]. split; [now exists kv | exact Hne].
  - intros [[kv [-> H]] Hne]. exists kv. split; [reflexivity|]. now apply elem_delete.
Qed.

Lemma wf_delete k m : wf m -> wf (delete k m).
Proof.
  unfold wf. induction m as [|[k' v'] m IH]; simpl; [trivial|].
  intros Hnd. apply NoDup_cons in Hnd as [Hk Hnd].
  destruct (String.eqb k' k); simpl; [now apply IH|].
  apply NoDup_cons. split; [|now apply IH].
  intros Hin. apply Hk. now apply (keys_delete k) in Hin as [Hin _].
Qed.

Lemma get_delete k k' m :
  get k' (delete k m) = if String.eqb k k' then None else get k' m.
Proof.
  induction m as [|[k0 v0] m IH]; simpl.
  - now destruct (String.eqb k k').
  - destruct (String.eqb k0 k) eqn:E; simpl.
    + apply String.eqb_eq in E. subst k0. rewrite IH.
      now destruct (String.eqb k k').
    + rewrite IH. destruct (String.eqb k0 k') eqn:E'; [|reflexivity].
      apply String.eqb_eq in E'. subst k0.
      rewrite String.eqb_sym. now rewrite E.
Qed.

End Facts.
End JsMapFacts.

(** ** The topic index: message lists *)

Module TopicIndexFacts.
Import JsString JsStringFacts TopicIndex.

Implicit Types (m : gmap string (list NostrEvent)) (e : NostrEvent)
  (l : list NostrEvent) (h : string).

Lemma hasId_true i l : hasId i l = true <-> i ∈ id <$> l.
Proof.
  unfold hasId. rewrite existsb_exists, list_elem_of_fmap. split.
  - intros [x [Hx Hi]]. apply String.eqb_eq in Hi. exists x.
    split; [now symmetry | now apply list_elem_of_In].
  - intros [x [-> Hx]]. exists x. split; [now apply list_elem_of_In | apply String.eqb_refl].
Qed.

Lemma hasId_false i l : hasId i l = false <-> i ∉ id <$> l.
Proof.
  rewrite <- hasId_true. destruct (hasId i l); split; congruence.
Qed.

Lemma storeEvent_present e l :
  hasId (id e) l = true -> length l <= 100 -> storeEvent e l = l.
Proof.
  intros Hin Hlen. unfold storeEvent. rewrite Hin.
  destruct (100 <? length l)%nat eqn:E; [|reflexivity].
  apply Nat.ltb_lt in E. lia.
Qed.

Lemma storeEvent_absent e l :
  hasId (id e) l = false -> storeEvent e l = take 100 (e :: l).
Proof.
  intros Hin. unfold storeEvent. rewrite Hin.
  destruct (100 <? length (e :: l))%nat eqn:E; [reflexivity|].
  apply Nat.ltb_ge in E. symmetry. now apply take_ge.
Qed.

Lemma storeEvent_length e l : length l <= 100 -> length (storeEvent e l) <= 100.
Proof.
  intros Hlen. destruct (hasId (id e) l) eqn:E.
  - now rewrite storeEvent_present.
  - rewrite storeEvent_absent by exact E. rewrite length_take. lia.
Qed.

Lemma storeEvent_hasId e l :
  length l <= 100 -> hasId (id e) (storeEvent e l) = true.
Proof.
  intros Hlen. destruct (hasId (id e) l) eqn:E.
  - now rewrite storeEvent_present.
  - rewrite storeEvent_absent by exact E. simpl. now rewrite String.eqb_refl.
Qed.

Lemma storeEvent_ok e l : listOk l -> listOk (storeEvent e l).
Proof.
  intros [Hnd Hlen]. split; [|now apply storeEvent_length].
  destruct (hasId (id e) l) eqn:E.
  - now rewrite storeEvent_present.
  - rewrite storeEvent_absent by exact E.
    apply hasId_false in E.
    apply (sublist_NoDup _ (id <$> e :: l)); [|apply fmap_sublist, sublist_take].
    rewrite fmap_cons. apply NoDup_cons. now split.
Qed.

Lemma trackOne_lookup e m h h' :
  trackOne e m h !! h' =
    if decide (h = h') then Some (storeEvent e (default [] (m !! h))) else m !! h'.
Proof. unfold trackOne. apply lookup_insert. Qed.

Lemma indexOk_empty : indexOk ∅.
Proof. intros h l H. now rewrite lookup_empty in H. Qed.

Lemma listOk_default m h : indexOk m -> listOk (default [] (m !! h)).
Proof.
  intros Hok. destruct (m !! h) as [l|] eqn:E; simpl.
  - now apply (Hok h).
  - split; [constructor | simpl; lia].
Qed.

Lemma trackOne_ok e m h : indexOk m -> indexOk (trackOne e m h).
Proof.
  intros Hok h' l. rewrite trackOne_lookup. case_decide.
  - intros [= <-]. now apply storeEvent_ok, listOk_default.
  - apply Hok.
Qed.

Lemma foldl_trackOne_ok e hs m : indexOk m -> indexOk (foldl (trackOne e) m hs).
Proof.
  revert m. induction hs as [|h hs IH]; intros m Hok; simpl; [exact Hok|].
  now apply IH, trackOne_ok.
Qed.

Lemma trackHashtagEvents_ok e m : indexOk m -> indexOk (trackHashtagEvents e m).
Proof. apply foldl_trackOne_ok. Qed.

Lemma deliverAll_ok events m : indexOk m -> indexOk (deliverAll events m).
Proof.
  revert m. induction events as [|e events IH]; intros m Hok; simpl; [exact Hok|].
  now apply IH, trackHashtagEvents_ok.
Qed.

Lemma trackOne_absorbed_id e m h : absorbed e m h -> trackOne e m h = m.
Proof.
  intros [l [Hl [Hin Hlen]]]. unfold trackOne. rewrite Hl. simpl.
  rewrite storeEvent_present by assumption. now apply insert_id.
Qed.

Lemma absorbed_trackOne e m h h' : absorbed e m h -> absorbed e (trackOne e m h') h.
Proof.
  intros Ha. destruct (decide (h' = h)) as [->|Hne].
  - now rewrite trackOne_absorbed_id.
  - destruct Ha as [l [Hl Hrest]]. exists l. split; [|exact Hrest].
    rewrite trackOne_lookup. now rewrite decide_False.
Qed.

Lemma absorbed_after e m h : indexOk m -> absorbed e (trackOne e m h) h.
Proof.
  intros Hok. destruct (listOk_default m h Hok) as [_ Hlen].
  exists (storeEvent e (default [] (m !! h))). split; [|split].
  - rewrite trackOne_lookup. now rewrite decide_True.
  - now apply storeEvent_hasId.
  - now apply storeEvent_length.
Qed.

Lemma absorbed_foldl e hs m h :
  absorbed e m h -> absorbed e (foldl (trackOne e) m hs) h.
Proof.
  revert m. induction hs as [|h' hs IH]; intros m Ha; simpl; [exact Ha|].
  now apply IH, absorbed_trackOne.
Qed.

Lemma foldl_trackOne_absorbs e hs m h :
  indexOk m -> h ∈ hs -> absorbed e (foldl (trackOne e) m hs) h.
Proof.
  revert m. induction hs as [|h' hs IH]; intros m Hok Hin; simpl.
  - now apply elem_of_nil in Hin.
  - apply elem_of_cons in Hin as [-> | Hin].
    + now apply absorbed_foldl, absorbed_after.
    + apply IH; [now apply trackOne_ok | exact Hin].
Qed.

Lemma foldl_trackOne_id e hs m :
  (forall h, h ∈ hs -> absorbed e m h) -> foldl (trackOne e) m hs = m.
Proof.
  induction hs as [|h hs IH]; intros Ha; simpl; [reflexivity|].
  rewrite trackOne_absorbed_id by (apply Ha; left).
  apply IH. intros h' Hh'. apply Ha. now right.
Qed.

(** Redelivery changes nothing. *)
Lemma trackHashtagEvents_twice e m :
  indexOk m -> trackHashtagEvents e (trackHashtagEvents e m) = trackHashtagEvents e m.
Proof.
  intros Hok. unfold trackHashtagEvents at 1. apply foldl_trackOne_id.
  intros h Hh. now apply foldl_trackOne_absorbs.
Qed.

Lemma occurrences_NoDup i l : NoDup (id <$> l) -> i ∈ id <$> l -> occurrences i l = 1.
Proof.
  unfold occurrences. induction l as [|x l IH]; simpl.
  - intros _ H. now apply elem_of_nil in H.
  - intros Hnd Hin. apply NoDup_cons in Hnd as [Hx Hnd].
    destruct (String.eqb (id x) i) eqn:E.
    + apply String.eqb_eq in E. subst i. simpl. f_equal.
      assert (Hnone : forall y, In y l -> String.eqb (id y) (id x) = false).
      { intros y Hy. apply String.eqb_neq. intros Heq. apply Hx.
        rewrite <- Heq. apply list_elem_of_fmap_2. now apply list_elem_of_In. }
      clear -Hnone. induction l as [|y l IH]; simpl; [reflexivity|].
      rewrite Hnone by now left. apply IH. intros z Hz. apply Hnone. now right.
    + apply String.eqb_neq in E. apply elem_of_cons in Hin as [-> | Hin]; [congruence|].
      now apply IH.
Qed.

Lemma absorbed_foldl_lookup e hs m h :
  absorbed e m h -> foldl (trackOne e) m hs !! h = m !! h.
Proof.
  revert m. induction hs as [|h' hs IH]; intros m Ha; simpl; [reflexivity|].
  rewrite IH by now apply absorbed_trackOne.
  destruct (decide (h' = h)) as [->|Hne].
  - now rewrite trackOne_absorbed_id.
  - rewrite trackOne_lookup. now rewrite decide_False.
Qed.

Lemma foldl_trackOne_lookup e hs m h :
  indexOk m -> h ∈ hs ->
  foldl (trackOne e) m hs !! h = Some (storeEvent e (default [] (m !! h))).
Proof.
  revert m. induction hs as [|h' hs IH]; intros m Hok Hin; simpl.
  - now apply elem_of_nil in Hin.
  - destruct (decide (h' = h)) as [->|Hne].
    + rewrite absorbed_foldl_lookup by now apply absorbed_after.
      rewrite trackOne_lookup. now rewrite decide_True.
    + apply elem_of_cons in Hin as [-> | Hin]; [congruence|].
      rewrite IH by (try apply trackOne_ok; assumption).
      rewrite trackOne_lookup. now rewrite decide_False.
Qed.

Lemma trackHashtagEvents_lookup e m h :
  indexOk m -> h ∈ hashtagsOf e ->
  trackHashtagEvents e m !! h = Some (storeEvent e (default [] (m !! h))).
Proof. apply foldl_trackOne_lookup. Qed.

Lemma deliverAll_snoc events e m :
  deliverAll (events ++ [e]) m = trackHashtagEvents e (deliverAll events m).
Proof. unfold deliverAll. now rewrite foldl_snoc. Qed.

(** The list of a topic after deliveries with pairwise distinct ids that
    all reference it: the most recent 100, most recent first. *)
Lemma deliverAll_recent events h :
  NoDup (id <$> events) ->
  Forall (fun e => h ∈ hashtagsOf e) events ->
  default [] (deliverAll events ∅ !! h) = take 100 (reverse events).
Proof.
  induction events as [|e events IH] using rev_ind; intros Hnd Hall.
  - reflexivity.
  - rewrite fmap_app in Hnd. apply NoDup_app in Hnd as (Hnd & Hfresh & _).
    apply Forall_app in Hall as [Hall He]. rewrite Forall_singleton in He.
    rewrite deliverAll_snoc.
    rewrite trackHashtagEvents_lookup
      by first [apply deliverAll_ok, indexOk_empty | exact He].
    simpl. rewrite IH by assumption.
    rewrite reverse_snoc. rewrite storeEvent_absent.
    + change (take 100 (e :: take 100 (reverse events)))
        with (e :: take 99 (take 100 (reverse events))).
      now rewrite take_take.
    + apply hasId_false. intros Hin.
      apply list_elem_of_fmap in Hin as [x [Hx Hin]].
      apply elem_of_take in Hin as [i [Hi _]].
      apply list_elem_of_lookup_2 in Hi. rewrite elem_of_reverse in Hi.
      apply (Hfresh (id x)); [now apply list_elem_of_fmap_2|].
      rewrite <- Hx. apply list_elem_of_here.
Qed.

(** C5: redelivery of a message is a no-op of [trackHashtagEvents].
    After any history of deliveries, delivering an event for the second
    time leaves the whole index, and so the list of every topic the
    event references, unchanged, and that list holds the event's id
    exactly once. *)
Theorem trackHashtagEvents_idempotent
    (history : list NostrEvent) (e : NostrEvent) (topic : string) :
  toLowerCase topic ∈ hashtagsOf e ->
  let once := trackHashtagEvents e (deliverAll history ∅) in
  let twice := trackHashtagEvents e once in
  occurrences (id e) (getHashtagEvents topic twice) = 1
  /\ getHashtagEvents topic twice = getHashtagEvents topic once
  /\ twice = once.
Proof.
  intros Href once twice.
  assert (Hok : indexOk (deliverAll history ∅)) by apply deliverAll_ok, indexOk_empty.
  assert (Heq : twice = once) by now apply trackHashtagEvents_twice.
  rewrite Heq. split; [|split; reflexivity].
  destruct (foldl_trackOne_absorbs e (hashtagsOf e) _ _ Hok Href)
    as [l [Hl [Hin _]]].
  fold (trackHashtagEvents e (deliverAll history ∅)) in Hl. fold once in Hl.
  unfold getHashtagEvents. rewrite Hl. simpl.
  apply occurrences_NoDup; [|now apply hasId_true].
  apply (trackHashtagEvents_ok e) in Hok. now apply (Hok _ _ Hl).
Qed.

Lemma trackHashtagEvents_idempotent_witness :
  let e := Sample.note "e1" [["t"; "Bitcoin"]; ["t"; "nostr"]] in
  let once := trackHashtagEvents e (deliverAll (Sample.burst 3) ∅) in
  let twice := trackHashtagEvents e once in
  occurrences (id e) (getHashtagEvents "BITCOIN" twice) = 1
  /\ getHashtagEvents "BITCOIN" twice = getHashtagEvents "BITCOIN" once
  /\ twice = once.
Proof.
  apply (trackHashtagEvents_idempotent (Sample.burst 3)
           (Sample.note "e1" [["t"; "Bitcoin"]; ["t"; "nostr"]]) "BITCOIN").
  vm_compute. left.
Defined.

(** C6: the per-topic cap.  After the delivery of more than 100 events
    with pairwise distinct ids that all reference one topic,
    [getHashtagEvents] returns exactly 100 entries: the 100 most recent
    arrivals, the most recent first.  After any history of deliveries
    the list of every topic has at most 100 entries. *)
Theorem topic_cap (events : list NostrEvent) (topic : string) :
  NoDup (id <$> events) ->
  Forall (fun e => toLowerCase topic ∈ hashtagsOf e) events ->
  100 < length events ->
  getHashtagEvents topic (deliverAll events ∅) = take 100 (reverse events)
  /\ length (getHashtagEvents topic (deliverAll events ∅)) = 100
  /\ (forall history t, length (getHashtagEvents t (deliverAll history ∅)) <= 100).
Proof.
  intros Hnd Hall Hlen.
  assert (Heq : getHashtagEvents topic (deliverAll events ∅) = take 100 (reverse events))
    by now apply deliverAll_recent.
  split; [exact Heq|]. split.
  - rewrite Heq, length_take, length_reverse. lia.
  - intros history t. unfold getHashtagEvents.
    apply (listOk_default (deliverAll history ∅)).
    apply deliverAll_ok, indexOk_empty.
Qed.

Lemma topic_cap_witness :
  getHashtagEvents "bitcoin" (deliverAll (Sample.burst 103) ∅)
    = take 100 (reverse (Sample.burst 103))
  /\ length (getHashtagEvents "bitcoin" (deliverAll (Sample.burst 103) ∅)) = 100
  /\ (forall history t, length (getHashtagEvents t (deliverAll history ∅)) <= 100).
Proof.
  apply (topic_cap (Sample.burst 103) "bitcoin").
  - apply (bool_decide_unpack _). vm_compute. exact I.
  - apply (bool_decide_unpack _). vm_compute. exact I.
  - vm_compute. lia.
Defined.

End TopicIndexFacts.

(** ** Stable sort *)

Module JsArrayFacts.
Import JsArray.

Section SortFacts.
Context {A : Type} (cmp : A -> A -> Z).

Lemma insert_perm x l : insert cmp x l ≡ₚ x :: l.
Proof.
  induction l as [|y l IH]; simpl; [reflexivity|].
  destruct (0 <? cmp x y)%Z; [|reflexivity].
  rewrite IH. apply Permutation_swap.
Qed.

Lemma sort_perm l : sort cmp l ≡ₚ l.
Proof.
  induction l as [|x l IH]; simpl; [reflexivity|].
  rewrite insert_perm. now rewrite IH.
Qed.

Lemma elem_of_sort x l : x ∈ sort cmp l <-> x ∈ l.
Proof. now rewrite sort_perm. Qed.

(** A comparator that subtracts keys sorts descending by key. *)
Context (key : A -> Z) (Hcmp : forall a b, cmp a b = (key b - key a)%Z).

Lemma insert_sorted x l :
  StronglySorted (desc key) l -> StronglySorted (desc key) (insert cmp x l).
Proof.
  induction l as [|y l IH]; simpl; intros Hs.
  - constructor; [constructor | constructor].
  - apply StronglySorted_inv in Hs as [Hs Hall].
    destruct (0 <? cmp x y)%Z eqn:E.
    + apply Z.ltb_lt in E. rewrite Hcmp in E.
      constructor; [now apply IH|].
      rewrite insert_perm. constructor; [unfold desc; lia | exact Hall].
    + apply Z.ltb_ge in E. rewrite Hcmp in E.
      constructor; [now constructor|].
      constructor; [unfold desc; lia|].
      eapply Forall_impl; [exact Hall|]. unfold desc. intros z Hz. simpl in Hz. lia.
Qed.

Lemma sort_sorted l : StronglySorted (desc key) (sort cmp l).
Proof.
  induction l as [|x l IH]; simpl; [constructor | now apply insert_sorted].
Qed.

(** Where the sort places an element. *)








End SortFacts.



Lemma StronglySorted_impl {A} (R R' : A -> A -> Prop) l :
  (forall a b, R a b -> R' a b) -> StronglySorted R l -> StronglySorted R' l.
Proof.
  intros Himp. induction 1 as [|x l Hs IH Hall]; constructor; [exact IH|].
  eapply Forall_impl; [exact Hall | apply Himp].
Qed.

Lemma existsb_eqb_elem x (l : list string) : existsb (String.eqb x) l = true <-> x ∈ l.
Proof.
  rewrite existsb_exists. split.
  - intros [y [Hy E]]. apply String.eqb_eq in E. subst. now apply list_elem_of_In.
  - intros H. exists x. split; [now apply list_elem_of_In | apply String.eqb_refl].
Qed.

End JsArrayFacts.

(** ** The topic index: relay distribution *)

Module DistributionFacts.
Import JsString JsStringFacts JsMapFacts JsArrayFacts TopicIndex.

Implicit Types (d : gmap string (list (string * nat))) (h r : string)
  (log : list string).

Lemma get_bump r r' (dist : list (string * nat)) :
  JsMap.get r' (bump r dist) =
    if String.eqb r r' then Some (default 0 (JsMap.get r dist) + 1) else JsMap.get r' dist.
Proof. unfold bump. apply get_set. Qed.

Lemma get_tallyFrom r log (dist : list (string * nat)) :
  JsMap.get r (tallyFrom dist log) =
    match countIn r log with
    | 0 => JsMap.get r dist
    | n => Some (default 0 (JsMap.get r dist) + n)
    end.
Proof.
  revert dist. induction log as [|x log IH]; intros dist; [reflexivity|].
  unfold tallyFrom, countIn in *. simpl. rewrite IH, get_bump.
  destruct (String.eqb_spec r x) as [<-|Hne]; simpl.
  - rewrite String.eqb_refl.
    destruct (length (List.filter (String.eqb r) log)); simpl; f_equal; lia.
  - destruct (String.eqb_spec x r) as [->|_]; [contradiction | reflexivity].
Qed.

Lemma wf_tallyFrom log (dist : list (string * nat)) :
  JsMap.wf dist -> JsMap.wf (tallyFrom dist log).
Proof.
  revert dist. induction log as [|x log IH]; intros dist Hwf; [exact Hwf|].
  apply IH. unfold bump. now apply wf_set.
Qed.

Lemma existsb_keys {V} k (m : list (string * V)) :
  existsb (String.eqb k) (JsMap.keys m) =
    match JsMap.get k m with Some _ => true | None => false end.
Proof.
  induction m as [|[k' v] m IH]; simpl; [reflexivity|].
  rewrite (String.eqb_sym k k'). destruct (String.eqb k' k); [reflexivity | exact IH].
Qed.

Lemma keys_tallyFrom log (dist : list (string * nat)) :
  JsMap.keys (tallyFrom dist log) = foldl JsArray.dedupeStep (JsMap.keys dist) log.
Proof.
  revert dist. induction log as [|x log IH]; intros dist; [reflexivity|].
  unfold tallyFrom in *. simpl. rewrite IH. f_equal.
  unfold bump, JsArray.dedupeStep. rewrite keys_set, existsb_keys.
  now destruct (JsMap.get x dist).
Qed.

Lemma distOne_lookup r d h h' :
  distOne r d h !! h' =
    if decide (h = h') then Some (bump r (default [] (d !! h))) else d !! h'.
Proof. unfold distOne. apply lookup_insert. Qed.

Lemma foldl_distOne_lookup r hs d h :
  default [] (foldl (distOne r) d hs !! h) =
    tallyFrom (default [] (d !! h)) (replicate (countIn h hs) r).
Proof.
  revert d. induction hs as [|h' hs IH]; intros d; [reflexivity|].
  simpl. rewrite IH, distOne_lookup. unfold countIn. simpl.
  rewrite (String.eqb_sym h h'). case_decide as Hd.
  - subst h'. now rewrite String.eqb_refl.
  - apply String.eqb_neq in Hd. now rewrite Hd.
Qed.

Lemma tallyFrom_app (dist : list (string * nat)) log1 log2 :
  tallyFrom dist (log1 ++ log2) = tallyFrom (tallyFrom dist log1) log2.
Proof. unfold tallyFrom. apply foldl_app. Qed.

Lemma recordAll_lookup calls d h :
  default [] (recordAll calls d !! h) =
    tallyFrom (default [] (d !! h)) (deliveryLog h calls).
Proof.
  revert d. induction calls as [|[e r] calls IH]; intros d; [reflexivity|].
  unfold recordAll, deliveryLog in *. simpl. rewrite IH.
  unfold trackHashtagRelayDistribution. rewrite foldl_distOne_lookup.
  now rewrite tallyFrom_app.
Qed.

Lemma getHashtagRelayDistribution_default topic d :
  getHashtagRelayDistribution topic d =
    (fun rc => {| relay := fst rc; count := snd rc |})
      <$> default [] (d !! toLowerCase topic).
Proof.
  unfold getHashtagRelayDistribution. now destruct (d !! toLowerCase topic).
Qed.

Lemma countIn_replicate r n x :
  countIn r (replicate n x) = if String.eqb r x then n else 0.
Proof.
  unfold countIn. induction n as [|n IH]; simpl.
  - now destruct (String.eqb r x).
  - destruct (String.eqb r x) eqn:E; simpl; rewrite IH, ?E; reflexivity.
Qed.

Lemma countIn_app r log1 log2 : countIn r (log1 ++ log2) = countIn r log1 + countIn r log2.
Proof. unfold countIn. now rewrite List.filter_app, length_app. Qed.

Lemma deliveries_cons h r e r' calls :
  deliveries h r ((e, r') :: calls) =
    (if String.eqb r r' then tagCount h e else 0) + deliveries h r calls.
Proof.
  unfold deliveries, deliveryLog. simpl.
  fold (countIn r (replicate (tagCount h e) r'
                   ++ flat_map (fun c => replicate (tagCount h c.1) c.2) calls)).
  now rewrite countIn_app, countIn_replicate.
Qed.

(** When no event repeats the topic tag, the occurrences delivered by a
    relay are the calls with that relay. *)
Lemma deliveries_callsWith h r calls :
  Forall (fun c => tagCount h (fst c) <= 1) calls ->
  deliveries h r calls = callsWith h r calls.
Proof.
  induction calls as [|[e r'] calls IH]; intros Hall; [reflexivity|].
  apply Forall_cons in Hall as [He Hall]. simpl in He.
  rewrite deliveries_cons, IH by exact Hall.
  unfold callsWith. simpl.
  destruct (String.eqb r r'); simpl; [|reflexivity].
  destruct (tagCount h e) as [|[|n]]; simpl; [reflexivity | reflexivity | lia].
Qed.

Lemma run_snoc calls c : run (calls ++ [c]) = deliver (run calls) c.
Proof. unfold run. apply foldl_snoc. Qed.

(** The distribution counts every delivery; the message list sees the
    same events and keeps one entry per id. *)
Lemma run_maps calls :
  hashtagRelayDistribution (run calls) = recordAll calls ∅
  /\ hashtagEvents (run calls) = deliverAll (fst <$> calls) ∅.
Proof.
  induction calls as [|c calls [IHd IHe]] using rev_ind; [now split|].
  rewrite run_snoc. split.
  - change (hashtagRelayDistribution (deliver (run calls) c))
      with (trackHashtagRelayDistribution (fst c) (snd c)
              (hashtagRelayDistribution (run calls))).
    rewrite IHd. unfold recordAll. now rewrite foldl_snoc.
  - change (hashtagEvents (deliver (run calls) c))
      with (trackHashtagEvents (fst c) (hashtagEvents (run calls))).
    rewrite IHe, fmap_app. change (fst <$> [c]) with [fst c].
    unfold deliverAll. now rewrite foldl_snoc.
Qed.

(** C4, as the code has it: [getHashtagRelayDistribution] returns one
    pair per relay that delivered the topic, in the order of first
    delivery (no sort); the count of a relay is the number of topic-tag
    occurrences in the events of the [trackHashtagRelayDistribution]
    calls with that relay, whatever the message list keeps, and this is
    the number of those calls when no event repeats the topic tag; the
    hashtag view sorts the pairs descending by count. *)
Theorem distribution_counts (calls : list (NostrEvent * string)) (topic : string) :
  let h := toLowerCase topic in
  let d := hashtagRelayDistribution (run calls) in
  let out := getHashtagRelayDistribution topic d in
  relay <$> out = JsArray.dedupe (deliveryLog h calls)
  /\ (forall rc, rc ∈ out -> count rc = deliveries h (relay rc) calls)
  /\ (Forall (fun c => tagCount h (fst c) <= 1) calls ->
      forall rc, rc ∈ out -> count rc = callsWith h (relay rc) calls)
  /\ insightsRelayDistribution topic d ≡ₚ out
  /\ StronglySorted countDesc (insightsRelayDistribution topic d).
Proof.
  intros h d out. subst out d.
  destruct (run_maps calls) as [-> _].
  set (out := getHashtagRelayDistribution topic (recordAll calls ∅)).
  assert (Hout : out = (fun rc => {| relay := fst rc; count := snd rc |})
                         <$> tallyFrom [] (deliveryLog h calls)).
  { unfold out. rewrite getHashtagRelayDistribution_default, recordAll_lookup.
    now rewrite lookup_empty. }
  assert (Hcount : forall rc, rc ∈ out -> count rc = deliveries h (relay rc) calls).
  { intros rc Hrc. rewrite Hout in Hrc.
    apply list_elem_of_fmap in Hrc as [[r c] [-> Hin]]. simpl.
    apply elem_get in Hin; [|apply wf_tallyFrom; constructor].
    rewrite get_tallyFrom in Hin. unfold deliveries. fold (countIn r (deliveryLog h calls)).
    destruct (countIn r (deliveryLog h calls)); [discriminate|].
    simpl in Hin. now injection Hin as <-. }
  split; [|split; [exact Hcount|split; [|split]]].
  - rewrite Hout, <- list_fmap_compose.
    change (JsMap.keys (tallyFrom [] (deliveryLog h calls))
            = JsArray.dedupe (deliveryLog h calls)).
    apply keys_tallyFrom.
  - intros Hall rc Hrc. rewrite <- deliveries_callsWith by exact Hall. now apply Hcount.
  - apply sort_perm.
  - unfold insightsRelayDistribution.
    eapply StronglySorted_impl;
      [|apply (sort_sorted byCount (fun rc => Z.of_nat (count rc))); reflexivity].
    unfold JsArray.desc, countDesc. intros a b. lia.
Qed.

Lemma distribution_counts_witness :
  let calls := [(Sample.note "e1" [["t"; "bitcoin"]], "wss://a.example");
                (Sample.note "e1" [["t"; "bitcoin"]], "wss://b.example");
                (Sample.note "e2" [["t"; "Bitcoin"]; ["t"; "nostr"]], "wss://b.example")] in
  let rc := {| relay := "wss://b.example"; count := 2 |} in
  count rc = callsWith "bitcoin" (relay rc) calls.
Proof.
  intros calls rc.
  apply (distribution_counts calls "bitcoin").
  - apply (bool_decide_unpack _). vm_compute. exact I.
  - vm_compute. right. left.
Defined.

(** C4 fails as stated: the pairs come in the order of first delivery,
    here with counts 1 and 2. *)
Lemma distribution_not_sorted :
  let out :=
    getHashtagRelayDistribution "bitcoin"
      (hashtagRelayDistribution
         (run [(Sample.note "e1" [["t"; "bitcoin"]], "wss://a.example");
               (Sample.note "e1" [["t"; "bitcoin"]], "wss://b.example");
               (Sample.note "e2" [["t"; "bitcoin"]], "wss://b.example")])) in
  out = [ {| relay := "wss://a.example"; count := 1 |};
          {| relay := "wss://b.example"; count := 2 |} ]
  /\ ~ StronglySorted countDesc out.
Proof.
  assert (Hout :
    getHashtagRelayDistribution "bitcoin"
      (hashtagRelayDistribution
         (run [(Sample.note "e1" [["t"; "bitcoin"]], "wss://a.example");
               (Sample.note "e1" [["t"; "bitcoin"]], "wss://b.example");
               (Sample.note "e2" [["t"; "bitcoin"]], "wss://b.example")]))
    = [ {| relay := "wss://a.example"; count := 1 |};
        {| relay := "wss://b.example"; count := 2 |} ])
    by (vm_compute; reflexivity).
  cbv zeta. rewrite Hout. split; [reflexivity|].
  intros Hs. apply StronglySorted_inv in Hs as [_ Hall].
  apply Forall_inv in Hall. unfold countDesc in Hall. simpl in Hall. lia.
Qed.

End DistributionFacts.

(** ** The hint extractor *)

Module RegexFacts.
Import JsString JsStringFacts Regex.

Lemma allChars_app p a b : allChars p (a +:+ b) = allChars p a && allChars p b.
Proof.
  induction a as [|c a IH]; [reflexivity|].
  rewrite str_app_cons. simpl. rewrite IH. now destruct (p c).
Qed.

Lemma allChars_takeWhile p s : allChars p (takeWhile p s) = true.
Proof.
  induction s as [|c s IH]; simpl; [reflexivity|].
  destruct (p c) eqn:E; simpl; [now rewrite E | reflexivity].
Qed.

Lemma takeWhile_app p s : s = takeWhile p s +:+ after (takeWhile p s) s.
Proof.
  unfold after. induction s as [|c s IH]; simpl; [reflexivity|].
  destruct (p c); simpl; [|reflexivity].
  rewrite str_app_cons. now rewrite <- IH.
Qed.

Lemma stripPrefix_Some p s r : stripPrefix p s = Some r -> s = p +:+ r.
Proof.
  revert s. induction p as [|a p IH]; intros s; simpl.
  - destruct s; intros [= <-]; reflexivity.
  - destruct s as [|b s]; [discriminate|].
    destruct (Ascii.eqb a b) eqn:E; [|discriminate].
    apply Ascii.eqb_eq in E. subst b. intros H. rewrite str_app_cons.
    now rewrite (IH s H).
Qed.

Lemma stripPrefix_app p r : stripPrefix p (p +:+ r) = Some r.
Proof.
  induction p as [|a p IH].
  - now destruct r.
  - rewrite str_app_cons. simpl. now rewrite Ascii.eqb_refl.
Qed.

(** A match of the entity pattern consists of lower-case letters and
    digits only. *)
Lemma matchNip19With_chars lit s m :
  allChars isLowerAlnum lit = true ->
  matchNip19With lit s = Some m -> allChars isLowerAlnum m = true.
Proof.
  intros Hlit. unfold matchNip19With.
  destruct (stripPrefix lit s) as [rest|]; [|discriminate].
  pose proof (allChars_takeWhile isLowerAlnum rest) as Hbody.
  destruct (takeWhile isLowerAlnum rest) as [|c body]; [discriminate|].
  intros [= <-]. now rewrite allChars_app, Hlit, Hbody.
Qed.

Lemma matchNip19At_chars s m :
  matchNip19At s = Some m -> allChars isLowerAlnum m = true.
Proof.
  unfold matchNip19At.
  destruct (matchNip19With "nprofile1" s) as [m1|] eqn:E1.
  { intros [= <-]. now apply (matchNip19With_chars "nprofile1" s). }
  destruct (matchNip19With "nevent1" s) as [m2|] eqn:E2.
  { intros [= <-]. now apply (matchNip19With_chars "nevent1" s). }
  now apply (matchNip19With_chars "naddr1").
Qed.

Lemma matchAllFrom_elem matchAt skip s m :
  m ∈ matchAllFrom matchAt skip s -> exists s', matchAt s' = Some m.
Proof.
  revert skip. induction s as [|c s IH]; intros skip; simpl.
  - intros H. now apply elem_of_nil in H.
  - destruct skip as [|k]; [|apply IH].
    destruct (matchAt (String c s)) as [m'|] eqn:E; [|apply IH].
    intros H. apply elem_of_cons in H as [-> | H]; [now exists (String c s) | now apply IH in H].
Qed.

(** The URL pattern needs a colon: it matches nowhere in a string of
    lower-case letters and digits. *)
Lemma matchUrlAt_none s : allChars isLowerAlnum s = true -> matchUrlAt s = None.
Proof.
  intros Hs. unfold matchUrlAt.
  destruct (stripPrefix "ws" s) as [r0|] eqn:E0; [|reflexivity].
  apply stripPrefix_Some in E0. subst s.
  rewrite allChars_app in Hs. apply andb_true_iff in Hs as [_ Hr0].
  assert (Hcolon : forall r, allChars isLowerAlnum r = true -> stripPrefix "://" r = None).
  { intros r Hr. destruct (stripPrefix "://" r) as [r2|] eqn:E; [|reflexivity].
    apply stripPrefix_Some in E. subst r. rewrite allChars_app in Hr.
    discriminate. }
  destruct (stripPrefix "s" r0) as [r|] eqn:E1.
  - apply stripPrefix_Some in E1. subst r0.
    rewrite allChars_app in Hr0. apply andb_true_iff in Hr0 as [_ Hr].
    now rewrite Hcolon.
  - now rewrite Hcolon.
Qed.

Lemma matchAllFrom_url_nil skip s :
  allChars isLowerAlnum s = true -> matchAllFrom matchUrlAt skip s = [].
Proof.
  revert skip. induction s as [|c s IH]; intros skip Hs; [reflexivity|].
  assert (Hs' : allChars isLowerAlnum s = true).
  { simpl in Hs. now apply andb_true_iff in Hs as [_ Hs]. }
  simpl. destruct skip as [|k]; [|now apply IH].
  rewrite matchUrlAt_none by exact Hs. now apply IH.
Qed.

End RegexFacts.

Module HintFacts.
Import JsString Helpers Regex RegexFacts Discovery.

Section WithPlatform.
Context {P : Platform}.

Lemma parseNip19RelayHints_entity entity :
  allChars isLowerAlnum entity = true -> parseNip19RelayHints entity = [].
Proof.
  intros H. unfold parseNip19RelayHints, matchAll.
  rewrite matchAllFrom_url_nil by exact H.
  now destruct (negb (startsWith entity "n")).
Qed.

(** No content yields a hint: an entity matched by the first pattern
    has no colon, and the URL pattern needs one. *)
Lemma extractNip19RelayHints_nil content : extractNip19RelayHints content = [].
Proof.
  unfold extractNip19RelayHints, matchAll.
  assert (H : flat_map parseNip19RelayHints (matchAllFrom matchNip19At 0 content) = []).
  { assert (Hall : forall m, m ∈ matchAllFrom matchNip19At 0 content ->
                              parseNip19RelayHints m = []).
    { intros m Hm. apply matchAllFrom_elem in Hm as [s' Hs'].
      apply parseNip19RelayHints_entity. now apply matchNip19At_chars in Hs'. }
    induction (matchAllFrom matchNip19At 0 content) as [|m l IH]; [reflexivity|].
    simpl. rewrite Hall by left. simpl. apply IH.
    intros m' Hm'. apply Hall. now right. }
  now rewrite H.
Qed.

Lemma withTable_id d : withTable d (relayRecommendations d) = d.
Proof. now destruct d. Qed.

(** [processNip19Hints] returns nothing and changes nothing. *)
Lemma processNip19Hints_noop event d : processNip19Hints event d = ([], d).
Proof.
  unfold processNip19Hints. destruct (negb (nip19Enabled (config d))); [reflexivity|].
  rewrite extractNip19RelayHints_nil. simpl. now rewrite withTable_id.
Qed.
End WithPlatform.
End HintFacts.

(** ** Relay discovery: endorsements *)

Module EndorseFacts.
Import JsString Helpers JsMapFacts Discovery HintFacts.

Section WithPlatform.
Context {P : Platform}.

Implicit Types (t : list (string * RelayData)) (x y : Endorsement)
  (cfg : StandardRelayDiscoveryConfig) (data : RelayData) (u : string)
  (d : StandardRelayDiscovery) (c : Call).

Lemma foldl_cons {A B} (f : A -> B -> A) a b bs :
  foldl f a (b :: bs) = foldl f (f a b) bs.
Proof. reflexivity. Qed.

Lemma applyEndorsement_eq cfg t nr x :
  applyEndorsement cfg (t, nr) x =
    (tableAfter x t,
     if meetsThreshold cfg (updated x (default freshData (JsMap.get (e_url x) t)))
     then nr ++ [e_url x] else nr).
Proof.
  unfold applyEndorsement, endorse, tableAfter, updated, meetsThreshold.
  now destruct (_ <=? _)%Z.
Qed.

Lemma foldl_applyEndorsement_fst cfg xs t nr :
  fst (foldl (applyEndorsement cfg) (t, nr) xs) = tableAll xs t.
Proof.
  revert t nr. induction xs as [|x xs IH]; intros t nr; [reflexivity|].
  rewrite foldl_cons, applyEndorsement_eq. apply IH.
Qed.

Lemma get_tableAfter x t u :
  JsMap.get u (tableAfter x t) =
    if String.eqb (e_url x) u
    then Some (updated x (default freshData (JsMap.get (e_url x) t)))
    else JsMap.get u t.
Proof. unfold tableAfter. apply get_set. Qed.

Lemma wf_tableAfter x t : JsMap.wf t -> JsMap.wf (tableAfter x t).
Proof. apply wf_set. Qed.

Lemma wf_tableAll xs t : JsMap.wf t -> JsMap.wf (tableAll xs t).
Proof.
  revert t. induction xs as [|x xs IH]; intros t Hwf; [exact Hwf|].
  now apply IH, wf_tableAfter.
Qed.

(** *** The three loops as sequences of endorsements *)

Lemma foldl_nip65Step cfg entries acc :
  foldl (nip65Step cfg) acc entries =
    foldl (applyEndorsement cfg) acc
      ((fun entry =>
          {| e_url := RelayListEntry.url entry;
             e_author := RelayListEntry.pubkey entry;
             e_read := RelayListEntry.read entry;
             e_write := RelayListEntry.write entry;
             e_time := RelayListEntry.timestamp entry;
             e_source := nip65 |})
       <$> List.filter (fun entry => negb (isBlacklisted cfg (RelayListEntry.url entry)))
                       entries).
Proof.
  revert acc. induction entries as [|entry entries IH]; intros acc; [reflexivity|].
  rewrite foldl_cons, IH. cbn [List.filter]. unfold nip65Step.
  now destruct (isBlacklisted cfg (RelayListEntry.url entry)).
Qed.

Lemma foldl_contactStep cfg event urls acc :
  foldl (contactStep cfg event) acc urls =
    foldl (applyEndorsement cfg) acc
      ((fun relayUrl =>
          {| e_url := normalizeRelayUrl relayUrl; e_author := pubkey event;
             e_read := true; e_write := false; e_time := created_at event;
             e_source := contacts |})
       <$> List.filter
             (fun relayUrl => isValidRelayUrl relayUrl && negb (isBlacklisted cfg relayUrl))
             urls).
Proof.
  revert acc. induction urls as [|relayUrl urls IH]; intros acc; [reflexivity|].
  rewrite foldl_cons, IH. cbn [List.filter]. unfold contactStep.
  now destruct (isValidRelayUrl relayUrl && negb (isBlacklisted cfg relayUrl)).
Qed.

Lemma endorsementsNip19_nil cfg event : endorsementsNip19 cfg event = [].
Proof. unfold endorsementsNip19. now rewrite extractNip19RelayHints_nil. Qed.

(** What a call returns and the map it leaves, by its endorsements. *)
Lemma process_fold c d :
  fst (process c d)
    = snd (foldl (applyEndorsement (config d)) (relayRecommendations d, [])
                 (endorsements (config d) c))
  /\ relayRecommendations (snd (process c d))
    = tableAll (endorsements (config d) c) (relayRecommendations d)
  /\ config (snd (process c d)) = config d.
Proof.
  rewrite <- (foldl_applyEndorsement_fst (config d) _ _ []).
  destruct c as [e|e|e]; simpl.
  - unfold processNip65Event.
    destruct (negb (nip65Enabled (config d)) || negb (kind e =? 10002)%Z);
      [now split|].
    unfold endorsementsNip65. rewrite <- foldl_nip65Step.
    now destruct (foldl _ _ _).
  - rewrite processNip19Hints_noop, endorsementsNip19_nil.
    now destruct (negb (nip19Enabled (config d))).
  - unfold processContactEvent.
    destruct (negb (followContactRelays (config d)) || negb (kind e =? 3)%Z);
      [now split|].
    unfold endorsementsContact. rewrite <- foldl_contactStep.
    now destruct (foldl (contactStep _ _) _ _).
Qed.

Lemma config_processAll calls d : config (processAll calls d) = config d.
Proof.
  revert d. induction calls as [|c calls IH]; intros d; [reflexivity|].
  simpl. rewrite IH. apply process_fold.
Qed.

Lemma wf_process c d :
  JsMap.wf (relayRecommendations d) -> JsMap.wf (relayRecommendations (snd (process c d))).
Proof.
  intros Hwf. destruct (process_fold c d) as (_ & -> & _). now apply wf_tableAll.
Qed.

Lemma wf_processAll calls d :
  JsMap.wf (relayRecommendations d) -> JsMap.wf (relayRecommendations (processAll calls d)).
Proof.
  revert d. induction calls as [|c calls IH]; intros d Hwf; [exact Hwf|].
  simpl. now apply IH, wf_process.
Qed.

(** *** Counts only grow *)

Lemma totalRecsOf_updated x data : totalRecsOf data <= totalRecsOf (updated x data).
Proof.
  unfold totalRecsOf, updated, endorsed. simpl.
  assert (Hr : size (readRecommendations data)
               <= size (if e_read x then {[e_author x]} ∪ readRecommendations data
                        else readRecommendations data)).
  { destruct (e_read x); [apply subseteq_size, union_subseteq_r | lia]. }
  assert (Hw : size (writeRecommendations data)
               <= size (if e_write x then {[e_author x]} ∪ writeRecommendations data
                        else writeRecommendations data)).
  { destruct (e_write x); [apply subseteq_size, union_subseteq_r | lia]. }
  lia.
Qed.

Lemma meetsThreshold_updated cfg x data :
  meetsThreshold cfg data = true -> meetsThreshold cfg (updated x data) = true.
Proof.
  unfold meetsThreshold. rewrite !Z.leb_le.
  pose proof (totalRecsOf_updated x data). lia.
Qed.

Lemma meetsAt_tableAfter cfg x t u : meetsAt cfg u t -> meetsAt cfg u (tableAfter x t).
Proof.
  intros [data [Hget Hm]]. unfold meetsAt. rewrite get_tableAfter.
  destruct (String.eqb_spec (e_url x) u) as [->|Hne].
  - eexists. split; [reflexivity|]. rewrite Hget. simpl.
    now apply meetsThreshold_updated.
  - now exists data.
Qed.

Lemma meetsAt_tableAll cfg xs t u : meetsAt cfg u t -> meetsAt cfg u (tableAll xs t).
Proof.
  revert t. induction xs as [|x xs IH]; intros t Hm; [exact Hm|].
  now apply IH, meetsAt_tableAfter.
Qed.

(** *** What the loops push *)

Lemma pushed_iff cfg xs t u :
  u ∈ snd (foldl (applyEndorsement cfg) (t, []) xs)
  <-> u ∈ e_url <$> xs /\ meetsAt cfg u (tableAll xs t).
Proof.
  rewrite <- (foldl_applyEndorsement_fst cfg xs t []).
  induction xs as [|x xs IH] using rev_ind.
  - simpl. split; [intros H | intros [H _]]; now apply elem_of_nil in H.
  - rewrite foldl_snoc, fmap_app, elem_of_app.
    destruct (foldl (applyEndorsement cfg) (t, []) xs) as [tb nb] eqn:E.
    simpl in IH. rewrite applyEndorsement_eq. simpl.
    set (data' := updated x (default freshData (JsMap.get (e_url x) tb))).
    assert (Hat : meetsAt cfg (e_url x) (tableAfter x tb)
                  <-> meetsThreshold cfg data' = true).
    { unfold meetsAt. rewrite get_tableAfter, String.eqb_refl. split.
      - now intros [data [[= <-] Hm]].
      - intros Hm. now exists data'. }
    destruct (String.eqb_spec (e_url x) u) as [Hu|Hne].
    + subst u. rewrite Hat. split.
      * intros Hin. split; [right; simpl; left|].
        destruct (meetsThreshold cfg data') eqn:Em; [reflexivity|].
        apply IH in Hin as [_ Hm]. apply (meetsAt_tableAfter cfg x) in Hm.
        apply Hat in Hm. congruence.
      * intros [_ Hm]. rewrite Hm. apply elem_of_app. right. left.
    + assert (Hsame : meetsAt cfg u (tableAfter x tb) <-> meetsAt cfg u tb).
      { unfold meetsAt. rewrite get_tableAfter.
        destruct (String.eqb_spec (e_url x) u); [contradiction | reflexivity]. }
      rewrite Hsame. split.
      * intros Hin.
        assert (Hnb : u ∈ nb).
        { destruct (meetsThreshold cfg data'); [|exact Hin].
          apply elem_of_app in Hin as [Hin | Hin]; [exact Hin|].
          apply list_elem_of_singleton in Hin. congruence. }
        apply IH in Hnb as [Hu Hm]. split; [now left | exact Hm].
      * intros [[Hu | Hu] Hm].
        -- assert (Hnb : u ∈ nb) by (apply IH; now split).
           destruct (meetsThreshold cfg data'); [|exact Hnb].
           apply elem_of_app. now left.
        -- simpl in Hu. apply list_elem_of_singleton in Hu. congruence.
Qed.

(** *** Redelivery *)

Lemma includes_refl (src : Source) l : includes src (l ++ [src]) = true.
Proof.
  unfold includes. rewrite existsb_app. simpl.
  replace (Source_eqb src src) with true by now destruct src.
  now rewrite orb_true_r.
Qed.

Lemma includes_app (src : Source) l l' :
  includes src l = true -> includes src (l ++ l') = true.
Proof. unfold includes. rewrite existsb_app. now intros ->. Qed.

Lemma absorbs_updated_id x data : absorbs x data -> updated x data = data.
Proof.
  destruct data as [rd wr ls so]. unfold absorbs, updated, endorsed. simpl.
  intros (Hr & Hw & Ht & Hs). f_equal.
  - destruct (e_read x); [|reflexivity].
    now apply subseteq_union_1_L, singleton_subseteq_l, Hr.
  - destruct (e_write x); [|reflexivity].
    now apply subseteq_union_1_L, singleton_subseteq_l, Hw.
  - lia.
  - now rewrite Hs.
Qed.

Lemma absorbs_after x data : absorbs x (updated x data).
Proof.
  unfold absorbs, updated, endorsed. simpl. repeat split.
  - intros ->. apply elem_of_union_l, elem_of_singleton_2. reflexivity.
  - intros ->. apply elem_of_union_l, elem_of_singleton_2. reflexivity.
  - lia.
  - destruct (includes (e_source x) (sources data)) eqn:E; [exact E|].
    apply includes_refl.
Qed.

Lemma absorbs_mono x y data : absorbs x data -> absorbs x (updated y data).
Proof.
  unfold absorbs, updated, endorsed. simpl. intros (Hr & Hw & Ht & Hs).
  repeat split.
  - intros Hx. apply Hr in Hx. destruct (e_read y); [now apply elem_of_union_r | exact Hx].
  - intros Hx. apply Hw in Hx. destruct (e_write y); [now apply elem_of_union_r | exact Hx].
  - lia.
  - destruct (includes (e_source y) (sources data)); [exact Hs|].
    now apply includes_app.
Qed.

Lemma absorbedIn_after x t : absorbedIn x (tableAfter x t).
Proof.
  unfold absorbedIn. rewrite get_tableAfter, String.eqb_refl.
  eexists. split; [reflexivity | apply absorbs_after].
Qed.

Lemma absorbedIn_mono x y t : absorbedIn x t -> absorbedIn x (tableAfter y t).
Proof.
  intros [data [Hget Ha]]. unfold absorbedIn. rewrite get_tableAfter.
  destruct (String.eqb_spec (e_url y) (e_url x)) as [Heq|Hne].
  - eexists. split; [reflexivity|]. rewrite Heq, Hget. simpl.
    now apply absorbs_mono.
  - now exists data.
Qed.

Lemma tableAfter_id x t : absorbedIn x t -> tableAfter x t = t.
Proof.
  intros [data [Hget Ha]]. unfold tableAfter. rewrite Hget. simpl.
  rewrite absorbs_updated_id by exact Ha. now apply set_get_id.
Qed.

Lemma absorbedIn_tableAll x xs t : absorbedIn x t -> absorbedIn x (tableAll xs t).
Proof.
  revert t. induction xs as [|y xs IH]; intros t Ha; [exact Ha|].
  now apply IH, absorbedIn_mono.
Qed.

Lemma tableAll_absorbs xs t x : x ∈ xs -> absorbedIn x (tableAll xs t).
Proof.
  revert t. induction xs as [|y xs IH]; intros t Hin.
  - now apply elem_of_nil in Hin.
  - change (absorbedIn x (tableAll xs (tableAfter y t))).
    apply elem_of_cons in Hin as [-> | Hin].
    + apply absorbedIn_tableAll, absorbedIn_after.
    + now apply IH.
Qed.

Lemma tableAll_id xs t : (forall x, x ∈ xs -> absorbedIn x t) -> tableAll xs t = t.
Proof.
  induction xs as [|y xs IH]; intros Ha; [reflexivity|].
  unfold tableAll. rewrite foldl_cons. rewrite tableAfter_id by (apply Ha; left).
  apply IH. intros x Hx. apply Ha. now right.
Qed.

Lemma tableAll_twice xs t : tableAll xs (tableAll xs t) = tableAll xs t.
Proof. apply tableAll_id. intros x Hx. now apply tableAll_absorbs. Qed.

Lemma foldl_follow (ps : list string) (s : gset string) :
  foldl (fun s p => {[p]} ∪ s) s ps = list_to_set ps ∪ s.
Proof.
  revert s. induction ps as [|p ps IH]; intros s; simpl.
  - now rewrite (left_id_L ∅ (∪)).
  - rewrite IH. rewrite (assoc_L (∪)). f_equal. apply (comm_L (∪)).
Qed.

Lemma state_eq d d' :
  relayRecommendations d = relayRecommendations d' ->
  followedPubkeys d = followedPubkeys d' ->
  config d = config d' ->
  d = d'.
Proof. destruct d, d'. simpl. now intros -> -> ->. Qed.

Lemma followed_process c d :
  followedPubkeys (snd (process c d)) =
    match c with
    | Contact e =>
        if negb (followContactRelays (config d)) || negb (kind e =? 3)%Z
        then followedPubkeys d
        else list_to_set (omap followedOfTag (tags e)) ∪ followedPubkeys d
    | _ => followedPubkeys d
    end.
Proof.
  destruct c as [e|e|e]; simpl.
  - unfold processNip65Event.
    destruct (negb (nip65Enabled (config d)) || negb (kind e =? 10002)%Z);
      [reflexivity|].
    now destruct (foldl _ _ _).
  - now rewrite processNip19Hints_noop.
  - unfold processContactEvent.
    destruct (negb (followContactRelays (config d)) || negb (kind e =? 3)%Z);
      [reflexivity|].
    destruct (foldl (contactStep _ _) _ _). simpl. apply foldl_follow.
Qed.

Lemma process_twice c d : snd (process c (snd (process c d))) = snd (process c d).
Proof.
  destruct (process_fold c d) as (_ & Ht & Hc).
  destruct (process_fold c (snd (process c d))) as (_ & Ht' & Hc').
  apply state_eq.
  - rewrite Ht', Hc, Ht. apply tableAll_twice.
  - rewrite (followed_process c (snd (process c d))), Hc.
    rewrite (followed_process c d).
    destruct c as [e|e|e]; try reflexivity.
    destruct (negb (followContactRelays (config d)) || negb (kind e =? 3)%Z);
      [reflexivity|].
    rewrite (assoc_L (∪)). now rewrite (idemp_L (∪)).
  - now rewrite Hc'.
Qed.

End WithPlatform.
End EndorseFacts.

(** ** Relay discovery: the recommended view *)

Module RecommendFacts.
Import JsString Helpers JsMapFacts JsArrayFacts Discovery EndorseFacts.

Section WithPlatform.
Context {P : Platform}.

Implicit Types (t : list (string * RelayData))
  (cfg : StandardRelayDiscoveryConfig) (data : RelayData) (u : string)
  (d : StandardRelayDiscovery) (now : Z).

Lemma elem_of_slice0 {A} (n : Z) (l : list A) a : a ∈ JsArray.slice0 n l -> a ∈ l.
Proof.
  unfold JsArray.slice0. destruct (n <? 0)%Z; intros H;
    apply elem_of_take in H as [i [Hi _]]; now apply list_elem_of_lookup_2 in Hi.
Qed.

Lemma url_toRecommended cfg kv : Recommended.url (toRecommended cfg kv) = fst kv.
Proof. now destruct kv. Qed.

Lemma elem_of_kept cfg now t kv :
  kv ∈ List.filter
         (fun kv => negb (expired cfg now (snd kv)) && meetsThreshold cfg (snd kv)) t
  <-> kv ∈ t /\ expired cfg now (snd kv) = false /\ meetsThreshold cfg (snd kv) = true.
Proof.
  rewrite !list_elem_of_In, filter_In, andb_true_iff, negb_true_iff. tauto.
Qed.

(** Every returned element comes from an entry that is not expired and
    meets the threshold. *)
Lemma recommended_elem now d r :
  r ∈ fst (getRecommendedRelays now d) ->
  exists data,
    (Recommended.url r, data) ∈ relayRecommendations d
    /\ expired (config d) now data = false
    /\ meetsThreshold (config d) data = true
    /\ r = toRecommended (config d) (Recommended.url r, data).
Proof.
  unfold getRecommendedRelays. cbn [fst]. intros Hr.
  apply elem_of_slice0, elem_of_sort, list_elem_of_fmap in Hr as [[u data] [-> Hkv]].
  apply elem_of_kept in Hkv as (Hin & He & Hm). now exists data.
Qed.

Lemma get_evictExpired cfg now snapshot t u :
  JsMap.get u (evictExpired cfg now snapshot t) =
    if existsb (fun kv => String.eqb (fst kv) u && expired cfg now (snd kv)) snapshot
    then None else JsMap.get u t.
Proof.
  revert t. induction snapshot as [|[k data] snapshot IH]; intros t; [reflexivity|].
  unfold evictExpired in *. rewrite foldl_cons, IH. simpl.
  destruct (existsb _ snapshot); [now rewrite orb_true_r|]. rewrite orb_false_r.
  destruct (expired cfg now data); [|now rewrite andb_false_r].
  rewrite andb_true_r. apply get_delete.
Qed.

Lemma wf_evictExpired cfg now snapshot t :
  JsMap.wf t -> JsMap.wf (evictExpired cfg now snapshot t).
Proof.
  revert t. induction snapshot as [|[k data] snapshot IH]; intros t Hwf; [exact Hwf|].
  unfold evictExpired in *. rewrite foldl_cons. apply IH. simpl.
  destruct (expired cfg now data); [now apply wf_delete | exact Hwf].
Qed.

Lemma get_evict_expired_entry cfg now t u data :
  JsMap.get u t = Some data -> expired cfg now data = true ->
  JsMap.get u (evictExpired cfg now t t) = None.
Proof.
  intros Hget He. rewrite get_evictExpired.
  replace (existsb _ t) with true; [reflexivity|].
  symmetry. apply existsb_exists. exists (u, data). split.
  - now apply list_elem_of_In, get_Some_elem.
  - simpl. now rewrite String.eqb_refl, He.
Qed.

(** C9: an entry whose [lastSeen] lies more than [maxAgeHours] before
    [now] is absent from the result of [getRecommendedRelays], is
    deleted from the map by that call, and is deleted by [cleanup]. *)
Theorem ttl_eviction now d u data :
  JsMap.wf (relayRecommendations d) ->
  JsMap.get u (relayRecommendations d) = Some data ->
  (now - lastSeen data > maxAgeHours (config d) * 3600 * 1000)%Z ->
  (u ∉ Recommended.url <$> fst (getRecommendedRelays now d))
  /\ JsMap.get u (relayRecommendations (snd (getRecommendedRelays now d))) = None
  /\ JsMap.get u (relayRecommendations (cleanup now d)) = None.
Proof.
  intros Hwf Hget Hold.
  assert (He : expired (config d) now data = true).
  { unfold expired, maxAge. apply Z.ltb_lt. lia. }
  split; [|split].
  - intros Hin. apply list_elem_of_fmap in Hin as [r [-> Hr]].
    apply recommended_elem in Hr as (data' & Hin & He' & _).
    apply (elem_get _ _ _ Hwf) in Hin. congruence.
  - simpl. now apply (get_evict_expired_entry _ _ _ _ data).
  - simpl. now apply (get_evict_expired_entry _ _ _ _ data).
Qed.


(** *** The place of an entry in the result *)









(** *** The blacklist *)

Lemma matchesBlacklisted_spec host domain :
  matchesBlacklisted host domain = true <->
    host = domain
    \/ (exists p, host = p +:+ "." +:+ domain)
    \/ (exists s, host = domain +:+ s).
Proof.
  unfold matchesBlacklisted.
  rewrite !orb_true_iff, String.eqb_eq, JsStringFacts.endsWith_spec,
    JsStringFacts.startsWith_spec.
  tauto.
Qed.

(** C8: [isBlacklisted] holds exactly when the URL does not parse, or
    its host equals a blacklisted entry, ends with a dot followed by
    the entry, or starts with the entry; a URL that does not parse is
    blacklisted and every loop body skips it. *)
Theorem isBlacklisted_spec cfg relayUrl :
  (isBlacklisted cfg relayUrl = true <->
     parseURL relayUrl = None
     \/ exists url domain,
          parseURL relayUrl = Some url
          /\ domain ∈ blacklistedDomains cfg
          /\ (hostname url = domain
              \/ (exists p, hostname url = p +:+ "." +:+ domain)
              \/ (exists s, hostname url = domain +:+ s)))
  /\ (parseURL relayUrl = None ->
      isBlacklisted cfg relayUrl = true
      /\ (forall acc entry,
            RelayListEntry.url entry = relayUrl -> nip65Step cfg acc entry = acc)
      /\ (forall acc event, nip19Step cfg event acc relayUrl = acc)
      /\ (forall acc event, contactStep cfg event acc relayUrl = acc)).
Proof.
  split.
  - unfold isBlacklisted. destruct (parseURL relayUrl) as [url|]; [|tauto].
    rewrite existsb_exists. split.
    + intros [domain [Hin Hm]]. right. exists url, domain.
      split; [reflexivity|]. split; [now apply list_elem_of_In|].
      now apply matchesBlacklisted_spec.
    + intros [Hnone | (url' & domain & [= <-] & Hin & Hm)]; [discriminate|].
      exists domain. split; [now apply list_elem_of_In|].
      now apply matchesBlacklisted_spec.
  - intros Hnone.
    assert (Hb : isBlacklisted cfg relayUrl = true)
      by (unfold isBlacklisted; now rewrite Hnone).
    split; [exact Hb|]. split; [|split].
    + intros acc entry <-. unfold nip65Step. now rewrite Hb.
    + intros acc event. unfold nip19Step. now rewrite Hb.
    + intros acc event. unfold contactStep. rewrite Hb. now rewrite andb_false_r.
Qed.

Lemma keys_tableAfter x t u :
  u ∈ JsMap.keys (tableAfter x t) -> u ∈ JsMap.keys t \/ u = e_url x.
Proof.
  unfold tableAfter. rewrite keys_set.
  destruct (JsMap.get (e_url x) t); [now left|].
  rewrite elem_of_app, list_elem_of_singleton. tauto.
Qed.

Lemma cleanTable_tableAll cfg xs t :
  cleanTable cfg t ->
  (forall x, x ∈ xs -> isBlacklisted cfg (e_url x) = false) ->
  cleanTable cfg (tableAll xs t).
Proof.
  revert t. induction xs as [|x xs IH]; intros t Ht Hxs; [exact Ht|].
  change (cleanTable cfg (tableAll xs (tableAfter x t))). apply IH.
  - intros u Hu. apply keys_tableAfter in Hu as [Hu | ->]; [now apply Ht|].
    apply Hxs. left.
  - intros y Hy. apply Hxs. now right.
Qed.

Lemma isBlacklisted_normalize `{!PlatformLaws P} cfg relayUrl :
  isValidRelayUrl relayUrl = true ->
  isBlacklisted cfg (normalizeRelayUrl relayUrl) = isBlacklisted cfg relayUrl.
Proof.
  unfold isValidRelayUrl, normalizeRelayUrl, isBlacklisted.
  destruct (parseURL relayUrl) as [p|] eqn:E; [|discriminate].
  intros Hproto. apply orb_true_iff in Hproto. rewrite !String.eqb_eq in Hproto.
  destruct (normalize_hostname relayUrl p E Hproto) as (p' & -> & ->).
  reflexivity.
Qed.

Lemma endorsements_clean `{!PlatformLaws P} cfg c x :
  x ∈ endorsements cfg c -> isBlacklisted cfg (e_url x) = false.
Proof.
  destruct c as [e|e|e]; simpl.
  - destruct (negb (nip65Enabled cfg) || negb (kind e =? 10002)%Z);
      [intros H; now apply elem_of_nil in H|].
    unfold endorsementsNip65. intros H.
    apply list_elem_of_fmap in H as [entry [-> H]].
    apply list_elem_of_In, filter_In in H as [_ H]. simpl.
    now apply negb_true_iff in H.
  - rewrite endorsementsNip19_nil.
    destruct (negb (nip19Enabled cfg)); intros H; now apply elem_of_nil in H.
  - destruct (negb (followContactRelays cfg) || negb (kind e =? 3)%Z);
      [intros H; now apply elem_of_nil in H|].
    unfold endorsementsContact. intros H.
    apply list_elem_of_fmap in H as [relayUrl [-> H]].
    apply list_elem_of_In, filter_In in H as [_ H]. simpl.
    apply andb_true_iff in H as [Hv Hb]. apply negb_true_iff in Hb.
    now rewrite isBlacklisted_normalize.
Qed.

Lemma cleanTable_processAll `{!PlatformLaws P} calls d :
  cleanTable (config d) (relayRecommendations d) ->
  cleanTable (config d) (relayRecommendations (processAll calls d)).
Proof.
  revert d. induction calls as [|c calls IH]; intros d Hd; [exact Hd|].
  simpl. destruct (process_fold c d) as (_ & Ht & Hc).
  rewrite <- Hc. apply IH. rewrite Hc, Ht.
  apply cleanTable_tableAll; [exact Hd|]. intros x. apply endorsements_clean.
Qed.

(** C7: blacklist precedence.  Starting from a new instance, after any
    sequence of [processNip65Event], [processNip19Hints] and
    [processContactEvent] calls, a URL that [isBlacklisted] holds for
    is no key of the map and is not returned by
    [getRecommendedRelays]. *)
Theorem blacklist_precedence `{!PlatformLaws P} cfg calls now u :
  isBlacklisted cfg u = true ->
  let d := processAll calls (create cfg) in
  JsMap.get u (relayRecommendations d) = None
  /\ (u ∉ Recommended.url <$> fst (getRecommendedRelays now d)).
Proof.
  intros Hb d.
  assert (Hclean : cleanTable cfg (relayRecommendations d)).
  { apply (cleanTable_processAll calls (create cfg)).
    intros k Hk. now apply elem_of_nil in Hk. }
  assert (Hkey : u ∉ JsMap.keys (relayRecommendations d)).
  { intros Hk. apply Hclean in Hk. congruence. }
  split; [now apply get_None_keys|].
  intros Hin. apply list_elem_of_fmap in Hin as [r [-> Hr]].
  apply recommended_elem in Hr as (data & Hin & _).
  apply Hkey. unfold JsMap.keys. apply list_elem_of_fmap. now exists (Recommended.url r, data).
Qed.

(** C2, as the code has it: a call returns exactly the URLs that it
    endorses and whose combined count meets the threshold after the
    call; a URL that met the threshold before the call and is endorsed
    again is returned again. *)
Theorem returned_relays c d u :
  (u ∈ fst (process c d)
   <-> u ∈ e_url <$> endorsements (config d) c
       /\ meetsAt (config d) u (relayRecommendations (snd (process c d))))
  /\ (u ∈ e_url <$> endorsements (config d) c ->
      meetsAt (config d) u (relayRecommendations d) ->
      u ∈ fst (process c d)).
Proof.
  destruct (process_fold c d) as (Hout & Ht & _).
  assert (Hiff : u ∈ fst (process c d)
                 <-> u ∈ e_url <$> endorsements (config d) c
                     /\ meetsAt (config d) u (relayRecommendations (snd (process c d)))).
  { rewrite Hout, Ht. apply pushed_iff. }
  split; [exact Hiff|].
  intros Hu Hm. apply Hiff. split; [exact Hu|].
  rewrite Ht. now apply meetsAt_tableAll.
Qed.

(** C10: processing an event for the second time through the same
    operation leaves the instance as the first processing left it: no
    set gains a member, no [lastSeen] moves, no source is listed
    twice. *)
Theorem redelivery_idempotent c d :
  snd (process c (snd (process c d))) = snd (process c d).
Proof. apply process_twice. Qed.

End WithPlatform.
End RecommendFacts.

(** ** The reference platform satisfies the platform law *)

Module RefPlatformFacts.
Import JsString JsStringFacts Regex RegexFacts RefPlatform.

Lemma takeWhile_all p s : allChars p s = true -> takeWhile p s = s.
Proof.
  induction s as [|c s IH]; simpl; [reflexivity|].
  intros H. apply andb_true_iff in H as [Hc Hs]. now rewrite Hc, IH.
Qed.

Lemma takeWhile_stop p s c r :
  allChars p s = true -> p c = false -> takeWhile p (s +:+ String c r) = s.
Proof.
  intros Hs Hc. induction s as [|a s IH].
  - simpl. now rewrite Hc.
  - rewrite str_app_cons. simpl in *.
    apply andb_true_iff in Hs as [Ha Hs]. now rewrite Ha, IH.
Qed.

Lemma after_self s : after s s = "".
Proof. unfold after. induction s as [|c s IH]; [reflexivity | exact IH]. Qed.

Lemma after_app s r : after s (s +:+ r) = r.
Proof. unfold after. apply str_drop_app. Qed.

Lemma stripTrailingSlash_app a b :
  b <> "" -> stripTrailingSlash (a +:+ b) = a +:+ stripTrailingSlash b.
Proof.
  intros Hb. induction a as [|c a IH]; [reflexivity|].
  rewrite !str_app_cons. simpl. rewrite IH.
  destruct (a +:+ b) eqn:E; [|reflexivity].
  destruct a; [now rewrite str_app_nil_l in E | discriminate].
Qed.

Lemma allChars_stripTrailingSlash p s :
  allChars p s = true -> allChars p (stripTrailingSlash s) = true.
Proof.
  induction s as [|c s IH]; [reflexivity|].
  intros H. simpl in H. apply andb_true_iff in H as [Hc Hs].
  destruct s as [|c' s'].
  - simpl. destruct (Ascii.eqb c "/"); simpl; [reflexivity | now rewrite Hc].
  - change (allChars p (String c (stripTrailingSlash (String c' s'))) = true).
    simpl. rewrite Hc. now apply IH.
Qed.

(** What [refParseBody] accepts: a host and a path. *)
Lemma refParseBody_Some proto body p :
  refParseBody proto body = Some p ->
  exists host path,
    host <> ""
    /\ allChars isRefHostChar host = true
    /\ allChars isRefPathChar path = true
    /\ p = {| protocol := proto; hostname := host;
              href := proto +:+ "//" +:+ host +:+ String "/" path |}.
Proof.
  unfold refParseBody.
  pose proof (allChars_takeWhile isRefHostChar body) as Hhost.
  destruct (takeWhile isRefHostChar body) as [|h host] eqn:E; [discriminate|].
  destruct (after (String h host) body) as [|c rest].
  - intros [= <-]. exists (String h host), "". now repeat split.
  - destruct (Ascii.eqb c "/") eqn:Ec; [|discriminate].
    destruct (allChars isRefPathChar rest) eqn:Er; [|discriminate].
    apply Ascii.eqb_eq in Ec. subst c. simpl.
    intros [= <-]. exists (String h host), rest. now repeat split.
Qed.

Lemma refParseBody_host proto host :
  host <> "" -> allChars isRefHostChar host = true ->
  refParseBody proto host
  = Some {| protocol := proto; hostname := host;
            href := proto +:+ "//" +:+ host +:+ "/" |}.
Proof.
  intros Hne Hhost. unfold refParseBody.
  rewrite takeWhile_all by exact Hhost.
  destruct host as [|a s]; [contradiction|].
  cbv beta iota. now rewrite after_self.
Qed.

Lemma refParseBody_path proto host path :
  host <> "" -> allChars isRefHostChar host = true ->
  allChars isRefPathChar path = true ->
  refParseBody proto (host +:+ String "/" path)
  = Some {| protocol := proto; hostname := host;
            href := proto +:+ "//" +:+ host +:+ String "/" path |}.
Proof.
  intros Hne Hhost Hpath. unfold refParseBody.
  rewrite takeWhile_stop by (exact Hhost || reflexivity).
  destruct host as [|a s]; [contradiction|].
  cbv beta iota. rewrite after_app. cbv beta iota.
  rewrite Ascii.eqb_refl, Hpath. reflexivity.
Qed.

(** The serialization without its final slash. *)
Lemma strip_href proto host path :
  stripTrailingSlash (proto +:+ "//" +:+ host +:+ String "/" path)
  = (proto +:+ "//") +:+ host +:+
      match path with "" => "" | _ => String "/" (stripTrailingSlash path) end.
Proof.
  rewrite <- !str_app_assoc. rewrite stripTrailingSlash_app by discriminate.
  rewrite !str_app_assoc; repeat f_equal; now destruct path.
Qed.

Lemma refParseBody_tail proto host path :
  host <> "" -> allChars isRefHostChar host = true ->
  allChars isRefPathChar path = true ->
  exists p',
    refParseBody proto
      (host +:+ match path with "" => "" | _ => String "/" (stripTrailingSlash path) end)
    = Some p'
    /\ hostname p' = host.
Proof.
  intros Hne Hhost Hpath. destruct path as [|c path].
  - rewrite str_app_nil_r. eexists. split; [now apply refParseBody_host | reflexivity].
  - eexists. split.
    + apply refParseBody_path; try assumption.
      now apply allChars_stripTrailingSlash.
    + reflexivity.
Qed.

Lemma refParseURL_wss body : refParseURL ("wss://" +:+ body) = refParseBody "wss:" body.
Proof. unfold refParseURL. now rewrite stripPrefix_app. Qed.

Lemma refParseURL_ws body : refParseURL ("ws://" +:+ body) = refParseBody "ws:" body.
Proof.
  unfold refParseURL.
  replace (stripPrefix "wss://" ("ws://" +:+ body)) with (@None string) by reflexivity.
  now rewrite stripPrefix_app.
Qed.

#[export] Instance refPlatformLaws : PlatformLaws refPlatform.
Proof.
  constructor. intros u p Hparse _. simpl in *. unfold refParseURL in Hparse.
  destruct (stripPrefix "wss://" u) as [body|].
  - apply refParseBody_Some in Hparse as (host & path & Hne & Hhost & Hpath & ->).
    cbn [href hostname]. rewrite strip_href.
    change ("wss:" +:+ "//") with "wss://". rewrite refParseURL_wss.
    now apply refParseBody_tail.
  - destruct (stripPrefix "ws://" u) as [body|]; [|discriminate].
    apply refParseBody_Some in Hparse as (host & path & Hne & Hhost & Hpath & ->).
    cbn [href hostname]. rewrite strip_href.
    change ("ws:" +:+ "//") with "ws://". rewrite refParseURL_ws.
    now apply refParseBody_tail.
Qed.

End RefPlatformFacts.

(** ** Concrete runs on the reference platform *)

Module Scenarios.
Import Discovery RefPlatform RefPlatformFacts RecommendFacts Sample.

Example hashtagsOf_ex :
  TopicIndex.hashtagsOf
    (note "e1" [["t"; "Bitcoin"]; ["p"; "x"]; ["t"]; ["t"; ""]; ["t"; "nostr"; "z"]])
  = ["bitcoin"; "nostr"].
Proof. reflexivity. Qed.

(** One note with two topics, delivered by two relays: one entry in the
    message list, two relays with one delivery each. *)
Example two_relays_ex :
  let e := note "e1" [["t"; "bitcoin"]; ["t"; "nostr"]] in
  let st := TopicIndex.run [(e, "wss://a.example"); (e, "wss://b.example")] in
  TopicIndex.getHashtagEvents "bitcoin" (TopicIndex.hashtagEvents st) = [e]
  /\ TopicIndex.getHashtagRelayDistribution "bitcoin"
       (TopicIndex.hashtagRelayDistribution st)
     = [ {| TopicIndex.relay := "wss://a.example"; TopicIndex.count := 1 |};
         {| TopicIndex.relay := "wss://b.example"; TopicIndex.count := 1 |} ].
Proof. split; vm_compute; reflexivity. Qed.

Example matchNip19_ex :
  Regex.matchAll Regex.matchNip19At
    "see nostr:nprofile1qqqwss://relay.example/ and nevent1 x naddr1zz9"
  = ["nprofile1qqqwss"; "naddr1zz9"].
Proof. reflexivity. Qed.

Example matchUrl_ex :
  Regex.matchAll Regex.matchUrlAt
    "a wss://relay.example/x, ws://h:80/p). wss://a.b:x"
  = ["wss://relay.example/x,"; "ws://h:80/p)."; "wss://a.b"].
Proof. reflexivity. Qed.

Example normalize_ex : Helpers.normalizeRelayUrl "wss://relay.example/" = relayUrl.
Proof. reflexivity. Qed.

Example contact_ex :
  fst (getRecommendedRelays now
         (snd (processContactEvent
                 (contactList "B" (contactContent "bob" "wss://relay.example/"))
                 afterAnnouncement)))
  = [ {| Recommended.url := "wss://relay.example";
         Recommended.readRecs := 2;
         Recommended.writeRecs := 1;
         Recommended.totalRecs := 3;
         Recommended.lastSeen := 1700000200000;
         Recommended.sources := [nip65; contacts];
         Recommended.score := 8 |} ].
Proof. vm_compute. reflexivity. Qed.

Lemma afterAnnouncement_table :
  relayRecommendations afterAnnouncement = [(relayUrl, announced)].
Proof. vm_compute. reflexivity. Qed.

Lemma afterAnnouncement_wf : JsMap.wf (relayRecommendations afterAnnouncement).
Proof. rewrite afterAnnouncement_table. apply NoDup_singleton. Qed.

Lemma ttl_eviction_witness :
  (relayUrl ∉ Recommended.url <$> fst (getRecommendedRelays later afterAnnouncement))
  /\ JsMap.get relayUrl
       (relayRecommendations (snd (getRecommendedRelays later afterAnnouncement))) = None
  /\ JsMap.get relayUrl (relayRecommendations (cleanup later afterAnnouncement)) = None.
Proof.
  apply (ttl_eviction later afterAnnouncement relayUrl announced).
  - apply (bool_decide_unpack _). vm_compute. exact I.
  - vm_compute. reflexivity.
  - vm_compute. reflexivity.
Defined.



Lemma isBlacklisted_spec_witness :
  isBlacklisted defaultStandardConfig "relay.example" = true
  /\ (forall acc entry,
        RelayListEntry.url entry = "relay.example" ->
        nip65Step defaultStandardConfig acc entry = acc)
  /\ (forall acc event, nip19Step defaultStandardConfig event acc "relay.example" = acc)
  /\ (forall acc event, contactStep defaultStandardConfig event acc "relay.example" = acc).
Proof.
  apply (isBlacklisted_spec defaultStandardConfig "relay.example").
  vm_compute. reflexivity.
Defined.

Lemma returned_relays_witness :
  relayUrl ∈ fst (process (Nip65 announcement) afterAnnouncement).
Proof.
  apply (returned_relays (Nip65 announcement) afterAnnouncement relayUrl).
  - apply (bool_decide_unpack _). vm_compute. exact I.
  - exists announced. split; vm_compute; reflexivity.
Defined.

(** C2 fails as stated: the entry already meets the threshold 2 before
    the second call, and the second call returns its URL. *)
Lemma redelivery_returned_again :
  minFolloweeRecommendations (config afterAnnouncement) = 2%Z
  /\ JsMap.get relayUrl (relayRecommendations afterAnnouncement) = Some announced
  /\ totalRecsOf announced = 2
  /\ fst (processNip65Event announcement afterAnnouncement) = [relayUrl].
Proof. repeat split; vm_compute; reflexivity. Qed.

Lemma blacklist_precedence_witness :
  let calls :=
    [Nip65 (relayList "A" [["r"; "wss://relay.example.com/"]; ["r"; "wss://relay.example/"]]);
     Contact (contactList "B" (contactContent "bob" "wss://localhost/"));
     Nip65 (relayList "B" [["r"; "wss://relay.example.com/"]])] in
  let d := processAll calls (create defaultStandardConfig) in
  JsMap.get "wss://relay.example.com" (relayRecommendations d) = None
  /\ ("wss://relay.example.com" ∉ Recommended.url <$> fst (getRecommendedRelays now d)).
Proof.
  apply (blacklist_precedence defaultStandardConfig _ now "wss://relay.example.com").
  vm_compute. reflexivity.
Defined.

(** C3, the code at the scenario's input: after the announcement of [A]
    and the hint note of [B], [getRecommendedRelays] returns one entry,
    for [wss://relay.example], with [totalRecs = 2] from [A] alone (read
    and write) and with the announcement as its only source: the hint
    note returned nothing and recorded nothing. *)
Theorem hint_scenario :
  let d1 := afterAnnouncement in
  let d2 := snd (processNip19Hints hintNote d1) in
  fst (processNip19Hints hintNote d1) = []
  /\ d2 = d1
  /\ fst (getRecommendedRelays now d2)
     = [ {| Recommended.url := "wss://relay.example";
            Recommended.readRecs := 1;
            Recommended.writeRecs := 1;
            Recommended.totalRecs := 2;
            Recommended.lastSeen := 1700000000000;
            Recommended.sources := [nip65];
            Recommended.score := 7 |} ].
Proof.
  cbv zeta. repeat split; vm_compute; reflexivity.
Qed.

End Scenarios.

(** * Facts about the further code *)

(** ** Relay discovery: eviction, ranking, statistics *)

Module DiscoveryMoreFacts.
Import JsString Helpers JsMapFacts JsArrayFacts Discovery EndorseFacts RecommendFacts
  DiscoveryMore.

Section WithPlatform.
Context {P : Platform}.

Implicit Types (t : list (string * RelayData))
  (cfg : StandardRelayDiscoveryConfig) (data : RelayData) (u : string)
  (d : StandardRelayDiscovery) (now : Z).

Lemma filter_filter {A} (f g : A -> bool) (l : list A) :
  List.filter f (List.filter g l) = List.filter (fun a => g a && f a) l.
Proof.
  induction l as [|a l IH]; [reflexivity|]. simpl.
  destruct (g a); simpl; [destruct (f a)|]; now rewrite IH.
Qed.

Lemma evictExpired_filter cfg now snapshot t :
  evictExpired cfg now snapshot t =
    List.filter
      (fun kv =>
         negb (existsb (fun kv' => String.eqb (fst kv') (fst kv)
                                    && expired cfg now (snd kv')) snapshot))
      t.
Proof.
  revert t. induction snapshot as [|[k data] snapshot IH]; intros t.
  - simpl. induction t as [|kv t IHt]; [reflexivity|]. simpl. now rewrite <- IHt.
  - unfold evictExpired in *. rewrite foldl_cons, IH. cbn [fst snd existsb].
    destruct (expired cfg now data).
    + unfold JsMap.delete. rewrite filter_filter. apply List.filter_ext.
      intros kv. rewrite andb_true_r, negb_orb.
      now rewrite (String.eqb_sym k (fst kv)).
    + apply List.filter_ext. intros kv. now rewrite andb_false_r.
Qed.

Lemma existsb_expired_wf cfg now t kv :
  JsMap.wf t -> kv ∈ t ->
  existsb (fun kv' => String.eqb (fst kv') (fst kv) && expired cfg now (snd kv')) t
  = expired cfg now (snd kv).
Proof.
  intros Hwf Hin. destruct (expired cfg now (snd kv)) eqn:E.
  - apply existsb_exists. exists kv. split; [now apply list_elem_of_In|].
    now rewrite String.eqb_refl, E.
  - apply not_true_is_false. intros H. apply existsb_exists in H as [kv' [Hin' H]].
    apply andb_true_iff in H as [Hk He]. apply String.eqb_eq in Hk.
    apply list_elem_of_In in Hin'.
    destruct kv as [k v], kv' as [k' v']. simpl in *. subst k'.
    apply (elem_get _ _ _ Hwf) in Hin, Hin'. congruence.
Qed.

Lemma evictExpired_self cfg now t :
  JsMap.wf t ->
  evictExpired cfg now t t = List.filter (fun kv => negb (expired cfg now (snd kv))) t.
Proof.
  intros Hwf. rewrite evictExpired_filter. apply List.filter_ext_in.
  intros kv Hin. rewrite existsb_expired_wf; [reflexivity | exact Hwf |].
  now apply list_elem_of_In.
Qed.

Lemma evicted_table now d :
  JsMap.wf (relayRecommendations d) ->
  let fresh :=
    List.filter (fun kv => negb (expired (config d) now (snd kv)))
                (relayRecommendations d) in
  cleanup now d = withTable d fresh
  /\ snd (getRecommendedRelays now d) = withTable d fresh.
Proof.
  intros Hwf fresh. split.
  - unfold cleanup. now rewrite evictExpired_self.
  - unfold getRecommendedRelays. cbn [snd]. now rewrite evictExpired_self.
Qed.

(** X1: [cleanup] and [getRecommendedRelays] leave in the map exactly the
    entries that are not expired, in their order, and change nothing
    else. *)
Theorem eviction_keeps_fresh now d :
  JsMap.wf (relayRecommendations d) ->
  let fresh :=
    List.filter (fun kv => negb (expired (config d) now (snd kv)))
                (relayRecommendations d) in
  cleanup now d = withTable d fresh
  /\ snd (getRecommendedRelays now d) = withTable d fresh
  /\ cleanup now (cleanup now d) = cleanup now d.
Proof.
  intros Hwf fresh. destruct (evicted_table now d Hwf) as [Hc Hsnd].
  fold fresh in Hc, Hsnd.
  split; [exact Hc|]. split; [exact Hsnd|].
  rewrite Hc. unfold cleanup. cbn [relayRecommendations config withTable].
  rewrite evictExpired_self.
  + unfold withTable. cbn. f_equal. unfold fresh. rewrite filter_filter.
    apply List.filter_ext. intros kv. now destruct (expired (config d) now (snd kv)).
  + unfold fresh, JsMap.wf, JsMap.keys.
    eapply sublist_NoDup; [exact Hwf|]. apply fmap_sublist.
    clear. induction (relayRecommendations d) as [|kv l IH]; [constructor|].
    simpl. destruct (negb _); [now constructor | now apply sublist_cons].
Qed.

Lemma filter_sublist {A} (f : A -> bool) (l : list A) : List.filter f l `sublist_of` l.
Proof.
  induction l as [|a l IH]; [constructor|]. simpl.
  destruct (f a); [now constructor | now apply sublist_cons].
Qed.

Lemma StronglySorted_take {A} (R : A -> A -> Prop) n (l : list A) :
  StronglySorted R l -> StronglySorted R (take n l).
Proof.
  intros Hs. revert n. induction Hs as [|a l Hs IH Hall]; intros [|n]; simpl;
    try constructor.
  - apply IH.
  - now apply Forall_take.
Qed.

Lemma slice0_sublist {A} (n : Z) (l : list A) : JsArray.slice0 n l `sublist_of` l.
Proof. unfold JsArray.slice0. destruct (n <? 0)%Z; apply sublist_take. Qed.

Lemma slice0_sorted {A} (R : A -> A -> Prop) (n : Z) (l : list A) :
  StronglySorted R l -> StronglySorted R (JsArray.slice0 n l).
Proof. unfold JsArray.slice0. destruct (n <? 0)%Z; apply StronglySorted_take. Qed.

Lemma score_bounds cfg kv :
  let r := toRecommended cfg kv in
  Recommended.totalRecs r = Recommended.readRecs r + Recommended.writeRecs r
  /\ (Z.of_nat (Recommended.totalRecs r) <= Recommended.score r
      <= Z.of_nat (Recommended.totalRecs r) + 17)%Z.
Proof.
  destruct kv as [u data]. simpl. split; [reflexivity|].
  destruct (isPreferredDomain cfg u), (includes nip65 (sources data)),
    (includes nip19 (sources data)); lia.
Qed.

(** X2: The result of [getRecommendedRelays] is ordered by descending
    score, has at most [maxRelays] elements when [maxRelays] is not
    negative, names no URL twice, and every score is the combined
    count plus at most 17 of bonus. *)
Theorem recommended_ranked now d :
  let out := fst (getRecommendedRelays now d) in
  StronglySorted (JsArray.desc Recommended.score) out
  /\ ((0 <= maxRelays (config d))%Z ->
      (Z.of_nat (length out) <= maxRelays (config d))%Z)
  /\ (JsMap.wf (relayRecommendations d) -> NoDup (Recommended.url <$> out))
  /\ (forall r, r ∈ out ->
        Recommended.totalRecs r = Recommended.readRecs r + Recommended.writeRecs r
        /\ (Z.of_nat (Recommended.totalRecs r) <= Recommended.score r
            <= Z.of_nat (Recommended.totalRecs r) + 17)%Z).
Proof.
  intros out. unfold out, getRecommendedRelays. cbn [fst].
  set (kept := List.filter _ (relayRecommendations d)).
  split; [|split; [|split]].
  - apply slice0_sorted.
    apply (sort_sorted byScore Recommended.score). reflexivity.
  - intros Hpos. unfold JsArray.slice0.
    destruct (maxRelays (config d) <? 0)%Z eqn:E; [apply Z.ltb_lt in E; lia|].
    rewrite length_take. lia.
  - intros Hwf.
    eapply sublist_NoDup; [|apply fmap_sublist, slice0_sublist].
    rewrite sort_perm, <- list_fmap_compose.
    eapply sublist_NoDup; [exact Hwf|].
    unfold JsMap.keys.
    rewrite (list_fmap_ext (Recommended.url ∘ toRecommended (config d)) fst kept)
      by (intros i kv _; apply url_toRecommended).
    apply fmap_sublist, filter_sublist.
  - intros r Hr. apply elem_of_slice0, elem_of_sort, list_elem_of_fmap in Hr as [kv [-> _]].
    apply score_bounds.
Qed.

Lemma wf_filter {V} (f : string * V -> bool) (m : list (string * V)) :
  JsMap.wf m -> JsMap.wf (List.filter f m).
Proof.
  unfold JsMap.wf, JsMap.keys. intros Hwf.
  eapply sublist_NoDup; [exact Hwf | apply fmap_sublist, filter_sublist].
Qed.

(** X3: Reading twice at the same time: the second [getRecommendedRelays]
    returns what the first returned and changes nothing. *)
Theorem recommended_twice now d :
  JsMap.wf (relayRecommendations d) ->
  getRecommendedRelays now (snd (getRecommendedRelays now d))
  = (fst (getRecommendedRelays now d), snd (getRecommendedRelays now d)).
Proof.
  intros Hwf.
  destruct (evicted_table now d Hwf) as (_ & Hsnd).
  rewrite Hsnd. unfold getRecommendedRelays.
  cbn [fst snd relayRecommendations config withTable].
  rewrite !evictExpired_self by (try apply wf_filter; exact Hwf).
  rewrite !filter_filter. f_equal.
  - do 3 f_equal. apply List.filter_ext. intros kv.
    now destruct (expired (config d) now (snd kv)).
  - unfold withTable. cbn. f_equal. apply List.filter_ext. intros kv.
    now destruct (expired (config d) now (snd kv)).
Qed.

Lemma length_filter_le {A} (f : A -> bool) (l : list A) :
  length (List.filter f l) <= length l.
Proof. apply sublist_length, filter_sublist. Qed.

(** X4: [getStats] evicts like [cleanup]; its counts are taken over the
    entries that are left, so none exceeds [totalDiscovered]. *)
Theorem getStats_counts now d :
  JsMap.wf (relayRecommendations d) ->
  let stats := fst (getStats now d) in
  snd (getStats now d) = cleanup now d
  /\ totalDiscovered stats
     = length (List.filter (fun kv => negb (expired (config d) now (snd kv)))
                           (relayRecommendations d))
  /\ recommendedRelays stats <= totalDiscovered stats
  /\ nip65Events stats <= totalDiscovered stats
  /\ nip19Hints stats <= totalDiscovered stats
  /\ contactEvents stats <= totalDiscovered stats
  /\ followedUsers stats = size (followedPubkeys d).
Proof.
  intros Hwf stats.
  destruct (evicted_table now d Hwf) as (Hc & Hsnd).
  assert (Hg : getStats now d =
    (let table := relayRecommendations (snd (getRecommendedRelays now d)) in
     {| totalDiscovered := length table;
        recommendedRelays := length (fst (getRecommendedRelays now d));
        nip65Events := length (List.filter (hasSource nip65) table);
        nip19Hints := length (List.filter (hasSource nip19) table);
        contactEvents := length (List.filter (hasSource contacts) table);
        followedUsers := size (followedPubkeys (snd (getRecommendedRelays now d))) |},
     snd (getRecommendedRelays now d))).
  { unfold getStats. now destruct (getRecommendedRelays now d). }
  unfold stats. rewrite Hg. cbn [fst snd]. rewrite Hsnd, <- Hc.
  split; [reflexivity|]. rewrite Hc.
  cbn [relayRecommendations followedPubkeys withTable totalDiscovered
       recommendedRelays nip65Events nip19Hints contactEvents followedUsers].
  split; [reflexivity|].
  split; [|repeat split; apply length_filter_le].
  unfold getRecommendedRelays. cbn [fst].
  etransitivity; [apply sublist_length, slice0_sublist|].
  rewrite sort_perm, length_fmap.
  etransitivity; [|apply (sublist_length (List.filter
    (fun kv => negb (expired (config d) now kv.2) && meetsThreshold (config d) kv.2)
    (relayRecommendations d)))].
  - reflexivity.
  - clear. induction (relayRecommendations d) as [|kv l IH]; [constructor|].
    simpl. destruct (negb (expired (config d) now kv.2)); simpl.
    + destruct (meetsThreshold (config d) kv.2); [now constructor | now apply sublist_cons].
    + exact IH.
Qed.

(** *** Entries only grow *)

Lemma extends_refl data : extends data data.
Proof. unfold extends. repeat split; try reflexivity. Qed.

Lemma extends_trans data1 data2 data3 :
  extends data1 data2 -> extends data2 data3 -> extends data1 data3.
Proof.
  unfold extends. intros (Hr & Hw & Ht & Hs) (Hr' & Hw' & Ht' & Hs').
  repeat split; try (etransitivity; eassumption).
Qed.

Lemma extends_updated x data : extends data (updated x data).
Proof.
  unfold extends, updated, endorsed. simpl. repeat split.
  - destruct (e_read x); [apply union_subseteq_r | reflexivity].
  - destruct (e_write x); [apply union_subseteq_r | reflexivity].
  - lia.
  - destruct (includes (e_source x) (sources data)); [reflexivity|].
    now apply prefix_app_r.
Qed.

Lemma tableAfter_extends x t u data :
  JsMap.get u t = Some data ->
  exists data', JsMap.get u (tableAfter x t) = Some data' /\ extends data data'.
Proof.
  intros Hget. rewrite get_tableAfter.
  destruct (String.eqb_spec (e_url x) u) as [->|Hne].
  - eexists. split; [reflexivity|]. rewrite Hget. apply extends_updated.
  - exists data. split; [exact Hget | apply extends_refl].
Qed.

Lemma tableAll_extends xs t u data :
  JsMap.get u t = Some data ->
  exists data', JsMap.get u (tableAll xs t) = Some data' /\ extends data data'.
Proof.
  revert t data. induction xs as [|x xs IH]; intros t data Hget.
  - exists data. split; [exact Hget | apply extends_refl].
  - destruct (tableAfter_extends x t u data Hget) as (data1 & Hget1 & He1).
    destruct (IH _ _ Hget1) as (data2 & Hget2 & He2).
    exists data2. split; [exact Hget2 | now apply (extends_trans _ data1)].
Qed.

(** X5: Processing removes nothing: after any sequence of calls an entry is
    still there, with every author it had in each set, a [lastSeen]
    that is not smaller, and its sources as a prefix of the new
    list. *)
Theorem processing_extends calls d u data :
  JsMap.get u (relayRecommendations d) = Some data ->
  exists data',
    JsMap.get u (relayRecommendations (processAll calls d)) = Some data'
    /\ extends data data'.
Proof.
  revert d data. induction calls as [|c calls IH]; intros d data Hget.
  - exists data. split; [exact Hget | apply extends_refl].
  - destruct (process_fold c d) as (_ & Ht & _).
    destruct (tableAll_extends (endorsements (config d) c) _ u data Hget)
      as (data1 & Hget1 & He1).
    rewrite <- Ht in Hget1.
    destruct (IH _ _ Hget1) as (data2 & Hget2 & He2).
    exists data2. split; [exact Hget2 | now apply (extends_trans _ data1)].
Qed.

(** *** What every entry satisfies *)

Lemma includes_elem (src : Source) l : includes src l = true <-> src ∈ l.
Proof.
  unfold includes. rewrite existsb_exists. split.
  - intros [y [Hy E]]. apply list_elem_of_In in Hy.
    now replace src with y by (destruct src, y; simpl in E; congruence).
  - intros H. exists src. split; [now apply list_elem_of_In | now destruct src].
Qed.

Lemma entryOk_updated x data :
  e_read x || e_write x = true ->
  data = freshData \/ entryOk data ->
  entryOk (updated x data).
Proof.
  intros Hrw Hdata.
  assert (Hsize : forall (s : gset string) a, 1 <= size ({[a]} ∪ s)).
  { intros s a. etransitivity; [|apply subseteq_size, union_subseteq_l].
    now rewrite size_singleton. }
  assert (Hpre : (0 <= lastSeen data)%Z /\ NoDup (sources data)).
  { destruct Hdata as [-> | (_ & Ht & Hs & _)]; [|now split].
    simpl. split; [lia | constructor]. }
  destruct Hpre as [Ht Hs].
  unfold entryOk, updated, endorsed, totalRecsOf. simpl. repeat split.
  - destruct (e_read x); [pose proof (Hsize (readRecommendations data) (e_author x)); lia|].
    destruct (e_write x); [|discriminate].
    pose proof (Hsize (writeRecommendations data) (e_author x)). lia.
  - lia.
  - destruct (includes (e_source x) (sources data)) eqn:E; [exact Hs|].
    apply NoDup_app. split; [exact Hs|]. split; [|apply NoDup_singleton].
    intros y Hy Hy'. apply list_elem_of_singleton in Hy'. subst y.
    apply includes_elem in Hy. congruence.
  - destruct (includes (e_source x) (sources data)) eqn:E.
    + intros Hnil. rewrite Hnil in E. discriminate.
    + now destruct (sources data).
Qed.

Lemma endorsements_read_write cfg c x :
  x ∈ endorsements cfg c -> e_read x || e_write x = true.
Proof.
  destruct c as [e|e|e]; simpl.
  - destruct (negb (nip65Enabled cfg) || negb (kind e =? 10002)%Z);
      [intros H; now apply elem_of_nil in H|].
    unfold endorsementsNip65, parseNip65RelayList. intros H.
    apply list_elem_of_fmap in H as [entry [-> H]].
    apply list_elem_of_In, filter_In in H as [H _]. apply list_elem_of_In in H.
    destruct (negb (kind e =? 10002)%Z); [now apply elem_of_nil in H|].
    apply list_elem_of_omap in H as [tag [_ H]]. unfold entryOfTag in H.
    destruct (tag !! 0%nat) as [t0|]; [|discriminate].
    destruct (tag !! 1%nat) as [t1|]; [|discriminate].
    destruct (_ && _ && _); [|discriminate].
    destruct (tag !! 2%nat) as [marker|]; [|now injection H as <-].
    destruct (String.eqb_spec marker "read") as [->|Hr]; [now injection H as <-|].
    destruct (String.eqb_spec marker "write") as [->|Hw]; [now injection H as <-|].
    revert H. clear -Hr Hw.
    repeat (let c := fresh "c" in
            destruct marker as [|c marker];
            [try (intros [= <-]; reflexivity)|];
            try (destruct c as [[] [] [] [] [] [] [] []];
                 try (intros [= <-]; reflexivity))).
    all: try contradiction.
  - rewrite endorsementsNip19_nil.
    destruct (negb (nip19Enabled cfg)); intros H; now apply elem_of_nil in H.
  - destruct (negb (followContactRelays cfg) || negb (kind e =? 3)%Z);
      [intros H; now apply elem_of_nil in H|].
    unfold endorsementsContact. intros H.
    now apply list_elem_of_fmap in H as [relayUrl [-> H]].
Qed.

Lemma tableOk_tableAll xs t :
  tableOk t -> (forall x, x ∈ xs -> e_read x || e_write x = true) ->
  tableOk (tableAll xs t).
Proof.
  revert t. induction xs as [|x xs IH]; intros t Ht Hxs; [exact Ht|].
  change (tableOk (tableAll xs (tableAfter x t))). apply IH.
  - intros u data. rewrite get_tableAfter.
    destruct (String.eqb_spec (e_url x) u) as [<-|Hne]; [|apply Ht].
    intros [= <-]. apply entryOk_updated; [apply Hxs; left|].
    destruct (JsMap.get (e_url x) t) as [data0|] eqn:E; simpl.
    + right. now apply (Ht _ _ E).
    + now left.
  - intros y Hy. apply Hxs. now right.
Qed.

Lemma tableOk_processAll calls d :
  tableOk (relayRecommendations d) ->
  tableOk (relayRecommendations (processAll calls d)).
Proof.
  revert d. induction calls as [|c calls IH]; intros d Hd; [exact Hd|].
  simpl. apply IH. destruct (process_fold c d) as (_ & -> & _).
  apply tableOk_tableAll; [exact Hd|]. intros x. apply endorsements_read_write.
Qed.

(** X6: Every entry that processing creates has at least one endorsement, a
    [lastSeen] that is not negative, and a non-empty list of sources
    without repetition. *)
Theorem entries_ok cfg calls u data :
  JsMap.get u (relayRecommendations (processAll calls (create cfg))) = Some data ->
  1 <= totalRecsOf data
  /\ (0 <= lastSeen data)%Z
  /\ NoDup (sources data)
  /\ sources data <> [].
Proof.
  apply (tableOk_processAll calls (create cfg)). intros k v H. discriminate.
Qed.

(** *** Hints leave no trace *)

Lemma endorsements_source cfg c x :
  x ∈ endorsements cfg c -> e_source x <> nip19.
Proof.
  destruct c as [e|e|e]; simpl.
  - destruct (_ || _); [intros H; now apply elem_of_nil in H|].
    intros H. now apply list_elem_of_fmap in H as [entry [-> _]].
  - rewrite endorsementsNip19_nil.
    destruct (negb _); intros H; now apply elem_of_nil in H.
  - destruct (_ || _); [intros H; now apply elem_of_nil in H|].
    intros H. now apply list_elem_of_fmap in H as [entry [-> _]].
Qed.

Lemma noHintSource_tableAll xs t :
  noHintSource t -> (forall x, x ∈ xs -> e_source x <> nip19) ->
  noHintSource (tableAll xs t).
Proof.
  revert t. induction xs as [|x xs IH]; intros t Ht Hxs; [exact Ht|].
  change (noHintSource (tableAll xs (tableAfter x t))). apply IH.
  - intros u data. rewrite get_tableAfter.
    destruct (String.eqb_spec (e_url x) u) as [<-|Hne]; [|apply Ht].
    intros [= <-]. unfold updated, endorsed. simpl.
    assert (Hold : includes nip19 (sources (default freshData (JsMap.get (e_url x) t)))
                   = false).
    { destruct (JsMap.get (e_url x) t) as [data0|] eqn:E; simpl; [|reflexivity].
      now apply (Ht _ _ E). }
    destruct (includes (e_source x) _); [exact Hold|].
    unfold includes in *. rewrite existsb_app, Hold. simpl.
    specialize (Hxs x (list_elem_of_here _ _)).
    now destruct (e_source x).
  - intros y Hy. apply Hxs. now right.
Qed.

Lemma noHintSource_processAll calls d :
  noHintSource (relayRecommendations d) ->
  noHintSource (relayRecommendations (processAll calls d)).
Proof.
  revert d. induction calls as [|c calls IH]; intros d Hd; [exact Hd|].
  simpl. apply IH. destruct (process_fold c d) as (_ & -> & _).
  apply noHintSource_tableAll; [exact Hd|]. intros x. apply endorsements_source.
Qed.

Lemma filter_none {A} (f : A -> bool) (l : list A) :
  (forall a, a ∈ l -> f a = false) -> List.filter f l = [].
Proof.
  induction l as [|a l IH]; intros H; [reflexivity|]. simpl.
  rewrite H by left. apply IH. intros b Hb. apply H. now right.
Qed.

(** X7: Whatever is fed to the three processors of a new instance, no entry
    ever lists the hint source: no returned relay gets the hint bonus,
    so its score is the combined count plus at most 15, and [getStats]
    reports no hint. *)
Theorem hints_never_recorded cfg calls now :
  let d := processAll calls (create cfg) in
  (forall u data,
      JsMap.get u (relayRecommendations d) = Some data -> nip19 ∉ sources data)
  /\ (forall r, r ∈ fst (getRecommendedRelays now d) ->
        (nip19 ∉ Recommended.sources r)
        /\ (Recommended.score r <= Z.of_nat (Recommended.totalRecs r) + 15)%Z)
  /\ nip19Hints (fst (getStats now d)) = 0.
Proof.
  intros d.
  assert (Hno : noHintSource (relayRecommendations d)).
  { apply (noHintSource_processAll calls (create cfg)). intros k v H. discriminate. }
  assert (Hwf : JsMap.wf (relayRecommendations d)).
  { apply (wf_processAll calls (create cfg)). constructor. }
  split; [|split].
  - intros u data Hget Hin. apply includes_elem in Hin.
    rewrite (Hno _ _ Hget) in Hin. discriminate.
  - intros r Hr. apply recommended_elem in Hr as (data & Hkv & _ & _ & Hr).
    apply (elem_get _ _ _ Hwf), Hno in Hkv. rewrite Hr. simpl. split.
    + intros Hin. apply includes_elem in Hin. congruence.
    + rewrite Hkv.
      destruct (isPreferredDomain _ _), (includes nip65 (sources data)); lia.
  - assert (Hg : nip19Hints (fst (getStats now d))
                 = length (List.filter (hasSource nip19)
                             (relayRecommendations (snd (getRecommendedRelays now d))))).
    { unfold getStats. now destruct (getRecommendedRelays now d). }
    rewrite Hg. destruct (evicted_table now d Hwf) as (_ & ->).
    cbn [relayRecommendations withTable]. rewrite filter_none; [reflexivity|].
    intros [u data] Hin. unfold hasSource. simpl.
    apply list_elem_of_In, filter_In in Hin as [Hin _]. apply list_elem_of_In in Hin.
    apply (elem_get _ _ _ Hwf) in Hin. now apply (Hno _ _ Hin).
Qed.

(** *** Followed authors *)

(** X8: [processContactEvent] of an enabled instance adds every [p]-tagged
    author of a kind-3 event to [followedPubkeys], and no call of any
    processor removes an author from it. *)
Theorem followed_grows calls d :
  followedPubkeys d ⊆ followedPubkeys (processAll calls d)
  /\ (forall e tag author,
        followContactRelays (config d) = true -> kind e = 3%Z ->
        tag ∈ tags e -> tag !! 0%nat = Some "p" -> tag !! 1%nat = Some author ->
        author <> "" ->
        author ∈ followedPubkeys (snd (processContactEvent e d))).
Proof.
  split.
  - revert d. induction calls as [|c calls IH]; intros d; [reflexivity|].
    simpl. etransitivity; [|apply IH].
    rewrite followed_process. destruct c as [e|e|e]; try reflexivity.
    destruct (_ || _); [reflexivity | apply union_subseteq_r].
  - intros e tag author Hen Hk Hin H0 H1 Hne.
    change (processContactEvent e d) with (process (Contact e) d).
    rewrite followed_process, Hen, Hk. simpl.
    apply elem_of_union_l, elem_of_list_to_set, list_elem_of_omap.
    exists tag. split; [exact Hin|]. unfold followedOfTag. rewrite H0, H1.
    now destruct author.
Qed.

(** *** Parsing a relay list *)

Lemma length_omap_le {A B} (f : A -> option B) (l : list A) :
  length (omap f l) <= length l.
Proof.
  induction l as [|a l IH]; [reflexivity|].
  change (omap f (a :: l))
    with (match f a with Some y => y :: omap f l | None => omap f l end).
  destruct (f a); simpl; lia.
Qed.

Lemma marker_flags (marker : option string) :
  match marker with
  | Some "read" => (true, false)
  | Some "write" => (false, true)
  | _ => (true, true)
  end
  = (negb (bool_decide (marker = Some "write")),
     negb (bool_decide (marker = Some "read"))).
Proof.
  destruct marker as [m|]; [|reflexivity].
  destruct (decide (m = "read")) as [->|Hr]; [reflexivity|].
  destruct (decide (m = "write")) as [->|Hw]; [reflexivity|].
  rewrite !bool_decide_eq_false_2 by congruence. simpl.
  repeat (let c := fresh "c" in
          destruct m as [|c m]; [first [reflexivity | congruence]|];
          destruct c as [[] [] [] [] [] [] [] []]; try reflexivity).
Qed.

(** X9: [parseNip65RelayList] returns nothing for an event of another kind;
    for a kind-10002 event every entry comes from an [r] tag whose URL
    is valid, carries the normalised URL, the event's author and time,
    the source [nip65], and is marked for reading or writing or both. *)
Theorem parseNip65RelayList_shape e :
  (kind e <> 10002%Z -> parseNip65RelayList e = [])
  /\ length (parseNip65RelayList e) <= length (tags e)
  /\ (forall entry, entry ∈ parseNip65RelayList e ->
        kind e = 10002%Z
        /\ RelayListEntry.source entry = nip65
        /\ RelayListEntry.pubkey entry = pubkey e
        /\ RelayListEntry.timestamp entry = created_at e
        /\ RelayListEntry.read entry || RelayListEntry.write entry = true
        /\ exists tag raw,
             tag ∈ tags e /\ tag !! 0%nat = Some "r" /\ tag !! 1%nat = Some raw
             /\ raw <> "" /\ isValidRelayUrl raw = true
             /\ RelayListEntry.url entry = normalizeRelayUrl raw
             /\ RelayListEntry.read entry
                = negb (bool_decide (tag !! 2%nat = Some "write"))
             /\ RelayListEntry.write entry
                = negb (bool_decide (tag !! 2%nat = Some "read"))).
Proof.
  unfold parseNip65RelayList. split; [|split].
  - intros Hk. apply Z.eqb_neq in Hk. now rewrite Hk.
  - destruct (negb _); [simpl; lia | apply length_omap_le].
  - intros entry. destruct (Z.eqb_spec (kind e) 10002) as [Hk|Hk]; simpl;
      [|intros H; now apply elem_of_nil in H].
    intros H. apply list_elem_of_omap in H as (tag & Hin & Htag).
    unfold entryOfTag in Htag.
    destruct (tag !! 0%nat) as [t0|] eqn:E0; [|discriminate].
    destruct (tag !! 1%nat) as [t1|] eqn:E1; [|discriminate].
    destruct (String.eqb_spec t0 "r") as [->|]; [|discriminate]. simpl in Htag.
    destruct t1 as [|c t1]; [discriminate|]. simpl in Htag.
    destruct (isValidRelayUrl (String c t1)) eqn:Hv; [|discriminate].
    rewrite marker_flags in Htag. injection Htag as <-. simpl.
    repeat split; try assumption.
    + repeat case_bool_decide; simpl; congruence.
    + exists tag, (String c t1). repeat split; try assumption. discriminate.
Qed.

(** *** Preferred domains *)

Lemma matchesPreferred_spec host domain :
  matchesPreferred host domain = true <->
  host = domain \/ exists p, host = p +:+ "." +:+ domain.
Proof.
  unfold matchesPreferred. rewrite orb_true_iff, String.eqb_eq, JsStringFacts.endsWith_spec.
  reflexivity.
Qed.

(** X10: [isPreferredDomain] holds exactly when the URL parses and its host
    equals a preferred entry or ends with a dot followed by the entry.
    A URL that does not parse is never preferred, and a host that
    matches an entry for preference matches it for blacklisting too. *)
Theorem isPreferredDomain_spec cfg relayUrl :
  (isPreferredDomain cfg relayUrl = true <->
     exists url domain,
       parseURL relayUrl = Some url
       /\ domain ∈ preferredDomains cfg
       /\ (hostname url = domain
           \/ exists p, hostname url = p +:+ "." +:+ domain))
  /\ (parseURL relayUrl = None -> isPreferredDomain cfg relayUrl = false)
  /\ (forall host domain,
        matchesPreferred host domain = true -> matchesBlacklisted host domain = true).
Proof.
  split; [|split].
  - unfold isPreferredDomain. destruct (parseURL relayUrl) as [url|].
    + rewrite existsb_exists. split.
      * intros [domain [Hin Hm]]. exists url, domain.
        split; [reflexivity|]. split; [now apply list_elem_of_In|].
        now apply matchesPreferred_spec.
      * intros (url' & domain & [= <-] & Hin & Hm). exists domain.
        split; [now apply list_elem_of_In|]. now apply matchesPreferred_spec.
    + split; [discriminate|]. now intros (url & domain & Hp & _).
  - intros Hnone. unfold isPreferredDomain. now rewrite Hnone.
  - intros host domain. unfold matchesPreferred, matchesBlacklisted.
    intros H. apply orb_true_iff in H as [-> | ->]; [reflexivity|].
    now rewrite orb_true_r.
Qed.

End WithPlatform.

(** *** Export and import *)

Lemma set_fresh {V} k (v : V) m : k ∉ JsMap.keys m -> JsMap.set k v m = m ++ [(k, v)].
Proof.
  induction m as [|[k' v'] m IH]; simpl; [reflexivity|].
  intros Hk. apply not_elem_of_cons in Hk as [Hne Hk].
  destruct (String.eqb_spec k' k) as [->|_]; [contradiction|]. now rewrite IH.
Qed.

Lemma importEntry_importedData table entry :
  importEntry table entry
  = match importedData entry with
    | Some kv => JsMap.set (fst kv) (snd kv) table
    | None => table
    end.
Proof.
  unfold importEntry, importedData.
  destruct (x_url entry) as [url|]; [|reflexivity].
  destruct (x_readRecommendations entry); [|reflexivity].
  destruct (x_writeRecommendations entry); [|reflexivity].
  now destruct (truthy (Some url)).
Qed.

Lemma importedData_key entry kv : importedData entry = Some kv -> fst kv <> "".
Proof.
  unfold importedData.
  destruct (x_url entry) as [url|]; [|discriminate].
  destruct (x_readRecommendations entry); [|discriminate].
  destruct (x_writeRecommendations entry); [|discriminate].
  destruct url; [discriminate|]. now intros [= <-].
Qed.

Lemma importedData_export entry kv :
  fst kv <> "" -> sameEntry entry (exportEntry kv) -> importedData entry = Some kv.
Proof.
  destruct kv as [u [rd wr ls src]]. simpl.
  intros Hu (Hurl & Hls & Hsrc & (la & lb & Hla & [= <-] & Hp)
             & (la' & lb' & Hla' & [= <-] & Hp')).
  simpl in *. unfold importedData. rewrite Hurl, Hla, Hla', Hls, Hsrc.
  destruct u; [contradiction|]. simpl.
  now rewrite (list_to_set_perm_L _ _ Hp), (list_to_set_perm_L _ _ Hp'),
    !list_to_set_elements_L.
Qed.

Lemma import_rebuilds l : forall acc entries,
  JsMap.wf (acc ++ l) -> "" ∉ JsMap.keys l ->
  Forall2 sameEntry entries (exportEntry <$> l) ->
  foldl importEntry acc entries = acc ++ l.
Proof.
  induction l as [|kv l IH]; intros acc entries Hwf Hne H.
  - apply Forall2_nil_inv_r in H as ->. now rewrite app_nil_r.
  - rewrite fmap_cons in H. apply Forall2_cons_inv_r in H as (a & entries' & Ha & H & ->).
    unfold JsMap.keys in Hne. rewrite fmap_cons in Hne.
    apply not_elem_of_cons in Hne as [Hk Hne].
    simpl. rewrite importEntry_importedData.
    rewrite (importedData_export a kv) by (congruence || assumption).
    destruct kv as [k v]. simpl. rewrite set_fresh.
    + rewrite IH; [now rewrite <- app_assoc | now rewrite <- app_assoc | exact Hne | exact H].
    + unfold JsMap.wf, JsMap.keys in Hwf. rewrite fmap_app, fmap_cons in Hwf.
      apply NoDup_app in Hwf as (_ & Hdis & _). intros Hin.
      apply (Hdis _ Hin). left.
Qed.

Lemma applyPatch_fullPatch cfg0 cfg : applyPatch cfg0 (fullPatch cfg) = cfg.
Proof. now destruct cfg. Qed.

Lemma sameData_refl d : sameData (exportData d) (exportData d).
Proof.
  split; [|split; [|reflexivity]].
  - eexists _, _. split; [reflexivity|]. split; [reflexivity|].
    apply Forall2_same_length_lookup. split; [reflexivity|].
    intros i a b Ha Hb. rewrite Ha in Hb. injection Hb as <-.
    apply list_lookup_fmap_Some in Ha as (kv & -> & _).
    repeat split; eexists _, _; repeat split; reflexivity.
  - eexists _, _. repeat split; reflexivity.
Qed.

(** X11: Importing what [exportData] wrote, with its arrays in any order,
    into any instance gives back the exported state: table, followed
    authors and configuration. *)
Theorem import_export d d0 x :
  JsMap.wf (relayRecommendations d) ->
  "" ∉ JsMap.keys (relayRecommendations d) ->
  sameData x (exportData d) ->
  importData x d0 = d.
Proof.
  intros Hwf Hne ((la & lb & Hla & [= <-] & Hall) & (fa & fb & Hfa & [= <-] & Hp) & Hcfg).
  unfold importData. rewrite Hla, Hfa, Hcfg. simpl.
  rewrite (import_rebuilds _ [] la Hwf Hne Hall).
  rewrite (list_to_set_perm_L _ _ Hp), list_to_set_elements_L, applyPatch_fullPatch.
  now destruct d.
Qed.

Lemma import_table entries :
  let table := foldl importEntry [] entries in
  JsMap.wf table
  /\ ("" ∉ JsMap.keys table)
  /\ forall u,
       JsMap.get u table
       = snd <$> last (List.filter (fun kv => String.eqb (fst kv) u)
                         (omap importedData entries)).
Proof.
  induction entries as [|e entries IH] using rev_ind.
  - simpl. split; [constructor|]. split; [apply not_elem_of_nil | reflexivity].
  - cbv zeta in *. destruct IH as (Hwf & Hne & Hget).
    rewrite foldl_snoc, importEntry_importedData, omap_app. simpl.
    destruct (importedData e) as [[k v]|] eqn:E; simpl.
    + apply importedData_key in E. simpl in E. split; [now apply wf_set|]. split.
      * rewrite keys_set. destruct (JsMap.get k _); [exact Hne|].
        rewrite elem_of_app, list_elem_of_singleton. intros [H|H]; [now apply Hne | congruence].
      * intros u. rewrite get_set, List.filter_app. simpl.
        destruct (String.eqb k u); [now rewrite last_snoc|].
        rewrite app_nil_r. apply Hget.
    + rewrite app_nil_r. now repeat split.
Qed.

(** X12: [importData] with a [relayRecommendations] array drops the whole
    previous table, skips every element without a non-empty [url] or
    without one of the two arrays, and of several elements with one URL
    keeps the last. *)
Theorem import_last_wins x d entries :
  x_relayRecommendations x = Some entries ->
  let table := relayRecommendations (importData x d) in
  JsMap.wf table
  /\ ("" ∉ JsMap.keys table)
  /\ forall u,
       JsMap.get u table
       = snd <$> last (List.filter (fun kv => String.eqb (fst kv) u)
                         (omap importedData entries)).
Proof.
  intros Hx. unfold importData. rewrite Hx. simpl. apply import_table.
Qed.

End DiscoveryMoreFacts.

(** ** The service *)

Module ServiceFacts.
Import JsString TopicIndex JsMapFacts Service.

(** *** The index of a running service *)

Lemma index_step st op :
  index (step st op)
  = match op with
    | Deliver _ event relayUrl => deliver (index st) (event, relayUrl)
    | _ => index st
    end.
Proof.
  destruct op as [now e r|r msg|e|r|r]; try reflexivity.
  unfold step, processRelayListEvent.
  generalize (List.filter (fun relayUrl => negb (has relayUrl (relayStatuses st)))
                (relayUrlsOf e)).
  intros l. revert st. induction l as [|u l IH]; intros st; [reflexivity|].
  simpl. now rewrite IH.
Qed.

Lemma deliveriesOf_snoc ops op :
  deliveriesOf (ops ++ [op])
  = deliveriesOf ops ++ match op with
                        | Deliver _ event relayUrl => [(event, relayUrl)]
                        | _ => []
                        end.
Proof. unfold deliveriesOf. rewrite omap_app. now destruct op. Qed.

Lemma index_run ops : index (run ops) = TopicIndex.run (deliveriesOf ops).
Proof.
  unfold run, runFrom. induction ops as [|op ops IH] using rev_ind; [reflexivity|].
  rewrite foldl_snoc, index_step, deliveriesOf_snoc, IH.
  destruct op; rewrite ?app_nil_r; try reflexivity.
  unfold TopicIndex.run. now rewrite foldl_snoc.
Qed.

(** X13: The two maps of a service after any operations are those of the
    deliveries alone: errors, loaded relay lists, connections and
    removals leave the topic index and the distribution untouched.  The
    message lists are those of [trackHashtagEvents] over the delivered
    events, the distribution that of [trackHashtagRelayDistribution]
    over the deliveries. *)
Theorem service_index ops :
  index (run ops) = TopicIndex.run (deliveriesOf ops)
  /\ hashtagEvents (index (run ops)) = deliverAll (fst <$> deliveriesOf ops) ∅
  /\ hashtagRelayDistribution (index (run ops)) = recordAll (deliveriesOf ops) ∅.
Proof.
  rewrite index_run.
  destruct (DistributionFacts.run_maps (deliveriesOf ops)) as [Hd He].
  now repeat split.
Qed.

(** *** Event counts *)

Lemma sumCounts_bump (counts : gmap Z nat) k :
  sumCounts (<[k := default 0 (counts !! k) + 1]> counts) = sumCounts counts + 1.
Proof.
  unfold sumCounts.
  destruct (counts !! k) as [n|] eqn:E; simpl.
  - rewrite <- (insert_delete_id counts k n E) at 2.
    rewrite <- (insert_delete_eq counts).
    rewrite !map_fold_insert_L by first [apply lookup_delete_eq | intros; lia].
    lia.
  - rewrite map_fold_insert_L by first [exact E | intros; lia]. lia.
Qed.

Lemma counts_step st op :
  eventCounts (step st op)
  = match op with
    | Deliver _ event _ =>
        <[kind event := default 0 (eventCounts st !! kind event) + 1]> (eventCounts st)
    | _ => eventCounts st
    end
  /\ totalEvents (step st op)
     = match op with
       | Deliver _ event _ =>
           sumCounts (<[kind event := default 0 (eventCounts st !! kind event) + 1]>
                        (eventCounts st))
       | _ => totalEvents st
       end.
Proof.
  destruct op as [now e r|r msg|e|r|r]; try (split; reflexivity).
  unfold step, processRelayListEvent.
  generalize (List.filter (fun relayUrl => negb (has relayUrl (relayStatuses st)))
                (relayUrlsOf e)).
  intros l. revert st. induction l as [|u l IH]; intros st; [split; reflexivity|].
  simpl. destruct (IH (connectToRelay st u)) as [-> ->]. split; reflexivity.
Qed.

(** X14: [totalEvents$] is the number of deliveries, the count of a kind is
    the number of deliveries of events of that kind, and the counts add
    up to the total.  A message that several relays deliver is counted
    once per delivery. *)
Theorem event_totals ops :
  totalEvents (run ops) = length (deliveriesOf ops)
  /\ sumCounts (eventCounts (run ops)) = length (deliveriesOf ops)
  /\ (forall k, default 0 (eventCounts (run ops) !! k) = deliveredOfKind k ops)
  /\ (forall k, eventCounts (run ops) !! k <> Some 0).
Proof.
  unfold run, runFrom, deliveredOfKind.
  induction ops as [|op ops IH] using rev_ind.
  - simpl. repeat split; try reflexivity.
    intros k. unfold init. simpl. now rewrite lookup_empty.
  - destruct IH as (Ht & Hs & Hk & Hz).
    rewrite foldl_snoc, deliveriesOf_snoc.
    destruct (counts_step (foldl step init ops) op) as [Hc Hc'].
    rewrite Hc, Hc'. clear Hc Hc'.
    destruct op as [now e r|r msg|e|r|r]; rewrite ?app_nil_r; try now repeat split.
    rewrite sumCounts_bump, length_app, Hs. simpl. repeat split; try reflexivity.
    + intros k. rewrite List.filter_app, length_app. simpl.
      destruct (Z.eqb_spec (kind e) k) as [->|Hne].
      * rewrite lookup_insert_eq. simpl. now rewrite Hk.
      * rewrite lookup_insert_ne by exact Hne. rewrite Hk. simpl. lia.
    + intros k. destruct (decide (kind e = k)) as [->|Hne].
      * rewrite lookup_insert_eq. intros [= H]. lia.
      * rewrite lookup_insert_ne by exact Hne. apply Hz.
Qed.

(** *** Relay statuses *)

Lemma has_true r statuses : has r statuses = true <-> r ∈ JsMap.keys statuses.
Proof.
  unfold has. rewrite bool_decide_eq_true.
  destruct (JsMap.get r statuses) eqn:E.
  - split; [intros _ | now eexists].
    destruct (decide (r ∈ JsMap.keys statuses)) as [H|H]; [exact H|].
    apply get_None_keys in H. congruence.
  - split; [intros [x Hx]; discriminate|]. intros H.
    apply get_None_keys in E. contradiction.
Qed.

Lemma has_false r statuses : has r statuses = false <-> JsMap.get r statuses = None.
Proof.
  unfold has. rewrite bool_decide_eq_false.
  destruct (JsMap.get r statuses); split; try congruence.
  - intros H. exfalso. apply H. now eexists.
  - intros _ [x Hx]. discriminate.
Qed.

Lemma get_updateRelayStatus r r' isConnected message now statuses :
  JsMap.get r (updateRelayStatus r' isConnected message now statuses)
  = if String.eqb r' r then
      match JsMap.get r statuses with
      | Some status =>
          Some (if isConnected then
                  {| url := url status; connected := true;
                     eventsReceived := eventsReceived status + 1;
                     lastActivity := Some now; error := None |}
                else
                  {| url := url status; connected := false;
                     eventsReceived := eventsReceived status;
                     lastActivity := lastActivity status;
                     error := if truthy message then message else error status |})
      | None => None
      end
    else JsMap.get r statuses.
Proof.
  unfold updateRelayStatus.
  destruct (String.eqb_spec r' r) as [->|Hne].
  - destruct (JsMap.get r statuses) as [status|] eqn:E; [|exact E].
    now rewrite get_set_eq.
  - destruct (JsMap.get r' statuses); [|reflexivity].
    now rewrite get_set_ne.
Qed.

Lemma get_connectToRelay st u r :
  JsMap.get r (relayStatuses (connectToRelay st u))
  = match JsMap.get r (relayStatuses st) with
    | Some status => Some status
    | None => if String.eqb u r then Some (newStatus u) else None
    end.
Proof.
  unfold connectToRelay. simpl.
  destruct (has u (relayStatuses st)) eqn:Hu.
  - destruct (JsMap.get r (relayStatuses st)) eqn:E; [reflexivity|].
    destruct (String.eqb_spec u r) as [->|]; [|reflexivity].
    apply has_true, get_None_keys in Hu; [contradiction | exact E].
  - apply has_false in Hu. rewrite get_set.
    destruct (String.eqb_spec u r) as [->|]; [now rewrite Hu|].
    now destruct (JsMap.get r (relayStatuses st)).
Qed.

Lemma get_connectAll l : forall st r status,
  JsMap.get r (relayStatuses st) = Some status ->
  JsMap.get r (relayStatuses (foldl connectToRelay st l)) = Some status.
Proof.
  induction l as [|u l IH]; intros st r status H; [exact H|].
  simpl. apply IH. now rewrite get_connectToRelay, H.
Qed.

Lemma get_step st op r status :
  JsMap.get r (relayStatuses st) = Some status ->
  removes r op = false ->
  exists status',
    JsMap.get r (relayStatuses (step st op)) = Some status'
    /\ eventsReceived status'
       = eventsReceived status + deliveredBy r [op]
    /\ url status' = url status.
Proof.
  intros Hget Hrm. destruct op as [now e r'|r' msg|e|r'|r']; cbn [step].
  - simpl. rewrite get_updateRelayStatus, Hget. unfold deliveredBy. simpl.
    destruct (String.eqb r' r); eexists; (split; [reflexivity|]); simpl; split;
      first [reflexivity | lia].
  - simpl. rewrite get_updateRelayStatus, Hget.
    destruct (String.eqb r' r); eexists; (split; [reflexivity|]); simpl; split;
      first [reflexivity | unfold deliveredBy; simpl; lia].
  - exists status. split; [now apply get_connectAll|].
    unfold deliveredBy. simpl. split; [lia | reflexivity].
  - exists status. rewrite get_connectToRelay, Hget.
    unfold deliveredBy. simpl. repeat split. lia.
  - exists status. simpl in Hrm. simpl. rewrite get_delete.
    destruct (String.eqb_spec r' r) as [->|Hne]; [discriminate|].
    unfold deliveredBy. simpl. repeat split; [|lia].
    destruct (String.eqb_spec r r'); [congruence | exact Hget].
Qed.

Lemma deliveredBy_cons r op ops :
  deliveredBy r (op :: ops) = deliveredBy r [op] + deliveredBy r ops.
Proof.
  unfold deliveredBy, deliveriesOf.
  change (op :: ops) with ([op] ++ ops).
  now rewrite omap_app, List.filter_app, length_app.
Qed.

(** X15: As long as a registered relay is not removed, its [eventsReceived]
    grows by one with each delivery it makes and with nothing else, and
    its status keeps its [url]. *)
Theorem status_counts st ops r status :
  JsMap.get r (relayStatuses st) = Some status ->
  Forall (fun op => removes r op = false) ops ->
  exists status',
    JsMap.get r (relayStatuses (runFrom st ops)) = Some status'
    /\ eventsReceived status' = eventsReceived status + deliveredBy r ops
    /\ url status' = url status.
Proof.
  revert st status. induction ops as [|op ops IH]; intros st status Hget Hall.
  - exists status. unfold deliveredBy. simpl. repeat split; [exact Hget | lia].
  - apply Forall_cons in Hall as [Hop Hall].
    destruct (get_step st op r status Hget Hop) as (s1 & Hget1 & Hn1 & Hu1).
    destruct (IH _ _ Hget1 Hall) as (s2 & Hget2 & Hn2 & Hu2).
    exists s2. split; [exact Hget2|]. rewrite deliveredBy_cons. split; [lia | congruence].
Qed.

(** X16: Deliveries and errors register nothing: a relay without a status has
    none afterwards, although its deliveries reach the index and the
    counts. *)
Theorem traffic_registers_nothing st ops :
  Forall (fun op => isTraffic op = true) ops ->
  JsMap.keys (relayStatuses (runFrom st ops)) = JsMap.keys (relayStatuses st)
  /\ subscribed (runFrom st ops) = subscribed st
  /\ index (runFrom st ops) = foldl deliver (index st) (deliveriesOf ops).
Proof.
  revert st. induction ops as [|op ops IH]; intros st Hall; [now repeat split|].
  apply Forall_cons in Hall as [Hop Hall].
  destruct (IH (step st op) Hall) as (Hk & Hs & Hi).
  change (runFrom st (op :: ops)) with (runFrom (step st op) ops).
  rewrite Hk, Hs, Hi.
  assert (Hkeys : forall r' c msg now,
             JsMap.keys (updateRelayStatus r' c msg now (relayStatuses st))
             = JsMap.keys (relayStatuses st)).
  { intros r' c msg now. unfold updateRelayStatus.
    destruct (JsMap.get r' (relayStatuses st)) eqn:E; [|reflexivity].
    now rewrite keys_set, E. }
  destruct op as [now e r'|r' msg|e|r'|r']; try discriminate; simpl;
    now rewrite Hkeys.
Qed.

(** *** Loaded relay lists *)

Lemma keys_connectAll l : forall st before acc,
  JsMap.keys (relayStatuses st) = before ++ acc ->
  Forall (fun u => u ∉ before) l ->
  JsMap.keys (relayStatuses (foldl connectToRelay st l))
  = before ++ foldl JsArray.dedupeStep acc l.
Proof.
  induction l as [|u l IH]; intros st before acc Hk Hall; [exact Hk|].
  apply Forall_cons in Hall as [Hu Hall]. simpl. apply IH; [|exact Hall].
  unfold connectToRelay, JsArray.dedupeStep. simpl.
  destruct (has u (relayStatuses st)) eqn:E.
  - apply has_true in E. rewrite Hk, elem_of_app in E.
    destruct E as [E|E]; [contradiction|].
    apply JsArrayFacts.existsb_eqb_elem in E. now rewrite E.
  - apply has_false in E. rewrite keys_set, E, Hk, <- app_assoc.
    apply get_None_keys in E. rewrite Hk in E.
    destruct (existsb (String.eqb u) acc) eqn:E'; [|reflexivity].
    apply JsArrayFacts.existsb_eqb_elem in E'. exfalso. apply E.
    apply elem_of_app. now right.
Qed.

Lemma wf_connectAll l : forall st,
  JsMap.wf (relayStatuses st) -> JsMap.wf (relayStatuses (foldl connectToRelay st l)).
Proof.
  induction l as [|u l IH]; intros st Hwf; [exact Hwf|].
  simpl. apply IH. unfold connectToRelay. simpl.
  destruct (has u (relayStatuses st)); [exact Hwf | now apply wf_set].
Qed.

Lemma subscribed_connectAll l : forall st,
  subscribed (foldl connectToRelay st l) = subscribed st ++ l.
Proof.
  induction l as [|u l IH]; intros st; simpl; [now rewrite app_nil_r|].
  rewrite IH. simpl. now rewrite <- app_assoc.
Qed.

Lemma get_connectAll_new l : forall st u,
  u ∈ l -> JsMap.get u (relayStatuses st) = None ->
  JsMap.get u (relayStatuses (foldl connectToRelay st l)) = Some (newStatus u).
Proof.
  induction l as [|v l IH]; intros st u Hin Hnone; [now apply elem_of_nil in Hin|].
  simpl. destruct (String.eqb_spec v u) as [->|Hne].
  - apply get_connectAll. now rewrite get_connectToRelay, Hnone, String.eqb_refl.
  - apply elem_of_cons in Hin as [->|Hin]; [congruence|].
    apply IH; [exact Hin|]. rewrite get_connectToRelay, Hnone.
    destruct (String.eqb_spec v u); [congruence | reflexivity].
Qed.

(** X17: [processRelayListEvent] registers every URL of an [r] tag that has no
    status yet, whatever the string is, after the registered ones and in
    the order of first occurrence; it keeps every existing status, gives
    the new ones the initial status, and requests one subscription for
    each occurrence of a new URL, so two for a URL listed twice. *)
Theorem relay_list_registers event st :
  let st' := processRelayListEvent event st in
  let newRelays :=
    List.filter (fun u => negb (has u (relayStatuses st))) (relayUrlsOf event) in
  JsMap.keys (relayStatuses st')
    = JsMap.keys (relayStatuses st) ++ JsArray.dedupe newRelays
  /\ (JsMap.wf (relayStatuses st) -> JsMap.wf (relayStatuses st'))
  /\ (forall u, u ∈ relayUrlsOf event -> has u (relayStatuses st') = true)
  /\ (forall u status,
        JsMap.get u (relayStatuses st) = Some status ->
        JsMap.get u (relayStatuses st') = Some status)
  /\ (forall u, u ∈ newRelays ->
        JsMap.get u (relayStatuses st') = Some (newStatus u))
  /\ subscribed st' = subscribed st ++ newRelays.
Proof.
  intros st' newRelays. unfold st', processRelayListEvent. fold newRelays.
  assert (Hnew : forall u, u ∈ newRelays ->
             u ∈ relayUrlsOf event /\ JsMap.get u (relayStatuses st) = None).
  { intros u Hu. apply list_elem_of_In, filter_In in Hu as [Hu Hn].
    split; [now apply list_elem_of_In|]. apply has_false. now destruct (has u _). }
  split; [|split; [|split; [|split; [|split]]]].
  - apply (keys_connectAll newRelays st (JsMap.keys (relayStatuses st)) []);
      [now rewrite app_nil_r|].
    apply Forall_forall. intros u Hu. apply Hnew in Hu as [_ Hu].
    now apply get_None_keys.
  - apply wf_connectAll.
  - intros u Hu. destruct (JsMap.get u (relayStatuses st)) as [status|] eqn:E.
    + apply has_true. apply (get_connectAll newRelays) in E.
      destruct (decide (u ∈ JsMap.keys (relayStatuses (foldl connectToRelay st newRelays))))
        as [H|H]; [exact H|]. apply get_None_keys in H. congruence.
    + assert (Hin : u ∈ newRelays).
      { apply list_elem_of_In, filter_In. split; [now apply list_elem_of_In|].
        apply has_false in E. now rewrite E. }
      pose proof (get_connectAll_new newRelays st u Hin E) as H.
      unfold has. apply bool_decide_eq_true. rewrite H. now eexists.
  - intros u status. apply get_connectAll.
  - intros u Hu. apply get_connectAll_new; [exact Hu | now apply Hnew].
  - apply subscribed_connectAll.
Qed.

End ServiceFacts.

(** ** The topic index: what the lists hold *)

Module TopicIndexMoreFacts.
Import JsString TopicIndex TopicIndexFacts TopicIndexMore.

Lemma hashtagsOf_lower e h : h ∈ hashtagsOf e -> toLowerCase h = h /\ h <> "".
Proof.
  unfold hashtagsOf. intros H. apply list_elem_of_fmap in H as [tag [-> Hin]].
  split; [apply JsStringFacts.toLowerCase_idemp|].
  apply list_elem_of_In, filter_In in Hin as [_ Ht]. unfold isTopicTag in Ht.
  destruct (tag !! 0%nat); [|discriminate].
  apply andb_true_iff in Ht as [_ Ht].
  destruct (tag !! 1%nat) as [[|c0 t1]|]; try discriminate.
Qed.

Lemma storeEvent_sound e rest l :
  l `sublist_of` e :: rest -> storeEvent e l `sublist_of` e :: rest.
Proof.
  intros Hl. unfold storeEvent.
  assert (H1 : (if hasId (id e) l then l else e :: l) `sublist_of` e :: rest).
  { destruct (hasId (id e) l) eqn:E; [exact Hl|].
    apply sublist_skip. apply sublist_cons_r in Hl as [Hl | (l' & -> & _)]; [exact Hl|].
    simpl in E. now rewrite String.eqb_refl in E. }
  destruct (_ <? _)%nat; [|exact H1].
  etransitivity; [apply sublist_take | exact H1].
Qed.

Lemma storeEvent_nonempty e l : storeEvent e l <> [].
Proof.
  unfold storeEvent.
  assert (H : exists x l', (if hasId (id e) l then l else e :: l) = x :: l').
  { destruct (hasId (id e) l) eqn:E; [|now eexists _, _].
    destruct l; [discriminate | now eexists _, _]. }
  destruct H as (x & l' & ->). now destruct (_ <? _)%nat.
Qed.

Lemma storeEvent_elem e l x : x ∈ storeEvent e l -> x = e \/ x ∈ l.
Proof.
  unfold storeEvent. intros H.
  assert (H' : x ∈ (if hasId (id e) l then l else e :: l)).
  { destruct (_ <? _)%nat; [|exact H]. apply elem_of_take in H as (i & H & _).
    now apply list_elem_of_lookup_2 in H. }
  destruct (hasId (id e) l); [now right|]. now apply elem_of_cons in H'.
Qed.

Lemma trackOne_sound e rest m h :
  h ∈ hashtagsOf e -> soundFor (e :: rest) m -> soundFor (e :: rest) (trackOne e m h).
Proof.
  intros Hh Hm h' l. rewrite trackOne_lookup.
  destruct (decide (h = h')) as [<-|Hne]; [|apply Hm].
  intros [= <-]. destruct (hashtagsOf_lower e h Hh) as [Hlow Hne].
  assert (Hold : default [] (m !! h) `sublist_of` e :: rest
                 /\ Forall (fun x => h ∈ hashtagsOf x) (default [] (m !! h))).
  { destruct (m !! h) as [l|] eqn:E; simpl.
    - destruct (Hm h l E) as (H1 & H2 & _). now split.
    - split; [apply sublist_nil_l | constructor]. }
  destruct Hold as [Hsub Hall].
  split; [now apply storeEvent_sound|]. split; [|split; [apply storeEvent_nonempty|now split]].
  apply Forall_forall. intros x Hx. apply storeEvent_elem in Hx as [->|Hx]; [exact Hh|].
  rewrite Forall_forall in Hall. now apply Hall.
Qed.

Lemma foldl_trackOne_sound e rest hs : forall m,
  Forall (fun h => h ∈ hashtagsOf e) hs ->
  soundFor (e :: rest) m -> soundFor (e :: rest) (foldl (trackOne e) m hs).
Proof.
  induction hs as [|h hs IH]; intros m Hall Hm; [exact Hm|].
  apply Forall_cons in Hall as [Hh Hall]. simpl. apply IH; [exact Hall|].
  now apply trackOne_sound.
Qed.

Lemma deliverAll_sound events : soundFor (reverse events) (deliverAll events ∅).
Proof.
  induction events as [|e events IH] using rev_ind.
  - intros h l H. unfold deliverAll in H. simpl in H. now rewrite lookup_empty in H.
  - rewrite deliverAll_snoc, reverse_snoc. apply foldl_trackOne_sound.
    + now apply Forall_forall.
    + intros h l H. destruct (IH h l H) as (H1 & H2). split; [now apply sublist_cons | exact H2].
Qed.

(** X18: After any deliveries, the list of a topic holds only delivered
    events that reference the topic, the more recent arrival first; no
    list is empty, and every key is a non-empty lower-case string.  So
    [getHashtagEvents] never returns an event that lacks the topic. *)
Theorem index_sound events :
  (forall h l,
      deliverAll events ∅ !! h = Some l ->
      l `sublist_of` reverse events
      /\ Forall (fun e => h ∈ hashtagsOf e) l
      /\ l <> []
      /\ toLowerCase h = h
      /\ h <> "")
  /\ (forall topic e,
        e ∈ getHashtagEvents topic (deliverAll events ∅) ->
        e ∈ events /\ toLowerCase topic ∈ hashtagsOf e).
Proof.
  split; [apply deliverAll_sound|].
  intros topic e. unfold getHashtagEvents.
  destruct (deliverAll events ∅ !! toLowerCase topic) as [l|] eqn:E; simpl;
    [|intros H; now apply elem_of_nil in H].
  destruct (deliverAll_sound events _ _ E) as (Hsub & Hall & _). intros He. split.
  - apply elem_of_reverse. eapply elem_of_sublist; [exact He | exact Hsub].
  - rewrite Forall_forall in Hall. now apply Hall.
Qed.

End TopicIndexMoreFacts.

(** ** The hashtag store *)

Module StoresFacts.
Import JsString Stores.

Lemma updateExisting_None name createdAt increment hashtags :
  updateExisting name createdAt increment hashtags = None
  <-> lookupTag name hashtags = None.
Proof.
  unfold lookupTag. induction hashtags as [|h rest IH]; simpl; [tauto|].
  destruct (bool_decide (hashtag h = name)); [split; discriminate|].
  destruct (updateExisting name createdAt increment rest); simpl.
  - split; [discriminate|]. intros H. apply IH in H. discriminate.
  - split; intros _; [now apply IH | reflexivity].
Qed.

Lemma lookupTag_None name hashtags :
  lookupTag name hashtags = None <-> name ∉ hashtag <$> hashtags.
Proof.
  unfold lookupTag. induction hashtags as [|h rest IH]; simpl.
  - split; [intros _; apply not_elem_of_nil | reflexivity].
  - rewrite not_elem_of_cons. case_bool_decide as E.
    + split; [discriminate | intros [H _]; congruence].
    + rewrite IH. split; [intros H; split; [congruence | exact H] | tauto].
Qed.

Lemma lookupTag_Some name hashtags h :
  lookupTag name hashtags = Some h -> hashtag h = name /\ h ∈ hashtags.
Proof.
  unfold lookupTag. intros H. apply find_some in H as [Hin Hb].
  apply bool_decide_eq_true in Hb. split; [exact Hb | now apply list_elem_of_In].
Qed.

(** The entry of [k] after one update. *)
Lemma lookupTag_update name createdAt increment hashtags k :
  lookupTag k (updateHashtagCount name createdAt increment hashtags)
  = if bool_decide (name = k) then
      Some match lookupTag k hashtags with
           | Some h =>
               {| hashtag := hashtag h;
                  count := count h + increment;
                  lastSeen := if (lastSeen h <? createdAt * 1000)%Z
                              then (createdAt * 1000)%Z else lastSeen h;
                  trending := trending h |}
           | None =>
               {| hashtag := name; count := increment;
                  lastSeen := (createdAt * 1000)%Z; trending := false |}
           end
    else lookupTag k hashtags.
Proof.
  unfold updateHashtagCount, lookupTag.
  induction hashtags as [|h rest IH]; simpl.
  - case_bool_decide; reflexivity.
  - destruct (decide (hashtag h = name)) as [E|E].
    + rewrite (bool_decide_eq_true_2 _ E). simpl.
      destruct (decide (name = k)) as [E'|E'].
      * rewrite (bool_decide_eq_true_2 _ E').
        now rewrite (bool_decide_eq_true_2 (hashtag h = k)) by congruence.
      * rewrite (bool_decide_eq_false_2 _ E').
        now rewrite (bool_decide_eq_false_2 (hashtag h = k)) by congruence.
    + rewrite (bool_decide_eq_false_2 _ E).
      destruct (updateExisting name createdAt increment rest) as [l|]; simpl in *;
        (destruct (decide (hashtag h = k)) as [E'|E'];
         [ rewrite (bool_decide_eq_true_2 _ E');
           now rewrite (bool_decide_eq_false_2 (name = k)) by congruence
         | rewrite (bool_decide_eq_false_2 _ E'); exact IH ]).
Qed.

Lemma names_update name createdAt increment hashtags :
  hashtag <$> updateHashtagCount name createdAt increment hashtags
  = match lookupTag name hashtags with
    | Some _ => hashtag <$> hashtags
    | None => (hashtag <$> hashtags) ++ [name]
    end.
Proof.
  unfold updateHashtagCount, lookupTag.
  induction hashtags as [|h rest IH]; simpl; [reflexivity|].
  destruct (bool_decide (hashtag h = name)); simpl; [reflexivity|].
  destruct (updateExisting name createdAt increment rest) as [l|]; simpl in *;
    repeat match goal with
           | |- context [list_fmap ?A ?B ?f ?x] =>
               change (list_fmap A B f x) with (f <$> x)
           end;
    rewrite IH; now destruct (find _ rest).
Qed.

Lemma totalCounts_from a l :
  foldl (fun sum h => (sum + count h)%Z) a l = (a + totalCounts l)%Z.
Proof.
  unfold totalCounts. revert a. induction l as [|h l IH]; intros a; simpl; [lia|].
  rewrite IH, (IH (0 + count h)%Z). lia.
Qed.

Lemma totalCounts_cons h l : totalCounts (h :: l) = (count h + totalCounts l)%Z.
Proof. unfold totalCounts at 1. simpl. rewrite totalCounts_from. lia. Qed.

Lemma totalCounts_update name createdAt increment hashtags :
  totalCounts (updateHashtagCount name createdAt increment hashtags)
  = (totalCounts hashtags + increment)%Z.
Proof.
  unfold updateHashtagCount.
  induction hashtags as [|h rest IH]; simpl.
  - unfold totalCounts. simpl. lia.
  - destruct (bool_decide (hashtag h = name)); simpl.
    + rewrite !totalCounts_cons. simpl. lia.
    + destruct (updateExisting name createdAt increment rest) as [l|]; simpl in *;
        rewrite !totalCounts_cons, IH; lia.
Qed.

(** The store as a fold over the calls of [updateHashtagCount]. *)
Lemma absorbAll_updates events :
  absorbAll events
  = foldl (fun hs u => updateHashtagCount (fst u) (snd u) 1 hs) [] (updatesOf events).
Proof.
  unfold absorbAll, updatesOf. generalize (@nil HashtagCount).
  induction events as [|e events IH]; intros acc; [reflexivity|].
  simpl. rewrite foldl_app, IH. f_equal. unfold absorb.
  generalize (storeTagsOf e). clear. intros l. revert acc.
  induction l as [|k l IH]; intros acc; [reflexivity|]. simpl. apply IH.
Qed.

Lemma store_invariant log :
  let store := foldl (fun hs u => updateHashtagCount (fst u) (snd u) 1 hs) [] log in
  NoDup (hashtag <$> store)
  /\ totalCounts store = Z.of_nat (length log)
  /\ forall name,
       match lookupTag name store with
       | Some h =>
           hashtag h = name
           /\ trending h = false
           /\ count h
              = Z.of_nat (length (List.filter (fun u => bool_decide (fst u = name)) log))
           /\ (exists t, (name, t) ∈ log /\ lastSeen h = (t * 1000)%Z)
           /\ (forall t, (name, t) ∈ log -> (t * 1000 <= lastSeen h)%Z)
       | None => forall t, (name, t) ∉ log
       end.
Proof.
  induction log as [|[k t] log IH] using rev_ind.
  - simpl. split; [constructor|]. split; [reflexivity|]. intros name t. apply not_elem_of_nil.
  - cbv zeta in *. rewrite foldl_snoc. simpl.
    set (store := foldl (fun hs u => updateHashtagCount (fst u) (snd u) 1 hs) [] log) in *.
    destruct IH as (Hnd & Htot & Hall). split; [|split].
    + rewrite names_update. destruct (lookupTag k store) eqn:E; [exact Hnd|].
      apply lookupTag_None in E. apply NoDup_app. split; [exact Hnd|]. split.
      * intros x Hx Hx'. apply list_elem_of_singleton in Hx'. congruence.
      * apply NoDup_singleton.
    + rewrite totalCounts_update, Htot, length_app. simpl. lia.
    + intros name. rewrite lookupTag_update. specialize (Hall name).
      rewrite List.filter_app, length_app. simpl.
      destruct (decide (k = name)) as [->|Hne].
      * rewrite !(bool_decide_eq_true_2 (name = name)) by reflexivity.
        destruct (lookupTag name store) as [h|] eqn:E; simpl.
        -- destruct Hall as (Hn & Htr & Hc & (t0 & Hin & Hls) & Hmax).
           split; [exact Hn|]. split; [exact Htr|]. split; [lia|]. split.
           ++ destruct (Z.ltb_spec (lastSeen h) (t * 1000)).
              ** exists t. split; [|reflexivity]. apply elem_of_app. right. left.
              ** exists t0. split; [|exact Hls]. apply elem_of_app. now left.
           ++ intros t1 Hin1. apply elem_of_app in Hin1 as [Hin1|Hin1].
              ** apply Hmax in Hin1. destruct (Z.ltb_spec (lastSeen h) (t * 1000)); lia.
              ** apply list_elem_of_singleton in Hin1. injection Hin1 as ->.
                 destruct (Z.ltb_spec (lastSeen h) (t * 1000)); lia.
        -- split; [reflexivity|]. split; [reflexivity|]. split.
           ++ assert (Hz : List.filter (fun u => bool_decide (fst u = name)) log = []).
              { apply DiscoveryMoreFacts.filter_none. intros [k1 t1] Hin. simpl.
                apply bool_decide_eq_false. intros ->. now apply (Hall t1). }
              rewrite Hz. reflexivity.
           ++ split.
              ** exists t. split; [|reflexivity]. apply elem_of_app. right. left.
              ** intros t1 Hin1. apply elem_of_app in Hin1 as [Hin1|Hin1].
                 --- now apply Hall in Hin1.
                 --- apply list_elem_of_singleton in Hin1. injection Hin1 as ->. lia.
      * rewrite !(bool_decide_eq_false_2 (k = name)) by exact Hne. simpl.
        destruct (lookupTag name store) as [h|] eqn:E.
        -- destruct Hall as (Hn & Htr & Hc & (t0 & Hin & Hls) & Hmax).
           split; [exact Hn|]. split; [exact Htr|]. split; [lia|]. split.
           ++ exists t0. split; [|exact Hls]. apply elem_of_app. now left.
           ++ intros t1 Hin1. apply elem_of_app in Hin1 as [Hin1|Hin1]; [now apply Hmax|].
              apply list_elem_of_singleton in Hin1. congruence.
        -- intros t1 Hin1. apply elem_of_app in Hin1 as [Hin1|Hin1]; [now apply Hall in Hin1|].
           apply list_elem_of_singleton in Hin1. congruence.
Qed.

Lemma elem_of_updatesOf name t events :
  (name, t) ∈ updatesOf events
  <-> exists e, e ∈ events /\ name ∈ storeTagsOf e /\ t = created_at e.
Proof.
  unfold updatesOf. rewrite list_elem_of_In, in_flat_map. split.
  - intros (e & He & Hin). apply list_elem_of_In, list_elem_of_fmap in Hin as (k & [= -> ->] & Hk).
    exists e. split; [now apply list_elem_of_In|]. now split.
  - intros (e & He & Hk & ->). exists e. split; [now apply list_elem_of_In|].
    apply list_elem_of_In, list_elem_of_fmap. now exists name.
Qed.

Lemma lookupTag_elem h store :
  NoDup (hashtag <$> store) -> h ∈ store -> lookupTag (hashtag h) store = Some h.
Proof.
  unfold lookupTag. induction store as [|h' store IH]; intros Hnd Hin.
  - now apply elem_of_nil in Hin.
  - rewrite fmap_cons in Hnd. apply NoDup_cons in Hnd as [Hfresh Hnd]. simpl.
    apply elem_of_cons in Hin as [->|Hin].
    + now rewrite bool_decide_eq_true_2.
    + rewrite bool_decide_eq_false_2; [now apply IH|].
      intros E. apply Hfresh. rewrite E. now apply list_elem_of_fmap_2.
Qed.

(** X19: The store after any sequence of events of the stream: one entry for
    each distinct second element of a [t] tag, an absent one included;
    its count is the number of such tags in all the events, a repeated
    event counted again; its [lastSeen] is the latest [created_at] in
    milliseconds; no entry is ever marked trending, so the trending list
    is decided by time and count alone. *)
Theorem store_counts events :
  let store := absorbAll events in
  NoDup (hashtag <$> store)
  /\ totalCounts store = Z.of_nat (length (updatesOf events))
  /\ (forall name,
        match lookupTag name store with
        | Some h =>
            hashtag h = name
            /\ count h = Z.of_nat (uses name events)
            /\ (exists e, e ∈ events /\ name ∈ storeTagsOf e
                          /\ lastSeen h = (created_at e * 1000)%Z)
            /\ (forall e, e ∈ events -> name ∈ storeTagsOf e ->
                          (created_at e * 1000 <= lastSeen h)%Z)
        | None => forall e, e ∈ events -> name ∉ storeTagsOf e
        end)
  /\ (forall now h,
        h ∈ trendingHashtags now store
        <-> h ∈ store /\ (now - 3600000 < lastSeen h)%Z /\ (5 < count h)%Z).
Proof.
  intros store. unfold store. rewrite absorbAll_updates.
  destruct (store_invariant (updatesOf events)) as (Hnd & Htot & Hall).
  cbv zeta in *.
  set (st := foldl (fun hs u => updateHashtagCount (fst u) (snd u) 1 hs) []
               (updatesOf events)) in *.
  split; [exact Hnd|]. split; [exact Htot|]. split.
  - intros name. specialize (Hall name). destruct (lookupTag name st) as [h|].
    + destruct Hall as (Hn & _ & Hc & (t & Hin & Hls) & Hmax).
      split; [exact Hn|]. split; [exact Hc|]. split.
      * apply elem_of_updatesOf in Hin as (e & He & Hk & ->). now exists e.
      * intros e He Hk. apply Hmax. apply elem_of_updatesOf. now exists e.
    + intros e He Hk. apply (Hall (created_at e)). apply elem_of_updatesOf. now exists e.
  - intros now h. unfold trendingHashtags.
    rewrite list_elem_of_In, filter_In, <- list_elem_of_In. split.
    + intros [Hin Hb]. split; [exact Hin|].
      pose proof (Hall (hashtag h)) as Hh. rewrite (lookupTag_elem _ _ Hnd Hin) in Hh.
      destruct Hh as (_ & Htr & _). rewrite Htr in Hb. simpl in Hb.
      apply andb_true_iff in Hb as [H1 H2]. split; lia.
    + intros (Hin & H1 & H2). split; [exact Hin|].
      apply orb_true_iff. right. apply andb_true_iff. split; lia.
Qed.

End StoresFacts.

(** ** Helpers *)

Module HelpersMoreFacts.
Import JsString JsStringFacts Regex RegexFacts JsArray JsArrayFacts Stores HelpersMore.

(** *** Sorting with a comparator that is a total preorder *)

Section SortLe.
Context {A : Type} (cmp : A -> A -> Z).
Context (Htotal : forall a b, (0 < cmp a b)%Z -> (cmp b a <= 0)%Z).
Context (Htrans : forall a b c, (cmp a b <= 0)%Z -> (cmp b c <= 0)%Z -> (cmp a c <= 0)%Z).

Lemma insert_sorted_le x l :
  StronglySorted (fun a b => (cmp a b <= 0)%Z) l ->
  StronglySorted (fun a b => (cmp a b <= 0)%Z) (insert cmp x l).
Proof.
  induction l as [|y l IH]; simpl; intros Hs.
  - constructor; constructor.
  - apply StronglySorted_inv in Hs as [Hs Hall].
    destruct (0 <? cmp x y)%Z eqn:E.
    + apply Z.ltb_lt in E. constructor; [now apply IH|].
      rewrite insert_perm. constructor; [now apply Htotal | exact Hall].
    + apply Z.ltb_ge in E. constructor; [now constructor|].
      constructor; [exact E|].
      eapply Forall_impl; [exact Hall|]. intros z Hz. now apply (Htrans x y z).
Qed.

Lemma sort_sorted_le l : StronglySorted (fun a b => (cmp a b <= 0)%Z) (sort cmp l).
Proof.
  induction l as [|x l IH]; simpl; [constructor | now apply insert_sorted_le].
Qed.
End SortLe.

Section Sorting.
Context (localeCompare : option string -> option string -> Z).

Lemma compare_inOrder sortBy direction a b :
  sortBy <> byAlphabetical ->
  (compareHashtags localeCompare sortBy direction a b <= 0)%Z
  <-> inOrder localeCompare sortBy direction a b.
Proof.
  intros Hk. unfold compareHashtags, inOrder, comparison, keyLe.
  destruct sortBy; try congruence; destruct direction;
    try (split; intros; lia);
    destruct (trending a), (trending b); simpl; split; intros H;
    try lia; try (right; split; [reflexivity | lia]);
    try (left; split; reflexivity);
    try (destruct H as [[H1 H2] | [H1 H2]]; try discriminate; lia).
Qed.

Lemma sortHashtags_ordered hashtags sortBy direction :
  sortBy <> byAlphabetical ->
  StronglySorted (inOrder localeCompare sortBy direction)
    (sortHashtags localeCompare hashtags sortBy direction).
Proof.
  intros Hk.
  apply (StronglySorted_impl
           (fun a b => (compareHashtags localeCompare sortBy direction a b <= 0)%Z)).
  - intros a b. now apply compare_inOrder.
  - apply sort_sorted_le.
    + intros a b. unfold compareHashtags, comparison.
      destruct sortBy; try congruence; destruct direction; try lia;
        destruct (trending a), (trending b); simpl; lia.
    + intros a b c. unfold compareHashtags, comparison.
      destruct sortBy; try congruence; destruct direction; try lia;
        destruct (trending a), (trending b), (trending c); simpl; lia.
Qed.

(** X20: [sortHashtags] by count, by time or by the trending flag returns
    a rearrangement of its argument in which every element stands
    before the elements that follow it in the chosen order: for
    [trending], flagged entries first when descending, and by count
    among equally flagged ones. *)
Theorem sortHashtags_sorted hashtags sortBy direction :
  sortBy <> byAlphabetical ->
  sortHashtags localeCompare hashtags sortBy direction ≡ₚ hashtags
  /\ StronglySorted (inOrder localeCompare sortBy direction)
       (sortHashtags localeCompare hashtags sortBy direction).
Proof.
  intros Hk. split; [apply sort_perm | now apply sortHashtags_ordered].
Qed.
End Sorting.

(** *** The colour of a hashtag *)

Lemma toInt32_range z : (- 2 ^ 31 <= toInt32 z < 2 ^ 31)%Z.
Proof.
  unfold toInt32. pose proof (Z.mod_pos_bound (z + 2 ^ 31) (2 ^ 32)). lia.
Qed.

Lemma hashStep_bound hash c :
  (Z.abs (hashStep hash c) <= Z.abs hash + (2 ^ 31 + 255))%Z.
Proof.
  unfold hashStep, shl5.
  pose proof (toInt32_range (toInt32 hash * 32)).
  pose proof (nat_ascii_bounded c). lia.
Qed.

Lemma foldl_hashStep_bound l : forall hash,
  (Z.abs (foldl hashStep hash l) <= Z.abs hash + (2 ^ 31 + 255) * Z.of_nat (length l))%Z.
Proof.
  induction l as [|c l IH]; intros hash; simpl; [lia|].
  pose proof (IH (hashStep hash c)). pose proof (hashStep_bound hash c). lia.
Qed.

Lemma length_list_ascii s : length (list_ascii_of_string s) = String.length s.
Proof. induction s as [|c s IH]; simpl; [reflexivity | now rewrite IH]. Qed.

(** X21: [getHashtagColor] never returns [undefined]: the index is below 17
    for every string.  The hash is not confined to 32 bits: its
    magnitude grows by at most [2^31] and a code unit with each code
    unit, which stays within the integers that a number holds exactly
    for every string of fewer than four million code units. *)
Theorem getHashtagColor_total hashtag :
  (exists color, getHashtagColor hashtag = Some color /\ color ∈ colors)
  /\ (Z.abs (hashOf hashtag)
      <= (2 ^ 31 + 65535) * Z.of_nat (String.length hashtag))%Z
  /\ ((Z.of_nat (String.length hashtag) < 4000000)%Z ->
      (Z.abs (hashOf hashtag) < 2 ^ 53)%Z).
Proof.
  assert (Hb : (Z.abs (hashOf hashtag)
                <= (2 ^ 31 + 255) * Z.of_nat (String.length hashtag))%Z).
  { unfold hashOf. pose proof (foldl_hashStep_bound (list_ascii_of_string hashtag) 0) as H.
    rewrite length_list_ascii in H. lia. }
  split; [|split; lia].
  unfold getHashtagColor.
  destruct (lookup_lt_is_Some_2 colors
              (Z.to_nat (Z.abs (hashOf hashtag) mod Z.of_nat (length colors))))
    as [color Hc].
  - pose proof (Z.mod_pos_bound (Z.abs (hashOf hashtag)) (Z.of_nat (length colors))).
    simpl in *. lia.
  - exists color. split; [exact Hc|]. now apply list_elem_of_lookup_2 in Hc.
Qed.

(** *** Escaping *)

Lemma concatMap_app f a b : concatMap f (a +:+ b) = concatMap f a +:+ concatMap f b.
Proof.
  induction a as [|c a IH]; [now rewrite str_app_nil_l|].
  rewrite str_app_cons. simpl. now rewrite IH, str_app_assoc.
Qed.

Lemma concatMap_concatMap f g s :
  concatMap f (concatMap g s) = concatMap (fun a => concatMap f (g a)) s.
Proof.
  induction s as [|c s IH]; simpl; [reflexivity|]. now rewrite concatMap_app, IH.
Qed.

Lemma concatMap_ext f g s : (forall a, f a = g a) -> concatMap f s = concatMap g s.
Proof. intros H. induction s as [|c s IH]; simpl; [reflexivity|]. now rewrite H, IH. Qed.

Lemma replaceAll_concatMap c rep s :
  replaceAll c rep s
  = concatMap (fun a => if Ascii.eqb a c then rep else String a EmptyString) s.
Proof.
  induction s as [|a s IH]; simpl; [reflexivity|]. rewrite IH.
  destruct (Ascii.eqb a c); [reflexivity|]. now rewrite str_app_cons, str_app_nil_l.
Qed.

Lemma escapeHtml_concatMap s : escapeHtml s = concatMap escapeChar s.
Proof.
  unfold escapeHtml. rewrite !replaceAll_concatMap, !concatMap_concatMap.
  apply concatMap_ext. intros a.
  destruct a as [[] [] [] [] [] [] [] []]; vm_compute; reflexivity.
Qed.

Lemma escapeChar_clean a : allChars (fun c => negb (isMarkup c)) (escapeChar a) = true.
Proof. destruct a as [[] [] [] [] [] [] [] []]; vm_compute; reflexivity. Qed.

Lemma escapeChar_cases a :
  escapeChar a = "&amp;" \/ escapeChar a = "&lt;" \/ escapeChar a = "&gt;"
  \/ escapeChar a = "&quot;" \/ escapeChar a = "&#039;"
  \/ (escapeChar a = String a EmptyString /\ a <> "&"%char).
Proof.
  unfold escapeChar.
  destruct (Ascii.eqb_spec a "&"); [tauto|].
  destruct (Ascii.eqb_spec a "<"); [tauto|].
  destruct (Ascii.eqb_spec a ">"); [tauto|].
  destruct (Ascii.eqb_spec a dquote); [tauto|].
  destruct (Ascii.eqb_spec a "'"); [tauto|].
  now repeat right.
Qed.

Lemma escapeChar_of a :
  (escapeChar a = "&amp;" -> a = "&"%char)
  /\ (escapeChar a = "&lt;" -> a = "<"%char)
  /\ (escapeChar a = "&gt;" -> a = ">"%char)
  /\ (escapeChar a = "&quot;" -> a = dquote)
  /\ (escapeChar a = "&#039;" -> a = "'"%char).
Proof.
  destruct a as [[] [] [] [] [] [] [] []]; vm_compute; repeat split;
    first [reflexivity | discriminate].
Qed.

Lemma escapeChar_prefix a b x y :
  escapeChar a +:+ x = escapeChar b +:+ y -> a = b /\ x = y.
Proof.
  intros H.
  destruct (escapeChar_of a) as (Ha1 & Ha2 & Ha3 & Ha4 & Ha5).
  destruct (escapeChar_of b) as (Hb1 & Hb2 & Hb3 & Hb4 & Hb5).
  destruct (escapeChar_cases a) as [Ea|[Ea|[Ea|[Ea|[Ea|[Ea Na]]]]]];
    destruct (escapeChar_cases b) as [Eb|[Eb|[Eb|[Eb|[Eb|[Eb Nb]]]]]];
    rewrite Ea, Eb in H; rewrite ?str_app_cons, ?str_app_nil_l in H;
    try discriminate;
    try (injection H as H; split; [now rewrite ?Ha1, ?Ha2, ?Ha3, ?Ha4, ?Ha5,
                                      ?Hb1, ?Hb2, ?Hb3, ?Hb4, ?Hb5 by assumption
                                  | exact H]);
    try (injection H as H1 H2; congruence).
  injection H as H1 H2. now split.
Qed.

Lemma concatMap_escape_inj s : forall t,
  concatMap escapeChar s = concatMap escapeChar t -> s = t.
Proof.
  induction s as [|a s IH]; intros [|b t] H; simpl in H.
  - reflexivity.
  - exfalso. destruct (escapeChar_cases b) as [E|[E|[E|[E|[E|[E _]]]]]];
      rewrite E in H; rewrite ?str_app_cons in H; discriminate.
  - exfalso. destruct (escapeChar_cases a) as [E|[E|[E|[E|[E|[E _]]]]]];
      rewrite E in H; rewrite ?str_app_cons in H; discriminate.
  - apply escapeChar_prefix in H as [-> H]. now rewrite (IH t H).
Qed.

Lemma allChars_concatMap p f s :
  (forall a, allChars p (f a) = true) -> allChars p (concatMap f s) = true.
Proof.
  intros H. induction s as [|c s IH]; simpl; [reflexivity|].
  now rewrite allChars_app, H, IH.
Qed.

(** X22: The five replacements of [escapeHtml] amount to one pass that
    replaces each code unit by its entity; the result holds no [<], [>]
    or quote, and two different strings have different results. *)
Theorem escapeHtml_spec unsafe :
  escapeHtml unsafe = concatMap escapeChar unsafe
  /\ allChars (fun c => negb (isMarkup c)) (escapeHtml unsafe) = true
  /\ (forall other, escapeHtml unsafe = escapeHtml other -> unsafe = other).
Proof.
  split; [apply escapeHtml_concatMap|]. split.
  - rewrite escapeHtml_concatMap. apply allChars_concatMap, escapeChar_clean.
  - intros other. rewrite !escapeHtml_concatMap. apply concatMap_escape_inj.
Qed.

(** *** Hashtags of a text *)

Lemma matchHashtagAt_Some s m :
  matchHashtagAt s = Some m ->
  exists body, m = String "#" body /\ body <> "" /\ allChars isWordChar body = true.
Proof.
  unfold matchHashtagAt. destruct s as [|c r]; [discriminate|].
  destruct (Ascii.eqb_spec c "#") as [->|Hne].
  - pose proof (allChars_takeWhile isWordChar r) as Hb.
    destruct (takeWhile isWordChar r) as [|c0 body]; [discriminate|].
    intros [= <-]. eexists. split; [reflexivity|]. split; [discriminate | exact Hb].
  - intros H. exfalso. revert H.
    destruct c as [[] [] [] [] [] [] [] []]; try discriminate. now contradiction Hne.
Qed.

Lemma lowerChar_tag c : isWordChar c = true -> isTagChar (lowerChar c) = true.
Proof. destruct c as [[] [] [] [] [] [] [] []]; vm_compute; congruence. Qed.

Lemma toLowerCase_tag s :
  allChars isWordChar s = true -> allChars isTagChar (toLowerCase s) = true.
Proof.
  induction s as [|c s IH]; simpl; [reflexivity|].
  intros H. apply andb_true_iff in H as [Hc Hs].
  now rewrite lowerChar_tag, IH.
Qed.

Lemma matchAllFrom_skip matchAt s : forall skip,
  String.length s <= skip -> matchAllFrom matchAt skip s = [].
Proof.
  induction s as [|c s IH]; intros skip H; simpl; [reflexivity|].
  destruct skip as [|k]; simpl in H; [lia|]. apply IH. lia.
Qed.

(** X23: Every hashtag that [extractHashtags] returns is a non-empty string
    of lower-case letters, digits and underscores; a text that is one
    hash sign followed by such characters in any case gives that one
    hashtag in lower case. *)
Theorem extractHashtags_shape content :
  Forall (fun h => h <> "" /\ allChars isTagChar h = true /\ toLowerCase h = h)
         (extractHashtags content)
  /\ (forall word,
        word <> "" -> allChars isWordChar word = true ->
        extractHashtags (String "#" word) = [toLowerCase word]).
Proof.
  split.
  - apply Forall_forall. intros h Hh. unfold extractHashtags in Hh.
    apply list_elem_of_fmap in Hh as (m & -> & Hm).
    apply matchAllFrom_elem in Hm as (s' & Hm).
    apply matchHashtagAt_Some in Hm as (body & -> & Hne & Hall). simpl.
    split; [now destruct body|]. split; [now apply toLowerCase_tag|].
    apply toLowerCase_idemp.
  - intros word Hne Hall. unfold extractHashtags, matchAll. simpl.
    rewrite (RefPlatformFacts.takeWhile_all _ _ Hall).
    destruct word as [|c w]; [contradiction|]. simpl.
    rewrite matchAllFrom_skip by (simpl; lia). reflexivity.
Qed.

End HelpersMoreFacts.

(** ** The filtered list of the hashtag store *)

Module StoreViewFacts.
Import JsString JsStringFacts JsArrayFacts Stores HelpersMore HelpersMoreFacts StoreView.

Lemma str_app_empty a b : a +:+ b = "" -> a = "" /\ b = "".
Proof.
  destruct a as [|c a]; [rewrite str_app_nil_l; now split|].
  rewrite str_app_cons. discriminate.
Qed.

Lemma includesStr_spec h q :
  includesStr h q = true <-> exists before rest, h = before +:+ q +:+ rest.
Proof.
  induction h as [|c h IH]; cbn [includesStr].
  - rewrite orb_false_r, startsWith_spec. split.
    + intros [t Ht]. exists "", t. now rewrite str_app_nil_l.
    + intros (before & rest & H). symmetry in H.
      apply str_app_empty in H as [-> H]. apply str_app_empty in H as [-> ->].
      now exists "".
  - rewrite orb_true_iff, IH, (startsWith_spec (String c h) q). split.
    + intros [[t Ht] | (before & rest & ->)].
      * exists "", t. now rewrite str_app_nil_l.
      * exists (String c before), rest. now rewrite str_app_cons.
    + intros (before & rest & H). destruct before as [|c' before].
      * left. exists rest. now rewrite str_app_nil_l in H.
      * right. rewrite str_app_cons in H. injection H as _ ->. now exists before, rest.
Qed.

Lemma toLowerCase_empty s : toLowerCase s = "" <-> s = "".
Proof. destruct s; simpl; split; congruence. Qed.

Lemma filterByQuery_None query hashtags :
  filterByQuery query hashtags = None <-> exists h, h ∈ hashtags /\ hashtag h = None.
Proof.
  induction hashtags as [|h rest IH]; simpl.
  - split; [discriminate | intros (h & Hin & _); now apply elem_of_nil in Hin].
  - destruct (hashtag h) as [name|] eqn:E.
    + destruct (filterByQuery query rest) as [rest'|].
      * split; [discriminate|]. intros (h' & Hin & Hn).
        apply elem_of_cons in Hin as [->|Hin]; [congruence|].
        destruct IH as [_ IH]. discriminate IH. now exists h'.
      * split; [|reflexivity]. intros _.
        destruct IH as [IH _]. destruct (IH eq_refl) as (h' & Hin & Hn).
        exists h'. split; [now right | exact Hn].
    + split; [|reflexivity]. intros _. exists h. split; [left | exact E].
Qed.

Lemma filterByQuery_Some query hashtags out :
  filterByQuery query hashtags = Some out ->
  out = List.filter (fun h => match hashtag h with
                              | Some name => includesStr (toLowerCase name) query
                              | None => false
                              end) hashtags.
Proof.
  revert out. induction hashtags as [|h rest IH]; simpl; intros out.
  - now intros [= <-].
  - destruct (hashtag h) as [name|]; [|discriminate].
    destruct (filterByQuery query rest) as [rest'|]; [|discriminate].
    intros [= <-]. rewrite <- (IH rest' eq_refl).
    now destruct (includesStr (toLowerCase name) query).
Qed.

Section WithLocale.
Context (localeCompare : option string -> option string -> Z).

(** X24: [getFilteredHashtags] sorted by count, by time or by the trending
    flag.  With an empty search text it returns the whole store,
    sorted.  With a search text it throws exactly when the store holds
    an entry without a name; otherwise it returns, sorted, exactly the
    entries whose name contains the text, whatever the case of the
    letters on either side. *)
Theorem getFilteredHashtags_spec searchQuery sort hashtags :
  key sort <> byAlphabetical ->
  let result := getFilteredHashtags localeCompare searchQuery sort hashtags in
  (searchQuery = "" ->
   result = Some (sortHashtags localeCompare hashtags (key sort) (direction sort)))
  /\ (searchQuery <> "" ->
      (result = None <-> exists h, h ∈ hashtags /\ hashtag h = None))
  /\ (forall out,
        result = Some out ->
        StronglySorted (inOrder localeCompare (key sort) (direction sort)) out
        /\ (exists kept, kept `sublist_of` hashtags /\ out ≡ₚ kept)
        /\ (forall h, h ∈ out <->
              h ∈ hashtags /\ (searchQuery = "" \/ matchesQuery searchQuery h))).
Proof.
  intros Hkey result. unfold result, getFilteredHashtags. split; [|split].
  - intros ->. reflexivity.
  - intros Hne.
    assert (Ht : truthy (Some (toLowerCase searchQuery)) = true).
    { destruct searchQuery; [contradiction | reflexivity]. }
    rewrite Ht. rewrite <- (filterByQuery_None (toLowerCase searchQuery)).
    destruct (filterByQuery (toLowerCase searchQuery) hashtags);
      split; congruence.
  - intros out.
    destruct searchQuery as [|c q].
    + simpl. intros [= <-].
      pose proof (sortHashtags_ordered localeCompare hashtags (key sort) (direction sort)
                    Hkey) as Hsorted.
      pose proof (sort_perm (compareHashtags localeCompare (key sort) (direction sort))
                    hashtags) as Hperm.
      fold (sortHashtags localeCompare hashtags (key sort) (direction sort)) in Hperm.
      split; [exact Hsorted|]. split; [now exists hashtags|].
      intros h. rewrite Hperm. split; [intros H; split; [exact H | now left] | tauto].
    + assert (Ht : truthy (Some (toLowerCase (String c q))) = true) by reflexivity.
      rewrite Ht.
      destruct (filterByQuery (toLowerCase (String c q)) hashtags) as [kept|] eqn:E;
        [|discriminate].
      intros [= <-]. apply filterByQuery_Some in E.
      pose proof (sortHashtags_ordered localeCompare kept (key sort) (direction sort)
                    Hkey) as Hsorted.
      pose proof (sort_perm (compareHashtags localeCompare (key sort) (direction sort))
                    kept) as Hperm.
      fold (sortHashtags localeCompare kept (key sort) (direction sort)) in Hperm.
      split; [exact Hsorted|]. split.
      * exists kept. split; [|exact Hperm]. rewrite E.
        apply DiscoveryMoreFacts.filter_sublist.
      * intros h. rewrite Hperm, E, list_elem_of_In, filter_In, <- list_elem_of_In.
        split.
        -- intros [Hin Hm]. split; [exact Hin|]. right.
           destruct (hashtag h) as [name|] eqn:En; [|discriminate].
           apply includesStr_spec in Hm as (before & rest & Hm).
           now exists name, before, rest.
        -- intros [Hin [Hq | (name & before & rest & Hn & Hm)]]; [discriminate|].
           split; [exact Hin|]. rewrite Hn. apply includesStr_spec.
           now exists before, rest.
Qed.
End WithLocale.

End StoreViewFacts.

(** ** The insights of the hashtag view *)

Module InsightsFacts.
Import JsString JsMapFacts JsArrayFacts TopicIndex DistributionFacts Insights.

Lemma getKey_bumpKey k k' m :
  getKey k' (bumpKey k m)
  = if bool_decide (k = k') then Some (default 0 (getKey k m) + 1) else getKey k' m.
Proof.
  unfold getKey. induction m as [|[k0 n] m IH]; simpl.
  - case_bool_decide; reflexivity.
  - destruct (decide (k0 = k)) as [->|Hne].
    + rewrite (bool_decide_eq_true_2 (k = k)) by reflexivity. simpl.
      case_bool_decide; reflexivity.
    + rewrite (bool_decide_eq_false_2 (k0 = k)) by exact Hne. simpl.
      destruct (decide (k0 = k')) as [->|Hne'].
      * rewrite (bool_decide_eq_true_2 (k' = k')) by reflexivity.
        now rewrite (bool_decide_eq_false_2 (k = k')) by congruence.
      * rewrite (bool_decide_eq_false_2 (k0 = k')) by exact Hne'. exact IH.
Qed.

Lemma getKey_None k m : getKey k m = None <-> k ∉ m.*1.
Proof.
  unfold getKey. induction m as [|[k0 n] m IH]; simpl.
  - split; [intros _; apply not_elem_of_nil | reflexivity].
  - rewrite not_elem_of_cons. case_bool_decide as E; simpl.
    + split; [discriminate | intros [H _]; congruence].
    + rewrite IH. split; [intros H; split; [congruence | exact H] | tauto].
Qed.

Lemma keys_bumpKey k m :
  (bumpKey k m).*1 = match getKey k m with Some _ => m.*1 | None => m.*1 ++ [k] end.
Proof.
  unfold getKey. induction m as [|[k0 n] m IH]; [reflexivity|].
  cbn [bumpKey]. case_bool_decide as E.
  - cbn [List.find fst]. rewrite (bool_decide_eq_true_2 _ E). simpl. now rewrite E.
  - cbn [List.find fst]. rewrite (bool_decide_eq_false_2 _ E).
    rewrite !fmap_cons, IH. now destruct (List.find _ m).
Qed.

Lemma getKey_elem k n m : NoDup m.*1 -> (k, n) ∈ m -> getKey k m = Some n.
Proof.
  unfold getKey. induction m as [|[k0 n0] m IH]; intros Hnd Hin.
  - now apply elem_of_nil in Hin.
  - rewrite fmap_cons in Hnd. apply NoDup_cons in Hnd as [Hfresh Hnd]. simpl.
    apply elem_of_cons in Hin as [[= -> ->]|Hin].
    + now rewrite bool_decide_eq_true_2.
    + rewrite bool_decide_eq_false_2; [now apply IH|].
      simpl in *. intros ->. apply Hfresh. apply list_elem_of_fmap. now exists (k, n).
Qed.

(** The related-tags map after the tags [ts], from the empty map. *)
Lemma related_invariant tag ts :
  let m := foldl (relatedStep tag) [] ts in
  NoDup m.*1
  /\ forall k,
       getKey k m
       = match length (List.filter
                         (fun t => bool_decide (t !! 0%nat = Some "t")
                                   && bool_decide (t !! 1%nat = k)) ts) with
         | 0 => None
         | n => if bool_decide (k = Some tag) then None else Some n
         end.
Proof.
  induction ts as [|t ts IH] using rev_ind.
  - simpl. split; [constructor | reflexivity].
  - cbv zeta in *. rewrite foldl_snoc. destruct IH as [Hnd Hget].
    set (m := foldl (relatedStep tag) [] ts) in *.
    unfold relatedStep.
    destruct (bool_decide (t !! 0%nat = Some "t")) eqn:E0; simpl.
    + destruct (bool_decide (t !! 1%nat = Some tag)) eqn:E1; simpl.
      * split; [exact Hnd|]. intros k. rewrite List.filter_app, length_app. simpl.
        rewrite E0. simpl. rewrite Hget.
        apply bool_decide_eq_true in E1.
        destruct (decide (t !! 1%nat = k)) as [Ek|Ek].
        -- rewrite (bool_decide_eq_true_2 _ Ek). simpl.
           rewrite (bool_decide_eq_true_2 (k = Some tag)) by congruence.
           destruct (length (List.filter _ ts)) as [|j]; rewrite ?Nat.add_1_r;
             reflexivity.
        -- rewrite (bool_decide_eq_false_2 _ Ek). simpl. now rewrite Nat.add_0_r.
      * apply bool_decide_eq_false in E1. split.
        -- rewrite keys_bumpKey. destruct (getKey (t !! 1%nat) m) eqn:Eg; [exact Hnd|].
           apply getKey_None in Eg. apply NoDup_app. split; [exact Hnd|]. split.
           ++ intros x Hx Hx'. apply list_elem_of_singleton in Hx'. congruence.
           ++ apply NoDup_singleton.
        -- intros k. rewrite getKey_bumpKey, List.filter_app, length_app. simpl.
           rewrite E0. simpl.
           destruct (decide (t !! 1%nat = k)) as [<-|Ek].
           ++ rewrite !(bool_decide_eq_true_2 (t !! 1%nat = t !! 1%nat)) by reflexivity.
              rewrite Hget. rewrite (bool_decide_eq_false_2 _ E1). simpl.
              destruct (length (List.filter _ ts)) as [|j]; simpl; [reflexivity|].
              rewrite Nat.add_1_r. reflexivity.
           ++ rewrite !(bool_decide_eq_false_2 _ Ek). simpl.
              now rewrite Nat.add_0_r.
    + split; [exact Hnd|]. intros k. rewrite List.filter_app, length_app. simpl.
      rewrite E0. simpl. now rewrite Nat.add_0_r.
Qed.

Lemma foldl_eventStep tag events : forall acc,
  foldl (eventStep tag) acc events
  = (tallyFrom (fst acc) (pubkey <$> events),
     foldl (relatedStep tag) (snd acc) (flat_map tags events)).
Proof.
  induction events as [|e events IH]; intros [a r]; [reflexivity|].
  simpl. rewrite IH. simpl. now rewrite foldl_app.
Qed.

Lemma length_dedupe l : forall acc,
  length (foldl JsArray.dedupeStep acc l) <= length acc + length l.
Proof.
  induction l as [|x l IH]; intros acc; simpl; [lia|].
  specialize (IH (JsArray.dedupeStep acc x)). unfold JsArray.dedupeStep in *.
  destruct (existsb _ acc); [lia|]. rewrite length_app in IH. simpl in IH. lia.
Qed.

Lemma countIn_eventsBy author events :
  countIn author (pubkey <$> events) = eventsBy author events.
Proof.
  unfold countIn, eventsBy. induction events as [|e events IH]; [reflexivity|].
  rewrite fmap_cons. simpl. rewrite (String.eqb_sym author).
  destruct (String.eqb (pubkey e) author); simpl; now rewrite IH.
Qed.

Section WithProfiles.
Context {Profile : Type} (getProfile : string -> option Profile).

Lemma insights_totals tag st hashtags ins :
  snd (updateHashtagData getProfile tag st hashtags) = Some ins ->
  let events := getHashtagEvents tag (hashtagEvents st) in
  HashtagInsights.uniqueAuthors ins <= length events
  /\ (events <> [] -> HashtagInsights.totalEvents ins = Z.of_nat (length events)).
Proof.
  intros H events. unfold updateHashtagData in H. cbn [snd] in H. fold events in H.
  destruct (findInStore tag hashtags) as [inStore|]; [|discriminate].
  rewrite foldl_eventStep in H. cbn [fst snd] in H.
  injection H as <-. cbn [HashtagInsights.uniqueAuthors HashtagInsights.totalEvents].
  split.
  - transitivity (length (JsMap.keys (tallyFrom [] (pubkey <$> events))));
      [unfold JsMap.keys; now rewrite length_fmap|].
    rewrite keys_tallyFrom.
    pose proof (length_dedupe (pubkey <$> events) []) as Hl.
    rewrite length_fmap in Hl. exact Hl.
  - intros Hne. destruct events; [contradiction | reflexivity].
Qed.

(** X25: The insights that [updateHashtagData] sets.  The authors are
    counted over the events of the topic that the index holds; the
    ten authors with most events are listed, most
    active first, each with its number of events.  A related tag is
    any second element of a [t] tag of those events that differs from
    the requested text as written, so another spelling of the topic
    itself counts as related; the twenty most used are listed with
    their number of uses. *)
Theorem insights_counts tag st hashtags ins :
  snd (updateHashtagData getProfile tag st hashtags) = Some ins ->
  let events := getHashtagEvents tag (hashtagEvents st) in
  HashtagInsights.uniqueAuthors ins <= length events
  /\ (events <> [] -> HashtagInsights.totalEvents ins = Z.of_nat (length events))
  /\ length (HashtagInsights.topAuthors ins) <= 10
  /\ StronglySorted (JsArray.desc (fun a => Z.of_nat (AuthorCount.count a)))
       (HashtagInsights.topAuthors ins)
  /\ NoDup (AuthorCount.pubkey <$> HashtagInsights.topAuthors ins)
  /\ (forall a, a ∈ HashtagInsights.topAuthors ins ->
        AuthorCount.count a = eventsBy (AuthorCount.pubkey a) events
        /\ 1 <= AuthorCount.count a
        /\ AuthorCount.profile a = getProfile (AuthorCount.pubkey a))
  /\ length (HashtagInsights.relatedTags ins) <= 20
  /\ StronglySorted (JsArray.desc (fun r => Z.of_nat (TagCount.count r)))
       (HashtagInsights.relatedTags ins)
  /\ NoDup (TagCount.tag <$> HashtagInsights.relatedTags ins)
  /\ (forall r, r ∈ HashtagInsights.relatedTags ins ->
        TagCount.tag r <> Some tag
        /\ TagCount.count r = tagUses (TagCount.tag r) events
        /\ 1 <= TagCount.count r).
Proof.
  intros H events. unfold updateHashtagData in H. cbn [snd] in H. fold events in H.
  destruct (findInStore tag hashtags) as [inStore|]; [|discriminate].
  rewrite foldl_eventStep in H. cbn [fst snd] in H.
  set (authors := tallyFrom [] (pubkey <$> events)) in *.
  set (related := foldl (relatedStep tag) [] (flat_map tags events)) in *.
  injection H as <-. cbn [HashtagInsights.uniqueAuthors HashtagInsights.totalEvents
                          HashtagInsights.topAuthors HashtagInsights.relatedTags].
  assert (Hwf : JsMap.wf authors) by (apply wf_tallyFrom; constructor).
  destruct (related_invariant tag (flat_map tags events)) as [Hnd Hget].
  fold related in Hnd, Hget.
  split; [|split; [|split; [|split; [|split; [|split; [|split; [|split; [|split]]]]]]]].
  - transitivity (length (JsMap.keys authors)); [unfold JsMap.keys; now rewrite length_fmap|].
    unfold authors. rewrite keys_tallyFrom.
    pose proof (length_dedupe (pubkey <$> events) []) as Hl.
    rewrite length_fmap in Hl. exact Hl.
  - intros Hne. destruct events; [contradiction | reflexivity].
  - unfold JsArray.slice0. simpl. rewrite length_take. lia.
  - apply DiscoveryMoreFacts.slice0_sorted. now apply sort_sorted.
  - eapply sublist_NoDup; [|apply fmap_sublist, DiscoveryMoreFacts.slice0_sublist].
    rewrite sort_perm, <- list_fmap_compose. exact Hwf.
  - intros a Ha. apply RecommendFacts.elem_of_slice0, elem_of_sort in Ha.
    apply list_elem_of_fmap in Ha as ([p n] & -> & Hin). simpl.
    apply (elem_get _ _ _ Hwf) in Hin. unfold authors in Hin.
    rewrite get_tallyFrom, countIn_eventsBy in Hin. simpl in Hin.
    destruct (eventsBy p events) as [|k]; [discriminate|].
    injection Hin as <-. repeat split; lia.
  - unfold JsArray.slice0. simpl. rewrite length_take. lia.
  - apply DiscoveryMoreFacts.slice0_sorted. now apply sort_sorted.
  - eapply sublist_NoDup; [|apply fmap_sublist, DiscoveryMoreFacts.slice0_sublist].
    rewrite sort_perm, <- list_fmap_compose. exact Hnd.
  - intros r Hr. apply RecommendFacts.elem_of_slice0, elem_of_sort in Hr.
    apply list_elem_of_fmap in Hr as ([k n] & -> & Hin). simpl.
    apply (getKey_elem _ _ _ Hnd) in Hin. rewrite Hget in Hin.
    fold (tagUses k events) in Hin.
    destruct (tagUses k events) as [|j]; [discriminate|].
    case_bool_decide as E; [discriminate|]. injection Hin as <-.
    repeat split; [exact E | lia].
Qed.

(** X26: [updateHashtagData] sets no insights exactly when the store holds
    an entry without a name that [find] reaches: every entry before
    it has a name that differs from the topic, whatever the case. *)
Theorem insights_missing tag st hashtags :
  snd (updateHashtagData getProfile tag st hashtags) = None
  <-> exists before h rest,
        hashtags = before ++ h :: rest
        /\ Stores.hashtag h = None
        /\ Forall (fun x => exists name,
                      Stores.hashtag x = Some name
                      /\ toLowerCase name <> toLowerCase tag) before.
Proof.
  unfold updateHashtagData. cbn [snd].
  transitivity (findInStore tag hashtags = None).
  { destruct (findInStore tag hashtags); [|tauto].
    destruct (foldl (eventStep tag) ([], []) _). split; discriminate. }
  induction hashtags as [|x l IH]; simpl.
  - split; [discriminate|]. intros (before & h & rest & H & _).
    now destruct before.
  - destruct (Stores.hashtag x) as [name|] eqn:E.
    + destruct (String.eqb_spec (toLowerCase name) (toLowerCase tag)) as [Heq|Hne].
      * split; [discriminate|]. intros (before & h & rest & H & Hn & Hall).
        destruct before as [|b before]; simpl in H; injection H as -> ->.
        -- congruence.
        -- apply Forall_cons in Hall as [(name' & Hn' & Hd) _]. congruence.
      * rewrite IH. split.
        -- intros (before & h & rest & -> & Hn & Hall).
           exists (x :: before), h, rest. split; [reflexivity|]. split; [exact Hn|].
           constructor; [now exists name | exact Hall].
        -- intros (before & h & rest & H & Hn & Hall).
           destruct before as [|b before]; simpl in H; injection H as -> ->.
           ++ congruence.
           ++ apply Forall_cons in Hall as [_ Hall]. now exists before, h, rest.
    + split; [|reflexivity]. intros _. exists [], x, l. now repeat split.
Qed.
End WithProfiles.

End InsightsFacts.

(** ** The hashtag view of a running service *)

Module ViewFacts.
Import JsString TopicIndex TopicIndexFacts TopicIndexMore TopicIndexMoreFacts
  Service ServiceFacts Insights InsightsFacts.

Section WithProfiles.
Context {Profile : Type} (getProfile : string -> option Profile).

(** X27: What the hashtag view shows for a running service: at most 100
    events with pairwise distinct ids, each delivered by some relay
    and tagged with the topic in some spelling; so at most 100
    authors, and a total that does not exceed 100 as soon as the
    index holds one event of the topic, whatever the store counted. *)
Theorem service_insights ops tag hashtags ins :
  snd (updateHashtagData getProfile tag (index (run ops)) hashtags) = Some ins ->
  let events := fst (updateHashtagData getProfile tag (index (run ops)) hashtags) in
  length events <= 100
  /\ NoDup (id <$> events)
  /\ (forall e, e ∈ events ->
        toLowerCase tag ∈ hashtagsOf e
        /\ exists relayUrl, (e, relayUrl) ∈ deliveriesOf ops)
  /\ HashtagInsights.uniqueAuthors ins <= 100
  /\ (events <> [] -> (HashtagInsights.totalEvents ins <= 100)%Z).
Proof.
  intros Hins events.
  destruct (insights_totals getProfile tag _ hashtags ins Hins) as (Hu & Ht).
  change events with (getHashtagEvents tag (hashtagEvents (index (run ops)))) in *.
  assert (He : hashtagEvents (index (run ops))
               = deliverAll (fst <$> deliveriesOf ops) ∅).
  { rewrite index_run. apply DistributionFacts.run_maps. }
  rewrite He in *.
  set (delivered := fst <$> deliveriesOf ops) in *.
  assert (Hok : listOk (getHashtagEvents tag (deliverAll delivered ∅))).
  { unfold getHashtagEvents. apply listOk_default, deliverAll_ok, indexOk_empty. }
  destruct Hok as [Hnd Hlen].
  split; [exact Hlen|]. split; [exact Hnd|]. split; [|split].
  - intros e Hin. unfold getHashtagEvents in Hin.
    destruct (deliverAll delivered ∅ !! toLowerCase tag) as [l|] eqn:E; simpl in Hin;
      [|now apply elem_of_nil in Hin].
    destruct (deliverAll_sound delivered _ _ E) as (Hsub & Hall & _).
    split; [rewrite Forall_forall in Hall; now apply Hall|].
    assert (Hd : e ∈ delivered).
    { apply elem_of_reverse. eapply elem_of_sublist; [exact Hin | exact Hsub]. }
    apply list_elem_of_fmap in Hd as ([e' r] & -> & Hd). now exists r.
  - lia.
  - intros Hne. rewrite (Ht Hne). lia.
Qed.
End WithProfiles.

End ViewFacts.

(** ** Navigation *)

Module NavigationFacts.
Import JsString JsStringFacts Regex RegexFacts Navigation.

Lemma split_head s : exists rest, split s = takeWhile notSlash s :: rest.
Proof.
  induction s as [|c s [rest IH]]; simpl; [now exists []|].
  unfold notSlash at 1. destruct (Ascii.eqb c "/"); simpl; [now eexists|].
  rewrite IH. now eexists.
Qed.

Lemma split_segment w t :
  allChars notSlash w = true -> split (w +:+ String "/" t) = w :: split t.
Proof.
  induction w as [|c w IH]; intros Hw.
  - now rewrite str_app_nil_l.
  - simpl in Hw. apply andb_true_iff in Hw as [Hc Hw].
    rewrite str_app_cons. simpl. unfold notSlash in Hc.
    destruct (Ascii.eqb c "/"); [discriminate|]. now rewrite (IH Hw).
Qed.

(** The segments of a path under [/hashtag/]. *)
Lemma split_hashtag t :
  exists rest,
    split ("/hashtag/" +:+ t) = "" :: "hashtag" :: takeWhile notSlash t :: rest.
Proof.
  destruct (split_head t) as [rest Hrest]. exists rest.
  change ("/hashtag/" +:+ t) with (String "/" ("hashtag" +:+ String "/" t)).
  cbn [split]. change (Ascii.eqb "/" "/") with true. cbv iota.
  rewrite (split_segment "hashtag" t eq_refl). now rewrite Hrest.
Qed.

Section WithDecoder.
Context (decodeURIComponent : string -> option string).

Lemma params_hashtag currentPath t :
  removeFirstHash currentPath = "/hashtag/" +:+ t ->
  getRouteParams decodeURIComponent currentPath
  = match decodeURIComponent (takeWhile notSlash t) with
    | Some tag => Some (Some tag)
    | None => None
    end.
Proof.
  intros Ht. unfold getRouteParams.
  assert (Hs : startsWith (removeFirstHash currentPath) "/hashtag/" = true)
    by (apply startsWith_spec; now exists t).
  rewrite Hs, Ht. destruct (split_hashtag t) as [rest ->]. reflexivity.
Qed.

Lemma route_hashtag currentPath :
  getCurrentRoute currentPath = "hashtag"
  <-> exists t, removeFirstHash currentPath = "/hashtag/" +:+ t.
Proof.
  unfold getCurrentRoute. rewrite <- startsWith_spec.
  destruct (startsWith (removeFirstHash currentPath) "/hashtag/"); split;
    first [reflexivity | discriminate].
Qed.

(** X28: The route is [hashtag] exactly when the path without its first
    hash sign starts with [/hashtag/], and [isRoute] agrees with
    [getCurrentRoute]; no other pattern matches.  On a hashtag route
    the test of the number of segments never fails: [getRouteParams]
    has a [tag], the decoded text between [/hashtag/] and the next
    slash, or the decoder throws.  On the home route it has none. *)
Theorem routes_agree currentPath :
  let hash := removeFirstHash currentPath in
  (getCurrentRoute currentPath = "hashtag" <-> exists t, hash = "/hashtag/" +:+ t)
  /\ (isRoute "/hashtag/:tag" currentPath = true
      <-> getCurrentRoute currentPath = "hashtag")
  /\ (isRoute "/" currentPath = true <-> hash = "/")
  /\ (forall path,
        path <> "/" -> path <> "/hashtag/:tag" -> isRoute path currentPath = false)
  /\ (forall t,
        hash = "/hashtag/" +:+ t ->
        getRouteParams decodeURIComponent currentPath
        = match decodeURIComponent (takeWhile notSlash t) with
          | Some tag => Some (Some tag)
          | None => None
          end)
  /\ (getCurrentRoute currentPath = "home" ->
      getRouteParams decodeURIComponent currentPath = Some None).
Proof.
  intros hash. unfold getCurrentRoute, isRoute, getRouteParams. fold hash.
  split; [|split; [|split; [|split; [|split]]]].
  - rewrite <- startsWith_spec. destruct (startsWith hash "/hashtag/"); split;
      first [reflexivity | discriminate].
  - simpl. destruct (startsWith hash "/hashtag/"); split;
      first [reflexivity | discriminate].
  - simpl. destruct (String.eqb_spec hash "/") as [->|Hne]; [now split|].
    split; [discriminate | contradiction].
  - intros path H1 H2.
    destruct (String.eqb_spec path "/"); [contradiction|].
    destruct (String.eqb_spec path "/hashtag/:tag"); [contradiction|]. reflexivity.
  - intros t Ht.
    assert (Hs : startsWith hash "/hashtag/" = true) by (apply startsWith_spec; now exists t).
    rewrite Hs, Ht. destruct (split_hashtag t) as [rest ->]. reflexivity.
  - destruct (startsWith hash "/hashtag/"); [discriminate | reflexivity].
Qed.
End WithDecoder.

Section RoundTrip.
Context (encodeURIComponent : string -> string)
        (decodeURIComponent : string -> option string).
Context (Hdecode : forall t, decodeURIComponent (encodeURIComponent t) = Some t).
Context (Hplain : forall t, allChars isPlain (encodeURIComponent t) = true).

Lemma removeFirstHash_plain s : allChars isPlain s = true -> removeFirstHash s = s.
Proof.
  induction s as [|c s IH]; simpl; [reflexivity|]. unfold isPlain at 1.
  intros H. apply andb_true_iff in H as [Hc Hs]. apply andb_true_iff in Hc as [_ Hc].
  destruct (Ascii.eqb c "#"); [discriminate|]. now rewrite IH.
Qed.

Lemma takeWhile_plain s : allChars isPlain s = true -> takeWhile notSlash s = s.
Proof.
  induction s as [|c s IH]; simpl; [reflexivity|]. unfold isPlain at 1, notSlash at 1.
  intros H. apply andb_true_iff in H as [Hc Hs]. apply andb_true_iff in Hc as [Hc _].
  rewrite Hc. now rewrite IH.
Qed.

(** X29: Opening a hashtag, as the list and the hashtag view do it, and
    reading the route back gives the hashtag, for an encoder whose
    output holds neither [/] nor [#] and a decoder that inverts it. *)
Theorem navigate_roundtrip tag :
  let currentPath := navigate ("/hashtag/" +:+ encodeURIComponent tag) in
  getCurrentRoute currentPath = "hashtag"
  /\ getRouteParams decodeURIComponent currentPath = Some (Some tag).
Proof.
  intros currentPath.
  assert (Hhash : removeFirstHash currentPath = "/hashtag/" +:+ encodeURIComponent tag).
  { unfold currentPath, navigate.
    change (startsWith ("/hashtag/" +:+ encodeURIComponent tag) "#") with false.
    cbv iota. rewrite str_app_cons, str_app_nil_l. cbn [removeFirstHash].
    change (Ascii.eqb "#" "#") with true. reflexivity. }
  split.
  - apply route_hashtag. now eexists.
  - rewrite (params_hashtag decodeURIComponent _ _ Hhash), takeWhile_plain
      by apply Hplain.
    now rewrite Hdecode.
Qed.
End RoundTrip.

(** The reference encoder and decoder satisfy the two hypotheses. *)
Lemma hexDecode_encode t : hexDecode (hexEncode t) = Some t.
Proof.
  induction t as [|c t IH]; [reflexivity|].
  cbn [hexEncode hexDecode]. rewrite IH.
  destruct c as [[] [] [] [] [] [] [] []]; vm_compute; reflexivity.
Qed.

Lemma hexEncode_plain t : allChars isPlain (hexEncode t) = true.
Proof.
  induction t as [|c t IH]; [reflexivity|].
  cbn [hexEncode allChars]. rewrite IH.
  destruct c as [[] [] [] [] [] [] [] []]; vm_compute; reflexivity.
Qed.

End NavigationFacts.

(** ** Further concrete runs *)

Module ScenariosMore.
Import Discovery DiscoveryMore RefPlatform RefPlatformFacts Sample SampleMore
  DiscoveryMoreFacts.

Lemma announced_table :
  relayRecommendations afterAnnouncement = [(relayUrl, announced)].
Proof. vm_compute. reflexivity. Qed.

Lemma announced_wf : JsMap.wf (relayRecommendations afterAnnouncement).
Proof. rewrite announced_table. apply NoDup_singleton. Qed.

Lemma eviction_keeps_fresh_witness :
  let fresh :=
    List.filter (fun kv => negb (expired (config afterAnnouncement) later (snd kv)))
                (relayRecommendations afterAnnouncement) in
  cleanup later afterAnnouncement = withTable afterAnnouncement fresh
  /\ snd (getRecommendedRelays later afterAnnouncement) = withTable afterAnnouncement fresh
  /\ cleanup later (cleanup later afterAnnouncement) = cleanup later afterAnnouncement.
Proof. apply (eviction_keeps_fresh later afterAnnouncement). apply announced_wf. Defined.

Lemma recommended_twice_witness :
  getRecommendedRelays now (snd (getRecommendedRelays now afterAnnouncement))
  = (fst (getRecommendedRelays now afterAnnouncement),
     snd (getRecommendedRelays now afterAnnouncement)).
Proof. apply (recommended_twice now afterAnnouncement). apply announced_wf. Defined.

Lemma getStats_counts_witness :
  let stats := fst (getStats now afterAnnouncement) in
  snd (getStats now afterAnnouncement) = cleanup now afterAnnouncement
  /\ totalDiscovered stats
     = length (List.filter
                 (fun kv => negb (expired (config afterAnnouncement) now (snd kv)))
                 (relayRecommendations afterAnnouncement))
  /\ recommendedRelays stats <= totalDiscovered stats
  /\ nip65Events stats <= totalDiscovered stats
  /\ nip19Hints stats <= totalDiscovered stats
  /\ contactEvents stats <= totalDiscovered stats
  /\ followedUsers stats = size (followedPubkeys afterAnnouncement).
Proof. apply (getStats_counts now afterAnnouncement). apply announced_wf. Defined.

Lemma processing_extends_witness :
  exists data',
    JsMap.get relayUrl
      (relayRecommendations
         (processAll [Nip65 (relayList "B" [["r"; "wss://relay.example/"; "read"]])]
            afterAnnouncement)) = Some data'
    /\ extends announced data'.
Proof.
  apply (processing_extends
           [Nip65 (relayList "B" [["r"; "wss://relay.example/"; "read"]])]
           afterAnnouncement relayUrl announced).
  vm_compute. reflexivity.
Defined.

Lemma entries_ok_witness :
  1 <= totalRecsOf announced
  /\ (0 <= lastSeen announced)%Z
  /\ NoDup (sources announced)
  /\ sources announced <> [].
Proof.
  apply (entries_ok defaultStandardConfig [Nip65 announcement] relayUrl announced).
  vm_compute. reflexivity.
Defined.

Lemma import_export_witness :
  importData (exportData afterAnnouncement) (create defaultStandardConfig)
  = afterAnnouncement.
Proof.
  apply (import_export afterAnnouncement (create defaultStandardConfig)
           (exportData afterAnnouncement)).
  - apply announced_wf.
  - apply (bool_decide_unpack _). vm_compute. exact I.
  - apply sameData_refl.
Defined.

Lemma import_last_wins_witness :
  let table := relayRecommendations (importData imported afterAnnouncement) in
  JsMap.wf table
  /\ ("" ∉ JsMap.keys table)
  /\ forall u,
       JsMap.get u table
       = snd <$> last (List.filter (fun kv => String.eqb (fst kv) u)
                         (omap importedData
                            (default [] (x_relayRecommendations imported)))).
Proof.
  apply (import_last_wins imported afterAnnouncement
           (default [] (x_relayRecommendations imported))).
  reflexivity.
Defined.

(** The later of two elements for one URL replaces the earlier, the
    element without a URL is skipped, and the previous table is gone. *)
Example import_ex :
  relayRecommendations (importData imported afterAnnouncement)
  = [("wss://a.example",
      {| readRecommendations := {[ "C" ]}; writeRecommendations := {[ "C" ]};
         lastSeen := 0; sources := [contacts] |})].
Proof. vm_compute. reflexivity. Qed.

Import Service ServiceFacts.

Lemma status_counts_witness :
  exists status',
    JsMap.get "wss://nos.lol" (relayStatuses (runFrom init operations)) = Some status'
    /\ eventsReceived status'
       = eventsReceived (newStatus "wss://nos.lol") + deliveredBy "wss://nos.lol" operations
    /\ url status' = url (newStatus "wss://nos.lol").
Proof.
  apply (status_counts init operations "wss://nos.lol" (newStatus "wss://nos.lol")).
  - vm_compute. reflexivity.
  - repeat constructor.
Defined.

Lemma traffic_registers_nothing_witness :
  JsMap.keys (relayStatuses (runFrom init traffic)) = JsMap.keys (relayStatuses init)
  /\ subscribed (runFrom init traffic) = subscribed init
  /\ index (runFrom init traffic)
     = foldl TopicIndex.deliver (index init) (deliveriesOf traffic).
Proof.
  apply (traffic_registers_nothing init traffic). repeat constructor.
Defined.

Example status_ex :
  JsMap.get "wss://nos.lol" (relayStatuses (run operations))
  = Some {| url := "wss://nos.lol"; connected := true; eventsReceived := 2;
            lastActivity := Some 9%Z; error := None |}
  /\ JsMap.get "wss://nostr.mom" (relayStatuses (run operations)) = None
  /\ totalEvents (run operations) = 2.
Proof. repeat split; vm_compute; reflexivity. Qed.

Import Stores HelpersMore HelpersMoreFacts StoreView StoreViewFacts.

Example store_ex :
  store
  = [ {| hashtag := Some "Bitcoin"; count := 1; lastSeen := 1700000000000;
         trending := false |};
      {| hashtag := Some "nostr"; count := 1; lastSeen := 1700000000000;
         trending := false |};
      {| hashtag := Some "bitcoin"; count := 1; lastSeen := 1700000000000;
         trending := false |};
      {| hashtag := None; count := 1; lastSeen := 1700000000000;
         trending := false |} ].
Proof. reflexivity. Qed.

Lemma sortHashtags_sorted_witness :
  sortHashtags noLocale store byCount desc ≡ₚ store
  /\ StronglySorted (inOrder noLocale byCount desc) (sortHashtags noLocale store byCount desc).
Proof. apply (sortHashtags_sorted noLocale store byCount desc). discriminate. Defined.

Lemma getFilteredHashtags_spec_witness :
  let sort := {| key := byRecent; direction := asc |} in
  let result := getFilteredHashtags noLocale "BIT" sort store in
  ("BIT" = "" ->
   result = Some (sortHashtags noLocale store (key sort) (direction sort)))
  /\ ("BIT" <> "" ->
      (result = None <-> exists h, h ∈ store /\ hashtag h = None))
  /\ (forall out,
        result = Some out ->
        StronglySorted (inOrder noLocale (key sort) (direction sort)) out
        /\ (exists kept, kept `sublist_of` store /\ out ≡ₚ kept)
        /\ (forall h, h ∈ out <->
              h ∈ store /\ ("BIT" = "" \/ matchesQuery "BIT" h))).
Proof.
  apply (getFilteredHashtags_spec noLocale "BIT" {| key := byRecent; direction := asc |}
           store).
  discriminate.
Defined.

(** The entry without a name makes the filter throw. *)
Example filter_throws_ex :
  getFilteredHashtags noLocale "bit" {| key := byCount; direction := desc |} store = None.
Proof. reflexivity. Qed.

Import Insights InsightsFacts ViewFacts.

Lemma insights_counts_witness :
  let events :=
    TopicIndex.getHashtagEvents "bitcoin"
      (TopicIndex.hashtagEvents (index (run traffic))) in
  HashtagInsights.uniqueAuthors bitcoinInsights <= length events
  /\ (events <> [] ->
      HashtagInsights.totalEvents bitcoinInsights = Z.of_nat (length events))
  /\ length (HashtagInsights.topAuthors bitcoinInsights) <= 10
  /\ StronglySorted (JsArray.desc (fun a => Z.of_nat (AuthorCount.count a)))
       (HashtagInsights.topAuthors bitcoinInsights)
  /\ NoDup (AuthorCount.pubkey <$> HashtagInsights.topAuthors bitcoinInsights)
  /\ (forall a, a ∈ HashtagInsights.topAuthors bitcoinInsights ->
        AuthorCount.count a = eventsBy (AuthorCount.pubkey a) events
        /\ 1 <= AuthorCount.count a
        /\ AuthorCount.profile a = noProfile (AuthorCount.pubkey a))
  /\ length (HashtagInsights.relatedTags bitcoinInsights) <= 20
  /\ StronglySorted (JsArray.desc (fun r => Z.of_nat (TagCount.count r)))
       (HashtagInsights.relatedTags bitcoinInsights)
  /\ NoDup (TagCount.tag <$> HashtagInsights.relatedTags bitcoinInsights)
  /\ (forall r, r ∈ HashtagInsights.relatedTags bitcoinInsights ->
        TagCount.tag r <> Some "bitcoin"
        /\ TagCount.count r = tagUses (TagCount.tag r) events
        /\ 1 <= TagCount.count r).
Proof.
  apply (insights_counts noProfile "bitcoin" (index (run traffic)) [] bitcoinInsights).
  vm_compute. reflexivity.
Defined.

Lemma service_insights_witness :
  let events :=
    fst (updateHashtagData noProfile "bitcoin" (index (run traffic)) []) in
  length events <= 100
  /\ NoDup (id <$> events)
  /\ (forall e, e ∈ events ->
        JsString.toLowerCase "bitcoin" ∈ TopicIndex.hashtagsOf e
        /\ exists relayUrl, (e, relayUrl) ∈ deliveriesOf traffic)
  /\ HashtagInsights.uniqueAuthors bitcoinInsights <= 100
  /\ (events <> [] -> (HashtagInsights.totalEvents bitcoinInsights <= 100)%Z).
Proof.
  apply (service_insights noProfile traffic "bitcoin" [] bitcoinInsights).
  vm_compute. reflexivity.
Defined.

Import Navigation NavigationFacts.

Lemma navigate_roundtrip_witness :
  let currentPath := navigate ("/hashtag/" +:+ hexEncode "Bitcoin") in
  getCurrentRoute currentPath = "hashtag"
  /\ getRouteParams hexDecode currentPath = Some (Some "Bitcoin").
Proof.
  apply (navigate_roundtrip hexEncode hexDecode hexDecode_encode hexEncode_plain "Bitcoin").
Defined.

Example route_ex :
  getRouteParams hexDecode "#/hashtag/6e6f/x" = Some (Some "no")
  /\ getRouteParams hexDecode "#/hashtag/" = Some (Some "")
  /\ getRouteParams hexDecode "#/hashtag/zz" = None
  /\ getRouteParams hexDecode "#/" = Some None.
Proof. repeat split; reflexivity. Qed.

Example color_ex :
  getHashtagColor "" = Some "#ef4444" /\ getHashtagColor "bitcoin" = Some "#06b6d4".
Proof. split; vm_compute; reflexivity. Qed.

Example escape_ex :
  escapeHtml "a<b & 'c'" = "a&lt;b &amp; &#039;c&#039;".
Proof. reflexivity. Qed.

Example extract_ex :
  extractHashtags "gm #Nostr, #bit_coin2! ## #" = ["nostr"; "bit_coin2"].
Proof. reflexivity. Qed.

End ScenariosMore.
